(** * fiya: flamegraphs in your app

    A shallow embedding of the fiya sources:
    - [fiya-heap-measure.h] and [fiya-heap-overloads.cpp]: the heap usage
      counters and the overloads of the global [operator new] and
      [operator delete] that feed them;
    - [fiya-string-db.h]: the string database used to intern
      [const char *] labels;
    - [fiya-recorder.h]: the label helpers, the recorder with its tree of
      measure nodes, and the two report generators.

    Conventions.  Unsigned machine integers are values of [Z] with the
    wrap-around written out.  An [assert] of the source that fails, a
    thrown [std::bad_alloc] and undefined behaviour that the source runs
    into are results [Err e].  Objects allocated with [new] live in a
    store (a list) and a pointer is an index into the store. *)

From Stdlib Require Import ZArith Lia Ascii String.
From stdpp Require Import base list gmap strings pretty.

(** ** Results of fallible code *)

Inductive error : Set :=
  | StackUnderflow   (* assert(m_current_node->m_parent != nullptr) *)
  | LabelMismatch    (* assert(m_label_helper.equal(m_current_node->m_label, label)) *)
  | OutOfMemory      (* throw std::bad_alloc() *)
  | EntryTypeAssert  (* assert(false && "Either this or other must be of type_t::STRING_SET") *)
  | DoubleFree       (* a block already released by realloc is read and freed again *)
  | WildPointer      (* a pointer that designates no live object is dereferenced *)
  | Diverges.        (* a recursion of the source does not end (the model ran out of fuel) *)

Inductive result (A : Type) : Type :=
  | Ok (a : A)
  | Err (e : error).
Arguments Ok {A} a.
Arguments Err {A} e.

#[global] Instance result_bind : MBind result :=
  fun A B (f : A → result B) (x : result A) =>
    match x with
    | Ok a => f a
    | Err e => Err e
    end.

Definition is_ok {A : Type} (x : result A) : bool :=
  match x with Ok _ => true | Err _ => false end.

Lemma bind_ok {A B : Type} (x : result A) (f : A → result B) (b : B) :
  x ≫= f = Ok b → ∃ a, x = Ok a ∧ f a = Ok b.
Proof. destruct x as [a|e]; simpl; [eauto | discriminate]. Qed.

(** The view [counter_interface_t<MeasureType>] gives of a recorder: the
    flag reported by [recorder_internal_running()] and the counter
    returned by [cnt()]. *)
Record counter_interface_t (MeasureType : Type) : Type := {
  recorder_internal_running : bool;
  cnt : MeasureType
}.
Arguments recorder_internal_running {MeasureType} _.
Arguments cnt {MeasureType} _.

(** ** fiya-heap-measure.h and fiya-heap-overloads.cpp *)

Module HeapOverlay.

Local Open Scope Z_scope.

Definition wrap64 (z : Z) : Z := z mod 2 ^ 64.

(** [struct heap_usage_t]: four [uint64_t] counters. *)
Record heap_usage_t : Set := {
  peak_allocations : Z;
  total_allocations : Z;
  current_allocations : Z;
  bad_deallocations : Z
}.

(** The constructor [heap_usage_t()]. *)
Definition heap_usage_zero : heap_usage_t :=
  {| peak_allocations := 0; total_allocations := 0;
     current_allocations := 0; bad_deallocations := 0 |}.

Definition ALLOC_MAGIC_PATTERN : Z := 0x4321cba9.
Definition HEADER_SIZE : Z := 2.
Definition sizeof_uint32 : Z := 4.
Definition max_uint32 : Z := 2 ^ 32 - 1.

(** Memory as [operator new] and [operator delete] see it: the 32-bit word
    stored at each byte address. *)
Definition memory : Type := Z → Z.

Definition store32 (mem : memory) (a v : Z) : memory :=
  fun b => if decide (b = a) then v else mem b.

(** [static_cast<uint32_t>(n > max_uint32 ? max_uint32 : n)] *)
Definition allocated_bytes_of (n : Z) : Z :=
  if decide (n > max_uint32) then max_uint32 else n.

(** The body of [if (counter && !counter->recorder_internal_running())]
    in [operator new]. *)
Definition count_allocation (allocated_bytes : Z) (hu : heap_usage_t)
  : heap_usage_t :=
  let total := wrap64 (total_allocations hu + allocated_bytes) in
  let current := wrap64 (current_allocations hu + allocated_bytes) in
  {| peak_allocations := Z.max (peak_allocations hu) current;
     total_allocations := total;
     current_allocations := current;
     bad_deallocations := bad_deallocations hu |}.

Definition counter := option (counter_interface_t heap_usage_t).

Definition with_cnt (c : counter_interface_t heap_usage_t) (hu : heap_usage_t)
  : counter_interface_t heap_usage_t :=
  {| recorder_internal_running := recorder_internal_running c; cnt := hu |}.

(** What [operator new] leaves behind. *)
Record new_result : Type := {
  new_ptr : Z;
  new_mem : memory;
  new_counter : counter
}.

(** [void * operator new(std::size_t n)].  [malloc_ret] is what
    [malloc(n + HEADER_SIZE * sizeof(uint32_t))] returned ([None] for a
    null pointer) and [get_heap_counter] what [get_heap_counter()]
    returned ([None] for a null pointer). *)
Definition operator_new (n : Z) (malloc_ret : option Z)
    (get_heap_counter : counter) (mem : memory) : result new_result :=
  match malloc_ret with
  | None => Err OutOfMemory
  | Some p =>
      let allocated_bytes := allocated_bytes_of n in
      let pu := p in
      let mem := store32 mem pu ALLOC_MAGIC_PATTERN in
      let mem := store32 mem (pu + 1 * sizeof_uint32) allocated_bytes in
      let counter' :=
        match get_heap_counter with
        | Some c =>
            if negb (recorder_internal_running c)
            then Some (with_cnt c (count_allocation allocated_bytes (cnt c)))
            else Some c
        | None => None
        end in
      Ok {| new_ptr := pu + 2 * sizeof_uint32; new_mem := mem;
            new_counter := counter' |}
  end.

(** What [operator delete] leaves behind: the counter and the pointer that
    was handed to [free] ([None] when [free] was not called). *)
Record delete_result : Type := {
  delete_counter : counter;
  delete_freed : option Z
}.

(** [void operator delete(void * p)]; the null pointer is [0]. *)
Definition operator_delete (p : Z) (get_heap_counter : counter)
    (mem : memory) : delete_result :=
  if decide (p = 0) then
    {| delete_counter := get_heap_counter; delete_freed := None |}
  else
    let pu := p - 2 * sizeof_uint32 in
    (* hu is Some exactly when the source's [hu] is not null *)
    let hu :=
      match get_heap_counter with
      | Some c => if negb (recorder_internal_running c) then Some c else None
      | None => None
      end in
    if decide (mem pu = ALLOC_MAGIC_PATTERN) then
      match hu with
      | Some c =>
          let allocation_bytes := mem (pu + 1 * sizeof_uint32) in
          let hu' :=
            {| peak_allocations := peak_allocations (cnt c);
               total_allocations := total_allocations (cnt c);
               current_allocations :=
                 wrap64 (current_allocations (cnt c) - allocation_bytes);
               bad_deallocations := bad_deallocations (cnt c) |} in
          {| delete_counter := Some (with_cnt c hu'); delete_freed := Some pu |}
      | None =>
          {| delete_counter := get_heap_counter; delete_freed := Some pu |}
      end
    else
      match hu with
      | Some c =>
          let hu' :=
            {| peak_allocations := peak_allocations (cnt c);
               total_allocations := total_allocations (cnt c);
               current_allocations := current_allocations (cnt c);
               bad_deallocations := wrap64 (bad_deallocations (cnt c) + 1) |} in
          {| delete_counter := Some (with_cnt c hu'); delete_freed := Some p |}
      | None =>
          {| delete_counter := get_heap_counter; delete_freed := Some p |}
      end.

(** A client that tracks its allocations in one counter: the recorder is
    idle ([recorder_internal_running()] is false) at every call. *)
Definition tracking (hu : heap_usage_t) : counter :=
  Some {| recorder_internal_running := false; cnt := hu |}.

Definition counter_value (c : counter) (dflt : heap_usage_t) : heap_usage_t :=
  match c with Some i => cnt i | None => dflt end.




(** The states of one counter under a run of the overloads: any call of
    [operator new] or [operator delete], with the recorder idle or busy and
    any block. *)
Inductive overlay_reachable : heap_usage_t → memory → Prop :=
  | reach_start mem : overlay_reachable heap_usage_zero mem
  | reach_new hu mem n p busy r :
      overlay_reachable hu mem →
      0 ≤ n < 2 ^ 64 →
      operator_new n (Some p)
        (Some {| recorder_internal_running := busy; cnt := hu |}) mem = Ok r →
      overlay_reachable (counter_value (new_counter r) hu) (new_mem r)
  | reach_delete hu mem p busy :
      overlay_reachable hu mem →
      overlay_reachable
        (counter_value
           (delete_counter
              (operator_delete p
                 (Some {| recorder_internal_running := busy; cnt := hu |}) mem))
           hu)
        mem.

(** *** Properties of the overloads *)

Lemma wrap64_small z : 0 ≤ z < 2 ^ 64 → wrap64 z = z.
Proof. intros H. unfold wrap64. apply Z.mod_small. exact H. Qed.

Lemma allocated_bytes_of_min n : allocated_bytes_of n = Z.min n max_uint32.
Proof. unfold allocated_bytes_of. case_decide; lia. Qed.


Lemma store32_eq mem a v : store32 mem a v a = v.
Proof. unfold store32. case_decide; congruence. Qed.

Lemma store32_ne mem a v b : b ≠ a → store32 mem a v b = mem b.
Proof. unfold store32. intros. case_decide; congruence. Qed.





(** While the recorder is busy neither overload touches the counter. *)
Lemma operator_new_busy n p c mem r :
  recorder_internal_running c = true →
  operator_new n (Some p) (Some c) mem = Ok r →
  new_counter r = Some c.
Proof.
  intros Hbusy Hnew. unfold operator_new in Hnew. rewrite Hbusy in Hnew.
  simpl in Hnew. injection Hnew as <-. reflexivity.
Qed.

Lemma operator_delete_busy p c mem :
  recorder_internal_running c = true →
  delete_counter (operator_delete p (Some c) mem) = Some c.
Proof.
  intros Hbusy. unfold operator_delete. rewrite Hbusy. simpl.
  repeat case_decide; reflexivity.
Qed.




(** A counter reached through the overloads in which [peak] is below
    [current]: a block that was allocated while the recorder was busy and
    is freed while it is idle takes [current] below zero, that is to
    [2^64 - 16], above [peak]. *)
Lemma peak_below_current_reachable :
  ∃ hu mem, overlay_reachable hu mem ∧
    peak_allocations hu = 0 ∧
    current_allocations hu = 2 ^ 64 - 16 ∧
    peak_allocations hu < current_allocations hu.
Proof.
  set (mem0 := (λ _ : Z, 0) : memory).
  set (mem1 := store32 (store32 mem0 64 ALLOC_MAGIC_PATTERN) 68 16).
  exists (counter_value
            (delete_counter
               (operator_delete 72
                  (Some {| recorder_internal_running := false;
                           cnt := heap_usage_zero |}) mem1))
            heap_usage_zero), mem1.
  split.
  - apply reach_delete.
    apply (reach_new heap_usage_zero mem0 16 64 true
             {| new_ptr := 72; new_mem := mem1;
                new_counter :=
                  Some {| recorder_internal_running := true;
                          cnt := heap_usage_zero |} |}).
    + apply reach_start.
    + lia.
    + reflexivity.
  - vm_compute. repeat split; reflexivity.
Qed.

(** What one call does to the counter.  A counted allocation leaves
    [current <= peak]; an uncounted one leaves the counter as it was.  A deallocation of a block
    whose tag does not match adds one to [bad_deallocations] when the
    recorder is idle and touches nothing else.  A counted deallocation of a
    tagged block subtracts the stored size from [current] modulo [2^64]
    and touches nothing else: it keeps [current <= peak] when the stored
    size is at most [current], and wraps [current] otherwise. *)
Theorem heap_counter_steps :
  (∀ n p busy hu mem r,
     operator_new n (Some p)
       (Some {| recorder_internal_running := busy; cnt := hu |}) mem = Ok r →
     let hu' := counter_value (new_counter r) hu in
     (busy = false →
        current_allocations hu' ≤ peak_allocations hu') ∧
     (busy = true → hu' = hu)) ∧
  (∀ p busy hu mem,
     p ≠ 0 →
     mem (p - HEADER_SIZE * sizeof_uint32) ≠ ALLOC_MAGIC_PATTERN →
     counter_value
       (delete_counter
          (operator_delete p
             (Some {| recorder_internal_running := busy; cnt := hu |}) mem)) hu
     = if busy then hu
       else {| peak_allocations := peak_allocations hu;
               total_allocations := total_allocations hu;
               current_allocations := current_allocations hu;
               bad_deallocations := wrap64 (bad_deallocations hu + 1) |}) ∧
  (∀ p busy hu mem,
     p ≠ 0 →
     mem (p - HEADER_SIZE * sizeof_uint32) = ALLOC_MAGIC_PATTERN →
     let hu' :=
       counter_value
         (delete_counter
            (operator_delete p
               (Some {| recorder_internal_running := busy; cnt := hu |}) mem))
         hu in
     hu' = (if busy then hu
            else {| peak_allocations := peak_allocations hu;
                    total_allocations := total_allocations hu;
                    current_allocations :=
                      wrap64 (current_allocations hu - mem (p - sizeof_uint32));
                    bad_deallocations := bad_deallocations hu |}) ∧
     (0 ≤ mem (p - sizeof_uint32) ≤ current_allocations hu →
      current_allocations hu ≤ peak_allocations hu →
      current_allocations hu < 2 ^ 64 →
      current_allocations hu' ≤ peak_allocations hu')).
Proof.
  split; [|split].
  - intros n p busy hu mem r Hnew hu'. subst hu'.
    unfold operator_new in Hnew. injection Hnew as <-.
    destruct busy; cbn -[wrap64 Z.max]; (split; [|done]); [done|].
    intros _. apply Z.le_max_r.
  - intros p busy hu mem Hp Hm. unfold operator_delete.
    rewrite decide_False by exact Hp.
    rewrite decide_False by (unfold HEADER_SIZE in Hm; exact Hm).
    destruct busy; reflexivity.
  - intros p busy hu mem Hp Hm hu'. subst hu'. unfold operator_delete.
    rewrite decide_False by exact Hp.
    rewrite decide_True by (unfold HEADER_SIZE in Hm; exact Hm).
    replace (p - 2 * sizeof_uint32 + 1 * sizeof_uint32)
      with (p - sizeof_uint32) by (unfold sizeof_uint32; lia).
    destruct busy; simpl.
    + split; [reflexivity|]. intros; assumption.
    + split; [reflexivity|]. intros Hsz Hpk Hlt.
      rewrite wrap64_small by lia. lia.
Qed.

(** A run of the theorem on a block of 16 bytes freed from a counter that
    holds 16. *)
Lemma heap_counter_steps_witness :
  let mem := store32 (store32 (λ _, 0) 64 ALLOC_MAGIC_PATTERN) 68 16 in
  let hu := count_allocation 16 heap_usage_zero in
  let hu' :=
    counter_value
      (delete_counter
         (operator_delete 72
            (Some {| recorder_internal_running := false; cnt := hu |}) mem))
      hu in
  hu' = {| peak_allocations := peak_allocations hu;
           total_allocations := total_allocations hu;
           current_allocations :=
              wrap64 (current_allocations hu - mem (72 - sizeof_uint32));
           bad_deallocations := bad_deallocations hu |} ∧
  current_allocations hu' ≤ peak_allocations hu'.
Proof.
  intros mem hu hu'.
  destruct (proj2 (proj2 heap_counter_steps) 72 false hu mem) as [H1 H2].
  - lia.
  - reflexivity.
  - split; [exact H1|]. apply H2.
    + vm_compute. split; discriminate.
    + vm_compute. discriminate.
    + vm_compute. reflexivity.
Defined.

(** *** A block allocated and released *)

(** [operator delete] of the pointer [operator new] returned, with the
    counter and the memory [operator new] left: [free] receives the pointer
    [malloc] returned, and a counted pair leaves [current] as it was, for
    every requested size, while [total] and [peak] keep the allocation. *)
Theorem new_delete_round_trip n p busy hu mem r :
  p + HEADER_SIZE * sizeof_uint32 ≠ 0 →
  0 ≤ current_allocations hu < 2 ^ 64 →
  operator_new n (Some p)
    (Some {| recorder_internal_running := busy; cnt := hu |}) mem = Ok r →
  let d := operator_delete (new_ptr r) (new_counter r) (new_mem r) in
  delete_freed d = Some p ∧
  counter_value (delete_counter d) hu =
    if busy then hu
    else {| peak_allocations :=
              Z.max (peak_allocations hu)
                (wrap64 (current_allocations hu + Z.min n max_uint32));
            total_allocations :=
              wrap64 (total_allocations hu + Z.min n max_uint32);
            current_allocations := current_allocations hu;
            bad_deallocations := bad_deallocations hu |}.
Proof.
  intros Hp Hcur Hnew d. subst d.
  unfold operator_new in Hnew. injection Hnew as <-.
  cbn [new_ptr new_counter new_mem].
  unfold HEADER_SIZE in Hp. unfold operator_delete.
  rewrite decide_False by exact Hp.
  replace (p + 2 * sizeof_uint32 - 2 * sizeof_uint32) with p by lia.
  rewrite store32_ne by (unfold sizeof_uint32; lia).
  rewrite store32_eq, decide_True by reflexivity.
  rewrite store32_eq, allocated_bytes_of_min.
  destruct busy; cbn -[wrap64 Z.max Z.min]; (split; [reflexivity|]).
  - reflexivity.
  - f_equal. unfold wrap64. rewrite Zminus_mod_idemp_l.
    replace (current_allocations hu + Z.min n max_uint32 - Z.min n max_uint32)
      with (current_allocations hu) by lia.
    apply Z.mod_small, Hcur.
Qed.

(** A block of [2^33] bytes, allocated at [64] and released. *)
Lemma new_delete_round_trip_witness :
  ∃ r, operator_new (2 ^ 33) (Some 64) (tracking heap_usage_zero) (λ _, 0)
         = Ok r ∧
    delete_freed (operator_delete (new_ptr r) (new_counter r) (new_mem r))
      = Some 64 ∧
    counter_value
      (delete_counter (operator_delete (new_ptr r) (new_counter r) (new_mem r)))
      heap_usage_zero
    = {| peak_allocations := Z.max 0 (wrap64 (0 + Z.min (2 ^ 33) max_uint32));
         total_allocations := wrap64 (0 + Z.min (2 ^ 33) max_uint32);
         current_allocations := 0;
         bad_deallocations := 0 |}.
Proof.
  eexists. split; [reflexivity|].
  apply (new_delete_round_trip (2 ^ 33) 64 false heap_usage_zero (λ _, 0)).
  - discriminate.
  - simpl. lia.
  - reflexivity.
Defined.

(** *** Runs of the overloads on one counter *)

(** A call of one of the overloads: [operator new] of [n] bytes, with what
    [malloc] returns, or [operator delete] of [p]; [busy] is what
    [recorder_internal_running()] reports at the call. *)
Inductive heap_call : Set :=
  | call_new (n : Z) (malloc_ret : option Z) (busy : bool)
  | call_delete (p : Z) (busy : bool).

Definition run_heap_call (c : heap_call) (s : heap_usage_t * memory)
  : result (heap_usage_t * memory) :=
  let view busy :=
    Some {| recorder_internal_running := busy; cnt := s.1 |} in
  match c with
  | call_new n malloc_ret busy =>
      r ← operator_new n malloc_ret (view busy) s.2;
      Ok (counter_value (new_counter r) s.1, new_mem r)
  | call_delete p busy =>
      Ok (counter_value (delete_counter (operator_delete p (view busy) s.2)) s.1,
          s.2)
  end.

Fixpoint run_heap_calls (cs : list heap_call) (s : heap_usage_t * memory)
  : result (heap_usage_t * memory) :=
  match cs with
  | [] => Ok s
  | c :: cs => s' ← run_heap_call c s; run_heap_calls cs s'
  end.

(** The values [current_allocations] takes right after each counted
    allocation of a run. *)
Fixpoint counted_currents (cs : list heap_call) (s : heap_usage_t * memory)
  : list Z :=
  match cs with
  | [] => []
  | c :: cs =>
      match run_heap_call c s with
      | Ok s' =>
          match c with
          | call_new _ _ false =>
              current_allocations s'.1 :: counted_currents cs s'
          | _ => counted_currents cs s'
          end
      | Err _ => []
      end
  end.

Lemma run_heap_call_peak c s s' :
  run_heap_call c s = Ok s' →
  peak_allocations s'.1 =
    match c with
    | call_new _ _ false =>
        Z.max (peak_allocations s.1) (current_allocations s'.1)
    | _ => peak_allocations s.1
    end ∧
  (total_allocations s'.1 ≠ total_allocations s.1 →
     ∃ n malloc_ret, c = call_new n malloc_ret false).
Proof.
  destruct s as [hu mem]. destruct c as [n [p|] busy|p busy]; cbn [run_heap_call].
  - cbn [operator_new mbind result_bind fst snd]. intros [= <-].
    destruct busy; cbn -[wrap64 Z.max]; split; try reflexivity; eauto.
    congruence.
  - discriminate.
  - intros [= <-]. cbn [fst snd]. unfold operator_delete.
    destruct busy; repeat case_decide; cbn; split; try reflexivity; congruence.
Qed.

(** [peak_allocations] is a high-water mark: after a run of calls of the
    overloads it is the largest of its value before the run and the values
    [current_allocations] took right after the counted allocations of the
    run; so it never decreases, and no [operator delete] and no uncounted
    call changes it. *)
Theorem peak_high_water_mark cs : ∀ s s',
  run_heap_calls cs s = Ok s' →
  peak_allocations s'.1
    = foldr Z.max (peak_allocations s.1) (counted_currents cs s) ∧
  peak_allocations s.1 ≤ peak_allocations s'.1.
Proof.
  induction cs as [|c cs IH]; intros s s' Hrun.
  - cbn in Hrun. injection Hrun as <-. cbn. split; [reflexivity|lia].
  - cbn [run_heap_calls] in Hrun.
    destruct (run_heap_call c s) as [s1|e] eqn:Hc; [|discriminate].
    cbn [mbind result_bind] in Hrun.
    destruct (IH s1 s' Hrun) as [Hpeak Hle].
    destruct (run_heap_call_peak c s s1 Hc) as [Hstep _].
    cbn [counted_currents]. rewrite Hc.
    assert (Hswap : ∀ zs a b,
              foldr Z.max (Z.max a b) zs = Z.max b (foldr Z.max a zs)).
    { induction zs as [|z zs IHzs]; intros a b; cbn [foldr]; [lia|].
      rewrite IHzs. lia. }
    destruct c as [n m [|]|p busy]; rewrite Hstep in *.
    + split; [exact Hpeak|exact Hle].
    + cbn [foldr]. split; [rewrite Hpeak, Hswap; reflexivity|lia].
    + split; [exact Hpeak|exact Hle].
Qed.

(** Three counted allocations of 16 bytes with the first block released
    in between: [peak] ends at 32. *)
Lemma peak_high_water_mark_witness :
  ∃ s', run_heap_calls
          [call_new 16 (Some 64) false; call_delete 72 false;
           call_new 16 (Some 128) false; call_new 16 (Some 192) false]
          (heap_usage_zero, λ _, 0) = Ok s' ∧
    peak_allocations s'.1 = foldr Z.max 0 [16; 16; 32] ∧
    0 ≤ peak_allocations s'.1.
Proof.
  eexists. split; [reflexivity|].
  apply (peak_high_water_mark
           [call_new 16 (Some 64) false; call_delete 72 false;
            call_new 16 (Some 128) false; call_new 16 (Some 192) false]
           (heap_usage_zero, λ _, 0)).
  reflexivity.
Defined.

(** *** The subtraction in [operator delete]

    [hu->current_allocations -= allocation_bytes] has no guard.  A tagged
    block that the counter did not count, because it was allocated while
    the recorder was busy (or while another counter was the current one),
    is subtracted when it is released with the counter current. *)

(** C8, the defect.  [current_allocations] is corrupted by a release, and
    [peak_allocations >= current_allocations] fails, in a counter reached
    through the overloads: a block of 16 bytes allocated while the
    recorder is busy and released while it is idle leaves [current] at
    [2^64 - 16] above a [peak] of 0, with [bad_deallocations] untouched;
    the next counted allocation, of 8 bytes, copies the wrapped value
    into [peak], which ends at [2^64 - 8] with 8 bytes allocated in all.
    In general a counted release of a tagged block whose stored size
    exceeds [current] wraps [current] around [2^64]. *)
Theorem delete_corrupts_counter :
  (∃ hu mem, overlay_reachable hu mem ∧
     peak_allocations hu = 0 ∧
     current_allocations hu = 2 ^ 64 - 16 ∧
     peak_allocations hu < current_allocations hu) ∧
  (∃ s1 s2 s3,
     run_heap_call (call_new 16 (Some 64) true) (heap_usage_zero, λ _, 0)
       = Ok s1 ∧
     run_heap_call (call_delete 72 false) s1 = Ok s2 ∧
     run_heap_call (call_new 8 (Some 128) false) s2 = Ok s3 ∧
     s1.1 = heap_usage_zero ∧
     s2.1 = {| peak_allocations := 0; total_allocations := 0;
               current_allocations := 2 ^ 64 - 16;
               bad_deallocations := 0 |} ∧
     s3.1 = {| peak_allocations := 2 ^ 64 - 8; total_allocations := 8;
               current_allocations := 2 ^ 64 - 8;
               bad_deallocations := 0 |}) ∧
  (∀ p hu mem,
     p ≠ 0 →
     mem (p - HEADER_SIZE * sizeof_uint32) = ALLOC_MAGIC_PATTERN →
     0 ≤ current_allocations hu < mem (p - sizeof_uint32) →
     mem (p - sizeof_uint32) ≤ max_uint32 →
     let hu' :=
       counter_value
         (delete_counter
            (operator_delete p
               (Some {| recorder_internal_running := false; cnt := hu |}) mem))
         hu in
     current_allocations hu'
       = 2 ^ 64 - (mem (p - sizeof_uint32) - current_allocations hu) ∧
     bad_deallocations hu' = bad_deallocations hu ∧
     (peak_allocations hu < 2 ^ 64 - max_uint32 →
      peak_allocations hu' < current_allocations hu')).
Proof.
  split; [exact peak_below_current_reachable|]. split.
  - eexists _, _, _. split; [reflexivity|]. split; [reflexivity|].
    split; [reflexivity|]. vm_compute. repeat split; reflexivity.
  - intros p hu mem Hp Hm Hcur Hmax hu'. subst hu'. unfold operator_delete.
    rewrite decide_False by exact Hp.
    rewrite decide_True by (unfold HEADER_SIZE in Hm; exact Hm).
    replace (p - 2 * sizeof_uint32 + 1 * sizeof_uint32)
      with (p - sizeof_uint32) by (unfold sizeof_uint32; lia).
    cbn -[wrap64]. unfold max_uint32 in *.
    assert (Hwrap : wrap64 (current_allocations hu - mem (p - sizeof_uint32))
                    = 2 ^ 64 - (mem (p - sizeof_uint32) - current_allocations hu)).
    { unfold wrap64. symmetry.
      apply Z.mod_unique_pos with (q := -1); lia. }
    rewrite Hwrap. split; [reflexivity|]. split; [reflexivity|]. lia.
Qed.

End HeapOverlay.

(** ** fiya-string-db.h *)

Module StringDb.

(** A [char] is an [ascii]; a [const char *] is modelled by the characters
    stored from the address it holds onwards.  The C string it designates
    ends before the first NUL, or with the list when the list holds none
    (the terminator then follows the list). *)
Definition NUL : ascii := Ascii.zero.

Fixpoint c_string (p : list ascii) : list ascii :=
  match p with
  | [] => []
  | c :: p => if decide (c = NUL) then [] else c :: c_string p
  end.

Definition strlen (p : list ascii) : nat := length (c_string p).

(** [strcmp(a, b) == 0] *)
Definition strcmp_eq0 (a b : list ascii) : bool :=
  bool_decide (c_string a = c_string b).

(** [size_t] arithmetic of [calculate_hash] is modulo [2^64]; buffer sizes
    and indices never leave the buffer and are natural numbers. *)
Definition wrap_size_t (z : Z) : Z := (z mod 2 ^ 64)%Z.

(** Conversion of a [char] to [size_t]; [char] is signed. *)
Definition size_t_of_char (c : ascii) : Z :=
  let n := Z.of_N (N_of_ascii c) in
  if decide (n < 128)%Z then n else wrap_size_t (n - 256).

(** [hashset_entry_t::calculate_hash]: the loop
    [while ((c = *str++)) hash = ((hash << 5) + hash) + c;]
    started from [hash]. *)
Fixpoint calculate_hash_loop (hash : Z) (str : list ascii) : Z :=
  match str with
  | [] => hash
  | c :: str =>
      if decide (c = NUL) then hash
      else
        calculate_hash_loop
          (wrap_size_t
             (wrap_size_t (wrap_size_t (Z.shiftl hash 5) + hash)
              + size_t_of_char c))
          str
  end.

Definition calculate_hash (str : list ascii) : Z :=
  calculate_hash_loop 5381 str.

(** [class hashset_entry_t], a tagged union.  [m_base_address] points to
    the buffer of the database; it is modelled by the buffer. *)
Inductive hashset_entry_t : Type :=
  | STRING_SET (m_string : list ascii) (m_base_address : list ascii)
  | IDX_SET (m_idx : nat) (m_hash : Z).

(** The constructor for the value stored in the hash set. *)
Definition idx_entry (idx : nat) (str : list ascii) : hashset_entry_t :=
  IDX_SET idx (calculate_hash str).

Definition get_idx (e : hashset_entry_t) : result nat :=
  match e with
  | IDX_SET idx _ => Ok idx
  | STRING_SET _ _ => Err EntryTypeAssert
  end.

(** [hashset_entry_t::operator==] *)
Definition entry_eq (this other : hashset_entry_t) : result bool :=
  match this, other with
  | IDX_SET m_idx _, STRING_SET o_string o_base =>
      Ok (strcmp_eq0 o_string (drop m_idx o_base))
  | IDX_SET _ _, IDX_SET _ _ => Err EntryTypeAssert
  | STRING_SET m_string m_base, IDX_SET o_idx _ =>
      Ok (strcmp_eq0 m_string (drop o_idx m_base))
  | STRING_SET m_string _, STRING_SET o_string _ =>
      Ok (strcmp_eq0 m_string o_string)
  end.

(** [struct hash] *)
Definition hash (k : hashset_entry_t) : Z :=
  match k with
  | STRING_SET m_string _ => calculate_hash m_string
  | IDX_SET _ m_hash => m_hash
  end.

(** [std::unordered_set<hashset_entry_t, hash>]: the elements in the order
    of their insertion.  To decide whether the set holds an element equal
    to [k] the set calls [operator==] on [k] and each element whose hash
    value is that of [k]; [find] and [emplace] both do. *)
Fixpoint set_lookup (k : hashset_entry_t) (dict : list hashset_entry_t)
  : result (option hashset_entry_t) :=
  match dict with
  | [] => Ok None
  | e :: dict =>
      if decide (hash e = hash k) then
        same ← entry_eq k e;
        if (same : bool) then Ok (Some e) else set_lookup k dict
      else set_lookup k dict
  end.

Definition set_emplace (e : hashset_entry_t) (dict : list hashset_entry_t)
  : result (list hashset_entry_t) :=
  found ← set_lookup e dict;
  match found with
  | Some _ => Ok dict
  | None => Ok (dict ++ [e])
  end.

(** [class string_db_t].  [m_data] is the buffer, [m_capacity] characters
    long. *)
Record string_db_t : Type := {
  m_dict : list hashset_entry_t;
  m_data : list ascii;
  m_size : nat;
  m_capacity : nat
}.

(** [string_db_t(size_t capacity = 2048)]; the characters of a fresh
    buffer are indeterminate and modelled by NUL. *)
Definition string_db_new (capacity : nat) : string_db_t :=
  {| m_dict := []; m_data := replicate capacity NUL;
     m_size := 0; m_capacity := capacity |}.

(** The copy constructor: the dictionary, the sizes and the first [m_size]
    characters of the buffer. *)
Definition string_db_copy (other : string_db_t) : string_db_t :=
  {| m_dict := m_dict other;
     m_data := take (m_size other) (m_data other)
               ++ replicate (m_capacity other - m_size other) NUL;
     m_size := m_size other;
     m_capacity := m_capacity other |}.

(** What [realloc] answers: a null pointer, the address it was given (the
    block grew in place), or another address (the contents were moved to
    a new block and the old block was released). *)
Inductive realloc_ret : Set :=
  | ReallocNull
  | ReallocSame
  | ReallocMoved.

(** The block after a [realloc] to [n] characters. *)
Definition resized (n : nat) (data : list ascii) : list ascii :=
  take n data ++ replicate (n - length data) NUL.

(** [memcpy(data + off, src, length src)] *)
Definition memcpy_at (data : list ascii) (off : nat) (src : list ascii)
  : list ascii :=
  take off data ++ src ++ drop (off + length src) data.

(** [size_t push_back(const char * str)].  When [realloc] answers another
    address it has released the old block; the source then copies out of
    that block and frees it a second time. *)
Definition push_back (str : list ascii) (realloc : realloc_ret)
    (db : string_db_t) : result (nat * string_db_t) :=
  it ← set_lookup (STRING_SET str (m_data db)) (m_dict db);
  match it with
  | Some e => idx ← get_idx e; Ok (idx, db)
  | None =>
      let string_len := strlen str + 1 in
      '(data, capacity) ←
        (if decide (m_capacity db < string_len + m_size db) then
           let new_capacity :=
             max (m_capacity db * 3 / 2) (string_len + m_size db) in
           match realloc with
           | ReallocNull => Err OutOfMemory
           | ReallocMoved => Err DoubleFree
           | ReallocSame => Ok (resized new_capacity (m_data db), new_capacity)
           end
         else Ok (m_data db, m_capacity db));
      let data := memcpy_at data (m_size db) (c_string str ++ [NUL]) in
      let string_begin := m_size db in
      dict ← set_emplace (idx_entry string_begin str) (m_dict db);
      Ok (string_begin,
          {| m_dict := dict; m_data := data;
             m_size := m_size db + string_len; m_capacity := capacity |})
  end.

(** [const char * get(size_t idx) const] *)
Definition get (idx : nat) (db : string_db_t) : list ascii :=
  drop idx (m_data db).

Definition str (s : string) : list ascii := list_ascii_of_string s.

(** *** The database invariant *)

(** The part of the buffer that holds strings. *)
Definition valid (db : string_db_t) : list ascii :=
  take (m_size db) (m_data db).

(** The string [s] and its terminator are stored at index [idx]. *)
Definition holds (db : string_db_t) (idx : nat) (s : list ascii) : Prop :=
  (NUL ∉ s) ∧ (∃ post, drop idx (valid db) = s ++ NUL :: post).

(** [idx] is the index of an element of the hash set. *)
Definition stored (db : string_db_t) (idx : nat) : Prop :=
  ∃ h, IDX_SET idx h ∈ m_dict db.

Definition entry_ok (db : string_db_t) (e : hashset_entry_t) : Prop :=
  ∃ idx s, e = IDX_SET idx (calculate_hash s) ∧ holds db idx s.

Definition entry_index (e : hashset_entry_t) : nat :=
  match e with IDX_SET idx _ => idx | STRING_SET _ _ => 0 end.

Record wf (db : string_db_t) : Prop := {
  wf_length : length (m_data db) = m_capacity db;
  wf_size : m_size db ≤ m_capacity db;
  wf_entries : Forall (entry_ok db) (m_dict db);
  wf_distinct :
    ∀ i j ei ej, m_dict db !! i = Some ei → m_dict db !! j = Some ej →
      c_string (get (entry_index ei) db) = c_string (get (entry_index ej) db) →
      i = j
}.

Lemma c_string_app_nul s r : NUL ∉ s → c_string (s ++ NUL :: r) = s.
Proof.
  induction s as [|c s IH]; intros Hs; simpl.
  - reflexivity.
  - rewrite not_elem_of_cons in Hs. destruct Hs as [Hc Hs].
    rewrite decide_False by congruence. f_equal. apply IH, Hs.
Qed.

Lemma c_string_no_nul p : NUL ∉ c_string p.
Proof.
  induction p as [|c p IH]; simpl.
  - apply not_elem_of_nil.
  - case_decide; [apply not_elem_of_nil|].
    apply not_elem_of_cons. split; [congruence | exact IH].
Qed.

Lemma c_string_id s : NUL ∉ s → c_string s = s.
Proof.
  induction s as [|c s IH]; intros Hs; simpl; [reflexivity|].
  rewrite not_elem_of_cons in Hs. destruct Hs as [Hc Hs].
  rewrite decide_False by congruence. f_equal. apply IH, Hs.
Qed.

Lemma c_string_idemp p : c_string (c_string p) = c_string p.
Proof. apply c_string_id, c_string_no_nul. Qed.

Lemma calculate_hash_loop_c_string p : ∀ h,
  calculate_hash_loop h (c_string p) = calculate_hash_loop h p.
Proof.
  induction p as [|c p IH]; intros h; simpl; [reflexivity|].
  case_decide; simpl; [reflexivity|].
  rewrite decide_False by assumption. apply IH.
Qed.

Lemma calculate_hash_c_string p : calculate_hash (c_string p) = calculate_hash p.
Proof. apply calculate_hash_loop_c_string. Qed.

Lemma holds_lt db idx s : holds db idx s → idx < length (valid db).
Proof.
  intros [_ [post Hpost]].
  destruct (decide (idx < length (valid db))) as [|Hge]; [assumption|].
  rewrite drop_ge in Hpost by lia. destruct s; discriminate.
Qed.

Lemma valid_length db : m_size db ≤ length (m_data db) →
  length (valid db) = m_size db.
Proof. intros H. unfold valid. rewrite length_take. lia. Qed.

Lemma holds_get db idx s : holds db idx s → c_string (get idx db) = s.
Proof.
  intros Hh. pose proof (holds_lt _ _ _ Hh) as Hlt.
  destruct Hh as [Hs [post Hpost]]. unfold get.
  rewrite <- (take_drop (m_size db) (m_data db)). fold (valid db).
  rewrite drop_app_le by lia. rewrite Hpost, <- app_assoc. simpl.
  apply c_string_app_nul, Hs.
Qed.

Lemma holds_extend db db' ext idx s :
  valid db' = valid db ++ ext → holds db idx s → holds db' idx s.
Proof.
  intros Hv Hh. pose proof (holds_lt _ _ _ Hh) as Hlt.
  destruct Hh as [Hs [post Hpost]]. split; [exact Hs|].
  exists (post ++ ext). rewrite Hv, drop_app_le by lia.
  rewrite Hpost, <- app_assoc. reflexivity.
Qed.

Lemma entry_ok_get db e :
  entry_ok db e →
  ∃ s, e = IDX_SET (entry_index e) (calculate_hash s) ∧
       holds db (entry_index e) s ∧
       c_string (get (entry_index e) db) = s.
Proof.
  intros (idx & s & -> & Hh). exists s. simpl.
  split; [reflexivity|]. split; [exact Hh|]. apply holds_get, Hh.
Qed.

(** [find] with a key built from a string: the first element whose string
    is the key's, if there is one.  No comparison fails, because every
    element carries an index and the key a string. *)
Lemma set_lookup_string db key dict :
  Forall (entry_ok db) dict →
  (∃ e, set_lookup (STRING_SET key (m_data db)) dict = Ok (Some e) ∧
        e ∈ dict ∧ c_string (get (entry_index e) db) = c_string key) ∨
  (set_lookup (STRING_SET key (m_data db)) dict = Ok None ∧
   ∀ e, e ∈ dict → c_string (get (entry_index e) db) ≠ c_string key).
Proof.
  induction dict as [|e dict IH]; intros Hok.
  - right. split; [reflexivity|]. intros e He. inversion He.
  - apply Forall_cons in Hok as [He Hok].
    destruct (entry_ok_get _ _ He) as (s & Heq & Hh & Hget).
    destruct (decide (s = c_string key)) as [Hs|Hs].
    + left. exists e. split; [|split; [left|congruence]].
      simpl. rewrite Heq. simpl.
      rewrite decide_True by (rewrite Hs; apply calculate_hash_c_string).
      unfold strcmp_eq0. fold (get (entry_index e) db).
      rewrite bool_decide_true by congruence. rewrite <- Heq. reflexivity.
    + assert (Hstep : set_lookup (STRING_SET key (m_data db)) (e :: dict)
                      = set_lookup (STRING_SET key (m_data db)) dict).
      { simpl. case_decide; [|reflexivity].
        rewrite Heq. simpl. unfold strcmp_eq0.
        fold (get (entry_index e) db).
        rewrite bool_decide_false by congruence. reflexivity. }
      rewrite Hstep. destruct (IH Hok) as [(e' & Hl & Hin & Hc)|[Hl Hnone]].
      * left. exists e'. split; [exact Hl|]. split; [right; exact Hin|exact Hc].
      * right. split; [exact Hl|]. intros e' He'.
        apply elem_of_cons in He' as [->|He']; [congruence|auto].
Qed.

(** [emplace] of an element that carries an index compares it with every
    element of the same hash value, and that comparison fails: it inserts
    only when no element has that hash value. *)
Lemma set_lookup_idx db idx h dict :
  Forall (entry_ok db) dict →
  set_lookup (IDX_SET idx h) dict =
    if bool_decide (Exists (λ e, hash e = h) dict)
    then Err EntryTypeAssert else Ok None.
Proof.
  induction dict as [|e dict IH]; intros Hok.
  - cbn [set_lookup]. rewrite bool_decide_false; [reflexivity|].
    intros H. inversion H.
  - apply Forall_cons in Hok as [He Hok]. cbn [set_lookup].
    destruct He as (i & s & -> & _). cbn [hash entry_eq mbind result_bind].
    case_decide as Hh.
    + rewrite bool_decide_true; [reflexivity|]. left. exact Hh.
    + rewrite (IH Hok).
      destruct (bool_decide (Exists (λ e, hash e = h) dict)) eqn:Hex.
      * apply bool_decide_eq_true in Hex.
        rewrite bool_decide_true; [reflexivity|]. right. exact Hex.
      * apply bool_decide_eq_false in Hex.
        rewrite bool_decide_false; [reflexivity|].
        intros Hc. apply Exists_cons in Hc as [Hc|Hc]; [|auto].
        simpl in Hc. congruence.
Qed.

Lemma memcpy_at_length data off src :
  off + length src ≤ length data →
  length (memcpy_at data off src) = length data.
Proof.
  intros H. unfold memcpy_at.
  rewrite !length_app, length_take, length_drop. lia.
Qed.

Lemma memcpy_at_take data off src :
  off ≤ length data →
  take (off + length src) (memcpy_at data off src) = take off data ++ src.
Proof.
  intros H. unfold memcpy_at.
  assert (Hl : length (take off data) = off) by (rewrite length_take; lia).
  rewrite app_assoc.
  replace (off + length src) with (length (take off data ++ src))
    by (rewrite length_app; lia).
  apply take_app_length.
Qed.

Lemma resized_length n data : length data ≤ n → length (resized n data) = n.
Proof.
  intros H. unfold resized.
  rewrite length_app, length_take, length_replicate. lia.
Qed.

Lemma resized_take n k data :
  k ≤ length data → k ≤ n → take k (resized n data) = take k data.
Proof.
  intros Hk Hn. unfold resized.
  rewrite take_app_le by (rewrite length_take; lia).
  rewrite take_take. f_equal. lia.
Qed.

(** The buffer [push_back] writes to, and the new string in it. *)
Lemma push_back_buffer db cs data0 capacity0 :
  length (m_data db) = m_capacity db →
  m_size db ≤ m_capacity db →
  length data0 = capacity0 →
  m_size db + (length cs + 1) ≤ capacity0 →
  take (m_size db) data0 = take (m_size db) (m_data db) →
  let data' := memcpy_at data0 (m_size db) (cs ++ [NUL]) in
  length data' = capacity0 ∧
  take (m_size db + (length cs + 1)) data' = valid db ++ cs ++ [NUL].
Proof.
  intros Hlen Hsize Hlen0 Hfit Htake data'. subst data'.
  assert (Hsrc : length (cs ++ [NUL]) = length cs + 1)
    by (rewrite length_app; simpl; lia).
  split.
  - rewrite memcpy_at_length by (rewrite Hsrc; lia). exact Hlen0.
  - rewrite <- Hsrc. rewrite memcpy_at_take by lia.
    rewrite Htake. reflexivity.
Qed.

(** What a successful [push_back] leaves behind. *)
Lemma push_back_ok key realloc db idx db' :
  wf db →
  push_back key realloc db = Ok (idx, db') →
  wf db' ∧
  holds db' idx (c_string key) ∧
  stored db' idx ∧
  (∃ ext, valid db' = valid db ++ ext) ∧
  (∀ j, stored db j → stored db' j).
Proof.
  intros Hwf Hpush. unfold push_back in Hpush.
  destruct Hwf as [Hlen Hsize Hent Hdist].
  destruct (set_lookup_string db key (m_dict db) Hent)
    as [(e & Hl & Hin & Hc)|[Hl Hnone]]; rewrite Hl in Hpush;
    cbn [mbind result_bind] in Hpush.
  - (* the string is in the database *)
    rewrite Forall_forall in Hent.
    destruct (entry_ok_get _ _ (Hent e Hin)) as (s & Heq & Hh & Hget).
    rewrite Heq in Hpush. simpl in Hpush. injection Hpush as <- <-.
    split; [constructor; try assumption; apply Forall_forall, Hent|].
    split; [congruence|].
    split; [exists (calculate_hash s); rewrite <- Heq; exact Hin|].
    split; [exists []; symmetry; apply app_nil_r|]. auto.
  - (* the string is new *)
    set (cs := c_string key) in *.
    assert (Hslen : strlen key + 1 = length cs + 1) by reflexivity.
    rewrite Hslen in Hpush.
    set (grown :=
      if decide (m_capacity db < length cs + 1 + m_size db)
      then match realloc with
           | ReallocNull => Err OutOfMemory
           | ReallocSame =>
               Ok (resized (max (m_capacity db * 3 / 2)
                              (length cs + 1 + m_size db)) (m_data db),
                   max (m_capacity db * 3 / 2) (length cs + 1 + m_size db))
           | ReallocMoved => Err DoubleFree
           end
      else Ok (m_data db, m_capacity db)) in Hpush.
    assert (Hgrown : ∀ data0 capacity0, grown = Ok (data0, capacity0) →
              length data0 = capacity0 ∧
              m_size db + (length cs + 1) ≤ capacity0 ∧
              take (m_size db) data0 = take (m_size db) (m_data db)).
    { intros data0 capacity0. unfold grown. case_decide as Hcap.
      - destruct realloc; try discriminate. intros [= <- <-].
        split; [apply resized_length; lia|]. split; [lia|].
        apply resized_take; lia.
      - intros [= <- <-]. split; [exact Hlen|]. split; [lia|reflexivity]. }
    destruct grown as [[data0 capacity0]|err]; [|discriminate].
    destruct (Hgrown data0 capacity0 eq_refl) as (Hlen0 & Hfit & Htake).
    cbn [mbind result_bind] in Hpush.
    unfold set_emplace, idx_entry in Hpush.
    rewrite (set_lookup_idx db) in Hpush by exact Hent.
    destruct (bool_decide _) eqn:Hex in Hpush; [discriminate|].
    cbn [mbind result_bind] in Hpush. injection Hpush as <- <-.
    destruct (push_back_buffer db cs data0 capacity0 Hlen Hsize Hlen0 Hfit Htake)
      as [Hlen' Hvalid'].
    set (db' := {| m_dict := m_dict db ++ [IDX_SET (m_size db) (calculate_hash key)];
                   m_data := memcpy_at data0 (m_size db) (cs ++ [NUL]);
                   m_size := m_size db + (length cs + 1);
                   m_capacity := capacity0 |}).
    assert (Hv : valid db' = valid db ++ cs ++ [NUL]) by exact Hvalid'.
    assert (Hnew : holds db' (m_size db) cs).
    { split; [apply c_string_no_nul|]. exists [].
      rewrite Hv.
      replace (m_size db) with (length (valid db)) at 1
        by (apply valid_length; lia).
      rewrite drop_app_length. reflexivity. }
    assert (Hold : ∀ e, e ∈ m_dict db → entry_ok db' e ∧
              c_string (get (entry_index e) db')
                = c_string (get (entry_index e) db)).
    { intros e He. rewrite Forall_forall in Hent.
      destruct (entry_ok_get _ _ (Hent e He)) as (s & Heq & Hh & Hget).
      pose proof (holds_extend db db' _ _ _ Hv Hh) as Hh'.
      split; [exists (entry_index e), s; split; assumption|].
      rewrite Hget. apply holds_get, Hh'. }
    split; [|split; [exact Hnew|split; [|split]]].
    + constructor.
      * exact Hlen'.
      * simpl. lia.
      * simpl. apply Forall_app. split.
        -- apply Forall_forall. intros e He. apply Hold, He.
        -- apply Forall_cons. split; [|constructor].
           exists (m_size db), cs. split; [|exact Hnew].
           unfold cs. rewrite calculate_hash_c_string. reflexivity.
      * intros i j ei ej Hi Hj Hsame. simpl in Hi, Hj.
        assert (Hcase : ∀ k ek,
                  (m_dict db ++ [IDX_SET (m_size db) (calculate_hash key)]) !! k
                    = Some ek →
                  (m_dict db !! k = Some ek ∧ ek ∈ m_dict db) ∨
                  (k = length (m_dict db) ∧
                   c_string (get (entry_index ek) db') = cs)).
        { intros k ek Hk. apply lookup_app_Some in Hk as [Hk|[Hge Hk]].
          - left. split; [exact Hk|]. apply list_elem_of_lookup. eauto.
          - right. apply list_lookup_singleton_Some in Hk as [Hk0 <-].
            split; [lia|]. simpl. apply holds_get, Hnew. }
        destruct (Hcase i ei Hi) as [[Hi' Hini]|[-> Hci]];
          destruct (Hcase j ej Hj) as [[Hj' Hinj]|[-> Hcj]].
        -- apply (Hdist i j ei ej Hi' Hj').
           rewrite <- (proj2 (Hold ei Hini)), <- (proj2 (Hold ej Hinj)).
           exact Hsame.
        -- exfalso. apply (Hnone ei Hini).
           rewrite <- (proj2 (Hold ei Hini)), Hsame. exact Hcj.
        -- exfalso. apply (Hnone ej Hinj).
           rewrite <- (proj2 (Hold ej Hinj)), <- Hsame. exact Hci.
        -- reflexivity.
    + exists (calculate_hash key). simpl. apply elem_of_app. right. left.
    + exists (cs ++ [NUL]). exact Hv.
    + intros j [h Hj]. exists h. simpl. apply elem_of_app. left. exact Hj.
Qed.

(** The string database after any number of successful insertions. *)
Lemma string_db_new_wf capacity : wf (string_db_new capacity).
Proof.
  constructor; simpl.
  - apply length_replicate.
  - lia.
  - constructor.
  - intros i j ei ej Hi. inversion Hi.
Qed.

Lemma string_db_copy_valid db :
  m_size db ≤ length (m_data db) → valid (string_db_copy db) = valid db.
Proof.
  intros H. unfold valid, string_db_copy. simpl.
  rewrite take_app_le by (rewrite length_take; lia).
  rewrite take_take. f_equal. lia.
Qed.

Lemma stored_holds db idx :
  wf db → stored db idx → ∃ s, holds db idx s.
Proof.
  intros Hwf [h Hin]. pose proof (wf_entries db Hwf) as Hent.
  rewrite Forall_forall in Hent.
  destruct (Hent _ Hin) as (i & s & [= -> ->] & Hh). eauto.
Qed.

(** Two stored indices with the same string are the same index. *)
Lemma stored_inj db i j :
  wf db → stored db i → stored db j →
  c_string (get i db) = c_string (get j db) → i = j.
Proof.
  intros Hwf [hi Hi] [hj Hj] Hsame.
  apply list_elem_of_lookup in Hi as [ki Hki].
  apply list_elem_of_lookup in Hj as [kj Hkj].
  pose proof (wf_distinct db Hwf ki kj _ _ Hki Hkj Hsame) as ->.
  rewrite Hki in Hkj. injection Hkj as -> _. reflexivity.
Qed.

(** A string that is in the database is found again, whatever [realloc]
    would answer, and the database is left as it is. *)
Lemma push_back_stored key realloc db idx :
  wf db → stored db idx → c_string (get idx db) = c_string key →
  push_back key realloc db = Ok (idx, db).
Proof.
  intros Hwf Hst Hc. unfold push_back.
  destruct (set_lookup_string db key (m_dict db) (wf_entries db Hwf))
    as [(e & Hl & Hin & Hce)|[Hl Hnone]]; rewrite Hl; cbn [mbind result_bind].
  - pose proof (wf_entries db Hwf) as Hent. rewrite Forall_forall in Hent.
    destruct (entry_ok_get _ _ (Hent e Hin)) as (s & Heq & _ & _).
    assert (entry_index e = idx) as <-.
    { apply (stored_inj db); [exact Hwf| |exact Hst|congruence].
      exists (calculate_hash s). rewrite <- Heq. exact Hin. }
    rewrite Heq. reflexivity.
  - exfalso. destruct Hst as [h Hin]. apply (Hnone _ Hin). exact Hc.
Qed.

Lemma set_lookup_error k dict e :
  set_lookup k dict = Err e → e = EntryTypeAssert.
Proof.
  induction dict as [|x dict IH]; simpl; [discriminate|].
  case_decide; [|exact IH].
  destruct k, x; simpl; try (intros [= <-]; reflexivity);
    destruct (strcmp_eq0 _ _); try discriminate; exact IH.
Qed.

(** The ways [push_back] fails. *)
Lemma set_emplace_error x dict e :
  set_emplace x dict = Err e → e = EntryTypeAssert.
Proof.
  unfold set_emplace.
  destruct (set_lookup x dict) as [[y|]|e1] eqn:Hl;
    cbn [mbind result_bind]; try discriminate.
  intros [= <-]. eapply set_lookup_error, Hl.
Qed.

(** The ways [push_back] fails. *)
Lemma push_back_error key realloc db e :
  push_back key realloc db = Err e →
  e = OutOfMemory ∨ e = DoubleFree ∨ e = EntryTypeAssert.
Proof.
  unfold push_back.
  destruct (set_lookup _ (m_dict db)) as [[x|]|e0] eqn:Hl;
    cbn [mbind result_bind].
  - destruct x; simpl; [intros [= <-]; auto | discriminate].
  - match goal with
    | |- context [mbind _ ?g] => destruct g as [[d c]|e1] eqn:Hg
    end; cbn [mbind result_bind].
    + destruct (set_emplace _ (m_dict db)) as [d'|e1] eqn:He;
        cbn [mbind result_bind]; [discriminate|].
      intros [= <-]. right. right. eapply set_emplace_error, He.
    + intros [= <-]. case_decide; [|discriminate].
      destruct realloc; try discriminate; injection Hg as <-; auto.
  - intros [= <-]. right. right. eapply set_lookup_error, Hl.
Qed.

(** A run of insertions, each with the answer [realloc] would give. *)
Fixpoint push_all (keys : list (list ascii * realloc_ret)) (db : string_db_t)
  : result string_db_t :=
  match keys with
  | [] => Ok db
  | (key, realloc) :: keys =>
      '(_, db') ← push_back key realloc db; push_all keys db'
  end.

Lemma push_all_keeps keys : ∀ db db' idx s,
  wf db → push_all keys db = Ok db' → stored db idx → holds db idx s →
  wf db' ∧ stored db' idx ∧ holds db' idx s.
Proof.
  induction keys as [|[key realloc] keys IH]; intros db db' idx s Hwf Hrun Hst Hh.
  - cbn in Hrun. injection Hrun as <-. auto.
  - cbn [push_all] in Hrun.
    destruct (push_back key realloc db) as [[i db1]|e] eqn:Hpush;
      [|discriminate].
    cbn [mbind result_bind] in Hrun.
    destruct (push_back_ok _ _ _ _ _ Hwf Hpush)
      as (Hwf1 & _ & _ & [ext Hv] & Hkeep).
    apply (IH db1 db' idx s Hwf1 Hrun (Hkeep idx Hst)).
    eapply holds_extend; eassumption.
Qed.

(** Interning, for the calls that return: the index [push_back] returns
    for a string designates that string, and keeps doing so through any
    later insertions that return, regrowth in place included; a later
    [push_back] of a string with the same characters returns the same
    index and leaves the database as it is. *)
Lemma push_back_interns key realloc db idx db1 :
  wf db →
  push_back key realloc db = Ok (idx, db1) →
  ∀ keys db2, push_all keys db1 = Ok db2 →
    c_string (get idx db2) = c_string key ∧
    ∀ key' realloc', c_string key' = c_string key →
      push_back key' realloc' db2 = Ok (idx, db2).
Proof.
  intros Hwf Hpush keys db2 Hrun.
  destruct (push_back_ok _ _ _ _ _ Hwf Hpush) as (Hwf1 & Hh & Hst & _ & _).
  destruct (push_all_keeps keys db1 db2 idx _ Hwf1 Hrun Hst Hh)
    as (Hwf2 & Hst2 & Hh2).
  pose proof (holds_get _ _ _ Hh2) as Hget.
  split; [exact Hget|]. intros key' realloc' Hsame.
  apply push_back_stored; [exact Hwf2|exact Hst2|congruence].
Qed.

(** The test of the repository: a database of capacity 1, [realloc]
    growing the buffer in place. *)
Example string_db_test :
  ∃ idx_dog idx_cat idx_dog1 db1 db2 db3,
    push_back (str "dog") ReallocSame (string_db_new 1) = Ok (idx_dog, db1) ∧
    push_back (str "cat") ReallocSame db1 = Ok (idx_cat, db2) ∧
    push_back (str "dog") ReallocSame db2 = Ok (idx_dog1, db3) ∧
    idx_dog = idx_dog1 ∧
    strcmp_eq0 (get idx_dog db3) (str "dog") = true ∧
    strcmp_eq0 (get idx_cat db3) (str "cat") = true.
Proof.
  do 6 eexists. split; [vm_compute; reflexivity|].
  split; [vm_compute; reflexivity|]. split; [vm_compute; reflexivity|].
  split; [reflexivity|]. split; vm_compute; reflexivity.
Qed.

(** A run of [push_back_interns]: "dog", then "cat" regrowing the buffer
    in place. *)
Lemma push_back_interns_witness :
  ∃ db2,
    push_all [(str "cat", ReallocSame)]
      {| m_dict := [IDX_SET 0 (calculate_hash (str "dog"))];
         m_data := str "dog" ++ [NUL]; m_size := 4; m_capacity := 4 |}
      = Ok db2 ∧
    c_string (get 0 db2) = c_string (str "dog") ∧
    ∀ key' realloc', c_string key' = c_string (str "dog") →
      push_back key' realloc' db2 = Ok (0, db2).
Proof.
  eexists. split; [vm_compute; reflexivity|].
  apply (push_back_interns (str "dog") ReallocSame (string_db_new 4) 0 _
           (string_db_new_wf 4) eq_refl [(str "cat", ReallocSame)]).
  vm_compute. reflexivity.
Defined.

(** C2, the two defects of [push_back].  (1) "ac" and "bB" have the same
    hash value: inserting the second makes the hash set compare two
    elements that both carry an index, which [operator==] answers with
    its [assert(false && ...)].  (2) When [realloc] moves the buffer, the
    source copies from the block [realloc] has released and frees it
    again. *)
Theorem push_back_defects :
  calculate_hash (str "ac") = calculate_hash (str "bB") ∧
  (∃ db1, push_back (str "ac") ReallocSame (string_db_new 2048) = Ok (0, db1) ∧
          push_back (str "bB") ReallocSame db1 = Err EntryTypeAssert) ∧
  (∃ db1, push_back (str "dog") ReallocSame (string_db_new 4) = Ok (0, db1) ∧
          push_back (str "cat") ReallocMoved db1 = Err DoubleFree).
Proof.
  split; [reflexivity|]. split.
  - eexists. split; [vm_compute; reflexivity|]. vm_compute. reflexivity.
  - eexists. split; [vm_compute; reflexivity|]. vm_compute. reflexivity.
Qed.

(** *** The hash function *)

Lemma size_t_of_char_range c : (0 ≤ size_t_of_char c < 2 ^ 64)%Z.
Proof.
  unfold size_t_of_char, wrap_size_t. pose proof (N_ascii_bounded c).
  case_decide; [lia|]. apply Z.mod_pos_bound. lia.
Qed.

Lemma calculate_hash_loop_range s : ∀ h,
  (0 ≤ h < 2 ^ 64)%Z → (0 ≤ calculate_hash_loop h s < 2 ^ 64)%Z.
Proof.
  induction s as [|c s IH]; intros h Hh; cbn [calculate_hash_loop]; [exact Hh|].
  case_decide; [exact Hh|]. apply IH. unfold wrap_size_t.
  apply Z.mod_pos_bound. lia.
Qed.

Lemma calculate_hash_loop_app s t : ∀ h,
  NUL ∉ s →
  calculate_hash_loop h (s ++ t) = calculate_hash_loop (calculate_hash_loop h s) t.
Proof.
  induction s as [|c s IH]; intros h Hs; [reflexivity|].
  apply not_elem_of_cons in Hs as [Hc Hs].
  cbn [app calculate_hash_loop]. rewrite !decide_False by congruence.
  apply IH, Hs.
Qed.

(** One round of the loop: [((hash << 5) + hash) + c] is [hash * 33 + c]
    in [size_t]. *)
Lemma calculate_hash_step h c :
  wrap_size_t (wrap_size_t (wrap_size_t (Z.shiftl h 5) + h) + size_t_of_char c)
    = ((h * 33 + size_t_of_char c) mod 2 ^ 64)%Z.
Proof.
  unfold wrap_size_t. rewrite Z.shiftl_mul_pow2 by lia.
  rewrite Zplus_mod_idemp_l, <- Z.add_assoc, Zplus_mod_idemp_l. f_equal. lia.
Qed.

(** [calculate_hash] is the hash of Bernstein: 5381 for the empty string,
    and [hash * 33 + c] modulo [2^64] for a string extended by the
    character [c], a character above 127 counting as negative; nothing
    after the first NUL is read, and the value is a [size_t]. *)
Theorem calculate_hash_djb2 :
  calculate_hash [] = 5381%Z ∧
  (∀ s c, NUL ∉ s → c ≠ NUL →
     calculate_hash (s ++ [c])
       = ((calculate_hash s * 33 + size_t_of_char c) mod 2 ^ 64)%Z) ∧
  (∀ s rest, NUL ∉ s → calculate_hash (s ++ NUL :: rest) = calculate_hash s) ∧
  (∀ c, size_t_of_char c =
     let n := Z.of_N (N_of_ascii c) in
     if decide (n < 128)%Z then n else (2 ^ 64 - 256 + n)%Z) ∧
  (∀ s, 0 ≤ calculate_hash s < 2 ^ 64)%Z.
Proof.
  split; [reflexivity|]. split; [|split; [|split]].
  - intros s c Hs Hc. unfold calculate_hash.
    rewrite calculate_hash_loop_app by exact Hs.
    cbn [calculate_hash_loop]. rewrite decide_False by exact Hc.
    apply calculate_hash_step.
  - intros s rest Hs. unfold calculate_hash.
    rewrite calculate_hash_loop_app by exact Hs.
    cbn [calculate_hash_loop]. rewrite decide_True; reflexivity.
  - intros c. unfold size_t_of_char, wrap_size_t. cbn zeta.
    pose proof (N_ascii_bounded c). case_decide; [reflexivity|].
    symmetry. apply Z.mod_unique_pos with (q := (-1)%Z); lia.
  - intros s. apply calculate_hash_loop_range. lia.
Qed.

(** The hash of "ab" from the hash of "a". *)
Lemma calculate_hash_djb2_witness :
  calculate_hash (str "a" ++ ["b"%char])
    = ((calculate_hash (str "a") * 33 + size_t_of_char "b"%char) mod 2 ^ 64)%Z ∧
  calculate_hash (str "a" ++ NUL :: str "b") = calculate_hash (str "a").
Proof.
  split.
  - apply (proj1 (proj2 calculate_hash_djb2) (str "a") "b"%char).
    + intros Hin. apply list_elem_of_singleton in Hin. discriminate.
    + discriminate.
  - apply (proj1 (proj2 (proj2 calculate_hash_djb2)) (str "a") (str "b")).
    intros Hin. apply list_elem_of_singleton in Hin. discriminate.
Defined.

(** *** Equality and hash of the elements of the set *)

(** [operator==] between a key built from a string and an element of the
    set of a well-formed database, in either order, compares the key's
    string with the string stored at the element's index; and elements
    that compare equal have the same [hash], as the hash set requires. *)
Theorem equal_entries_equal_hashes db key e :
  wf db → e ∈ m_dict db →
  let k := STRING_SET key (m_data db) in
  entry_eq k e
    = Ok (bool_decide (c_string key = c_string (get (entry_index e) db))) ∧
  entry_eq e k = entry_eq k e ∧
  (entry_eq k e = Ok true → hash e = hash k).
Proof.
  intros Hwf He k. subst k.
  pose proof (wf_entries db Hwf) as Hent. rewrite Forall_forall in Hent.
  destruct (entry_ok_get _ _ (Hent e He)) as (s & Heq & Hh & Hget).
  rewrite Heq. cbn [entry_eq hash]. unfold strcmp_eq0.
  fold (get (entry_index e) db). split; [reflexivity|].
  split; [reflexivity|]. intros [= Hsame].
  apply bool_decide_eq_true in Hsame.
  rewrite <- (calculate_hash_c_string key), Hsame, Hget. reflexivity.
Qed.

(** The database of the test of the repository after "dog" and "cat". *)
Definition dog_cat : string_db_t :=
  {| m_dict := [IDX_SET 0 (calculate_hash (str "dog"));
                IDX_SET 4 (calculate_hash (str "cat"))];
     m_data := str "dog" ++ [NUL] ++ str "cat" ++ [NUL];
     m_size := 8; m_capacity := 8 |}.

Lemma dog_cat_pushed :
  push_all [(str "dog", ReallocSame); (str "cat", ReallocSame)]
    (string_db_new 1) = Ok dog_cat.
Proof. vm_compute. reflexivity. Qed.

Lemma dog_cat_wf : wf dog_cat.
Proof.
  destruct (push_all_keeps [(str "cat", ReallocSame)]
              {| m_dict := [IDX_SET 0 (calculate_hash (str "dog"))];
                 m_data := str "dog" ++ [NUL]; m_size := 4; m_capacity := 4 |}
              dog_cat 0 (str "dog")) as [Hwf _].
  - destruct (push_back_ok (str "dog") ReallocSame (string_db_new 1) 0 _
                (string_db_new_wf 1) eq_refl) as [Hwf _]. exact Hwf.
  - vm_compute. reflexivity.
  - exists (calculate_hash (str "dog")). left.
  - destruct (push_back_ok (str "dog") ReallocSame (string_db_new 1) 0 _
                (string_db_new_wf 1) eq_refl) as (_ & Hh & _). exact Hh.
  - exact Hwf.
Qed.

(** The element of "cat" against the keys "cat" and "cow". *)
Lemma equal_entries_equal_hashes_witness :
  let e := IDX_SET 4 (calculate_hash (str "cat")) in
  let cat := STRING_SET (str "cat") (m_data dog_cat) in
  let cow := STRING_SET (str "cow") (m_data dog_cat) in
  (entry_eq cat e = Ok true ∧ entry_eq e cat = entry_eq cat e ∧
   (entry_eq cat e = Ok true → hash e = hash cat)) ∧
  entry_eq cow e = Ok false.
Proof.
  intros e cat cow. split.
  - apply (equal_entries_equal_hashes dog_cat (str "cat") e dog_cat_wf).
    right. left.
  - apply (equal_entries_equal_hashes dog_cat (str "cow") e dog_cat_wf).
    right. left.
Defined.

(** *** The outcomes of [push_back] *)

(** The buffer [push_back] writes a string of [string_len] characters
    (the terminator included) to, and its capacity: the buffer of the
    database, regrown when the string does not fit. *)
Definition buffer_for (string_len : nat) (realloc : realloc_ret)
    (db : string_db_t) : result (list ascii * nat) :=
  if decide (m_capacity db < string_len + m_size db) then
    let new_capacity := max (m_capacity db * 3 / 2) (string_len + m_size db) in
    match realloc with
    | ReallocNull => Err OutOfMemory
    | ReallocMoved => Err DoubleFree
    | ReallocSame => Ok (resized new_capacity (m_data db), new_capacity)
    end
  else Ok (m_data db, m_capacity db).

(** The database [push_back] leaves when it appends [str] in the buffer
    [data]. *)
Definition appended (str : list ascii) (data : list ascii) (capacity : nat)
    (db : string_db_t) : string_db_t :=
  {| m_dict := m_dict db ++ [idx_entry (m_size db) str];
     m_data := memcpy_at data (m_size db) (c_string str ++ [NUL]);
     m_size := m_size db + (strlen str + 1);
     m_capacity := capacity |}.

(** A string no element designates has the same hash as an element. *)
Definition collides (str : list ascii) (db : string_db_t) : bool :=
  bool_decide (Exists (λ e, hash e = calculate_hash str) (m_dict db)).

Definition fresh (str : list ascii) (db : string_db_t) : Prop :=
  ∀ idx, stored db idx → c_string (get idx db) ≠ c_string str.

Lemma fresh_entries key db e :
  wf db → fresh key db → e ∈ m_dict db →
  c_string (get (entry_index e) db) ≠ c_string key.
Proof.
  intros Hwf Hfresh He. pose proof (wf_entries db Hwf) as Hent.
  rewrite Forall_forall in Hent.
  destruct (entry_ok_get _ _ (Hent e He)) as (s & Heq & _ & _).
  apply Hfresh. exists (calculate_hash s). rewrite <- Heq. exact He.
Qed.

Lemma push_back_fresh key realloc db :
  wf db → fresh key db →
  push_back key realloc db =
    ('(data, capacity) ← buffer_for (strlen key + 1) realloc db;
     if collides key db then Err EntryTypeAssert
     else Ok (m_size db, appended key data capacity db)).
Proof.
  intros Hwf Hfresh. unfold push_back.
  destruct (set_lookup_string db key (m_dict db) (wf_entries db Hwf))
    as [(e & _ & Hin & Hc)|[Hl _]].
  { exfalso. exact (fresh_entries key db e Hwf Hfresh Hin Hc). }
  rewrite Hl. cbn [mbind result_bind]. fold (buffer_for (strlen key + 1) realloc db).
  destruct (buffer_for (strlen key + 1) realloc db) as [[data capacity]|err];
    cbn [mbind result_bind]; [|reflexivity].
  unfold set_emplace, idx_entry.
  rewrite (set_lookup_idx db) by exact (wf_entries db Hwf).
  unfold collides. destruct (bool_decide _); reflexivity.
Qed.

Lemma buffer_for_ok string_len realloc db data capacity :
  wf db → buffer_for string_len realloc db = Ok (data, capacity) →
  length data = capacity ∧ m_size db + string_len ≤ capacity ∧
  take (m_size db) data = take (m_size db) (m_data db) ∧
  capacity =
    (if decide (m_capacity db < string_len + m_size db)
     then max (m_capacity db * 3 / 2) (string_len + m_size db)
     else m_capacity db).
Proof.
  intros Hwf. pose proof (wf_length db Hwf). pose proof (wf_size db Hwf).
  unfold buffer_for. case_decide as Hcap.
  - destruct realloc; try discriminate. intros [= <- <-].
    split; [apply resized_length; lia|]. split; [lia|].
    split; [apply resized_take; lia|reflexivity].
  - intros [= <- <-]. split; [assumption|]. split; [lia|].
    split; reflexivity.
Qed.

Lemma appended_valid key data capacity db :
  wf db → length data = capacity →
  m_size db + (strlen key + 1) ≤ capacity →
  take (m_size db) data = take (m_size db) (m_data db) →
  valid (appended key data capacity db) = valid db ++ c_string key ++ [NUL].
Proof.
  intros Hwf Hlen Hfit Htake.
  exact (proj2 (push_back_buffer db (c_string key) data capacity
                  (wf_length db Hwf) (wf_size db Hwf) Hlen Hfit Htake)).
Qed.

(** What [push_back] does on a well-formed database.  A string that is
    stored is found, whatever [realloc] would answer.  A string that is
    not stored is appended at the index [m_size]; the call fails with
    [std::bad_alloc] exactly when the string does not fit and [realloc]
    returns null, runs into the released block exactly when the string
    does not fit and [realloc] moves the buffer, and runs into the
    [assert] of [operator==] exactly when the buffer is there and an
    element of the set has the hash of the string. *)
Theorem push_back_outcome db key realloc :
  wf db →
  (∀ idx, stored db idx → c_string (get idx db) = c_string key →
     push_back key realloc db = Ok (idx, db)) ∧
  (fresh key db →
   let string_len := strlen key + 1 in
   let grows := bool_decide (m_capacity db < string_len + m_size db) in
   match push_back key realloc db with
   | Err OutOfMemory => grows = true ∧ realloc = ReallocNull
   | Err DoubleFree => grows = true ∧ realloc = ReallocMoved
   | Err EntryTypeAssert =>
       (grows = false ∨ realloc = ReallocSame) ∧ collides key db = true
   | Err _ => False
   | Ok (idx, db') =>
       (grows = false ∨ realloc = ReallocSame) ∧ collides key db = false ∧
       idx = m_size db ∧
       m_size db' = m_size db + string_len ∧
       m_capacity db' =
         (if grows then max (m_capacity db * 3 / 2) (string_len + m_size db)
          else m_capacity db) ∧
       valid db' = valid db ++ c_string key ++ [NUL] ∧
       m_dict db' = m_dict db ++ [IDX_SET (m_size db) (calculate_hash key)]
   end).
Proof.
  intros Hwf. split.
  - intros idx Hst Hc. apply push_back_stored; assumption.
  - intros Hfresh string_len grows. subst string_len grows.
    rewrite (push_back_fresh key realloc db Hwf Hfresh).
    destruct (buffer_for (strlen key + 1) realloc db) as [[data capacity]|err]
      eqn:Hbuf; cbn [mbind result_bind].
    + destruct (buffer_for_ok _ _ _ _ _ Hwf Hbuf) as (Hlen & Hfit & Htake & Hcap).
      assert (Hgrow : bool_decide (m_capacity db < strlen key + 1 + m_size db)
                        = false ∨ realloc = ReallocSame).
      { unfold buffer_for in Hbuf. case_decide as Hc.
        - right. destruct realloc; [discriminate|reflexivity|discriminate].
        - left. apply bool_decide_eq_false. exact Hc. }
      destruct (collides key db) eqn:Hcol; [auto|].
      split; [exact Hgrow|]. split; [reflexivity|]. split; [reflexivity|].
      split; [reflexivity|]. split.
      { cbn [appended m_capacity]. rewrite Hcap.
        case_decide as Hc.
        - rewrite bool_decide_true by exact Hc. reflexivity.
        - rewrite bool_decide_false by exact Hc. reflexivity. }
      split; [apply appended_valid; assumption|reflexivity].
    + unfold buffer_for in Hbuf. case_decide as Hc; [|discriminate].
      rewrite bool_decide_true by exact Hc.
      destruct realloc; try discriminate; injection Hbuf as <-; auto.
Qed.

(** "cat" is appended to the database that holds "dog" in a buffer of
    four characters, which [realloc] regrows in place. *)
Lemma push_back_outcome_witness :
  let db := {| m_dict := [IDX_SET 0 (calculate_hash (str "dog"))];
               m_data := str "dog" ++ [NUL]; m_size := 4; m_capacity := 4 |} in
  push_back (str "dog") ReallocMoved db = Ok (0, db) ∧
  ∃ db', push_back (str "cat") ReallocSame db = Ok (4, db') ∧
    m_size db' = 8 ∧ m_capacity db' = 8 ∧
    valid db' = str "dog" ++ [NUL] ++ str "cat" ++ [NUL].
Proof.
  set (db := {| m_dict := [IDX_SET 0 (calculate_hash (str "dog"))];
                m_data := str "dog" ++ [NUL]; m_size := 4; m_capacity := 4 |}).
  assert (Hwf : wf db).
  { destruct (push_back_ok (str "dog") ReallocSame (string_db_new 4) 0 db
                (string_db_new_wf 4) eq_refl) as [H _]. exact H. }
  split.
  - apply (proj1 (push_back_outcome db (str "dog") ReallocMoved Hwf) 0).
    + exists (calculate_hash (str "dog")). left.
    + reflexivity.
  - pose proof (proj2 (push_back_outcome db (str "cat") ReallocSame Hwf)) as Hout.
    cbn zeta in Hout.
    destruct (push_back (str "cat") ReallocSame db) as [[idx db']|err] eqn:Hpush;
      [|vm_compute in Hpush; discriminate].
    destruct Hout as (_ & _ & -> & Hsize & Hcap & Hvalid & _).
    + intros idx0 [h Hin] Hsame. apply list_elem_of_singleton in Hin.
      injection Hin as -> _. vm_compute in Hsame. discriminate.
    + exists db'. split; [reflexivity|]. split; [exact Hsize|].
      split; [exact Hcap|exact Hvalid].
Defined.

(** *** The contents of the buffer *)

(** The strings the elements of the set designate, in the order of the
    set. *)
Definition strings_of (db : string_db_t) : list (list ascii) :=
  map (λ e, c_string (get (entry_index e) db)) (m_dict db).

(** A list of strings with one more string noted: appended unless it is
    in the list. *)
Definition note_string (seen : list (list ascii)) (s : list ascii)
  : list (list ascii) :=
  if decide (s ∈ seen) then seen else seen ++ [s].

(** The strings as the buffer packs them: each with its terminator, one
    after the other. *)
Definition packed (ss : list (list ascii)) : list ascii :=
  flat_map (λ s, s ++ [NUL]) ss.

(** The index of each string in the packed buffer. *)
Definition offsets (ss : list (list ascii)) : list nat :=
  map (λ k, length (packed (take k ss))) (seq 0 (length ss)).

Lemma packed_snoc ss s : packed (ss ++ [s]) = packed ss ++ s ++ [NUL].
Proof. unfold packed. rewrite flat_map_app. cbn. rewrite app_nil_r. reflexivity. Qed.

Lemma offsets_snoc ss s : offsets (ss ++ [s]) = offsets ss ++ [length (packed ss)].
Proof.
  unfold offsets. rewrite length_app. cbn [length].
  replace (length ss + 1) with (S (length ss)) by lia.
  rewrite seq_S, map_app. cbn [map]. f_equal.
  - apply map_ext_in. intros k Hk. apply in_seq in Hk.
    rewrite take_app_le by lia. reflexivity.
  - rewrite take_app_length'; [reflexivity|]. lia.
Qed.

(** The database holds the strings [ss] and nothing else. *)
Record contents (db : string_db_t) (ss : list (list ascii)) : Prop := {
  contents_wf : wf db;
  contents_strings : strings_of db = ss;
  contents_indices : map entry_index (m_dict db) = offsets ss;
  contents_valid : valid db = packed ss
}.

Lemma strings_of_stored db idx :
  wf db → stored db idx → c_string (get idx db) ∈ strings_of db.
Proof.
  intros Hwf [h Hin]. unfold strings_of.
  apply list_elem_of_fmap. exists (IDX_SET idx h). split; [reflexivity|exact Hin].
Qed.

Lemma strings_of_elem db s :
  wf db → s ∈ strings_of db → ∃ idx, stored db idx ∧ c_string (get idx db) = s.
Proof.
  intros Hwf Hs. unfold strings_of in Hs.
  apply list_elem_of_fmap in Hs as (e & -> & He).
  pose proof (wf_entries db Hwf) as Hent. rewrite Forall_forall in Hent.
  destruct (entry_ok_get _ _ (Hent e He)) as (s & Heq & _ & _).
  exists (entry_index e). split; [|reflexivity].
  exists (calculate_hash s). rewrite <- Heq. exact He.
Qed.

Lemma contents_new capacity : contents (string_db_new capacity) [].
Proof.
  constructor; [apply string_db_new_wf|reflexivity..].
Qed.

Lemma contents_size db ss : contents db ss → m_size db = length (packed ss).
Proof.
  intros [Hwf _ _ Hv]. rewrite <- Hv. symmetry. apply valid_length.
  rewrite (wf_length db Hwf). apply wf_size, Hwf.
Qed.

(** The string of an element and its index, by position. *)
Lemma contents_lookup db ss k s :
  contents db ss → ss !! k = Some s →
  stored db (length (packed (take k ss))) ∧
  c_string (get (length (packed (take k ss))) db) = s.
Proof.
  intros [Hwf Hstr Hidx Hv] Hk.
  pose proof (lookup_lt_Some _ _ _ Hk) as Hlt.
  rewrite <- Hstr in Hk. unfold strings_of in Hk.
  apply list_lookup_fmap_Some in Hk as (e & Hs & He).
  assert (Hoff : offsets ss !! k = Some (length (packed (take k ss)))).
  { unfold offsets. rewrite list_lookup_fmap, lookup_seq_lt by exact Hlt.
    reflexivity. }
  rewrite <- Hidx, list_lookup_fmap, He in Hoff. injection Hoff as Hoff.
  rewrite <- Hoff. split; [|symmetry; exact Hs].
  pose proof (wf_entries db Hwf) as Hent. rewrite Forall_forall in Hent.
  assert (Hin : e ∈ m_dict db) by (apply list_elem_of_lookup; eauto).
  destruct (entry_ok_get _ _ (Hent e Hin)) as (s0 & Heq & _ & _).
  exists (calculate_hash s0). rewrite <- Heq. exact Hin.
Qed.

Lemma push_back_contents db ss key realloc idx db' :
  contents db ss → push_back key realloc db = Ok (idx, db') →
  contents db' (note_string ss (c_string key)) ∧
  ∃ k, note_string ss (c_string key) !! k = Some (c_string key) ∧
       idx = length (packed (take k (note_string ss (c_string key)))).
Proof.
  intros Hc Hpush. pose proof Hc as [Hwf Hstr Hidx Hv].
  unfold note_string. case_decide as Hin.
  - (* the string is stored *)
    apply list_elem_of_lookup in Hin as [k Hk].
    destruct (contents_lookup db ss k _ Hc Hk) as [Hst Hget].
    rewrite (push_back_stored key realloc db _ Hwf Hst Hget) in Hpush.
    injection Hpush as <- <-. split; [exact Hc|]. exists k. auto.
  - (* the string is appended *)
    assert (Hfresh : fresh key db).
    { intros i Hi Hsame. apply Hin. rewrite <- Hstr, <- Hsame.
      apply strings_of_stored; assumption. }
    destruct (push_back_ok _ _ _ _ _ Hwf Hpush) as (Hwf' & Hh & _ & _ & _).
    rewrite (push_back_fresh key realloc db Hwf Hfresh) in Hpush.
    destruct (buffer_for (strlen key + 1) realloc db) as [[data capacity]|err]
      eqn:Hbuf; cbn [mbind result_bind] in Hpush; [|discriminate].
    destruct (collides key db); [discriminate|]. injection Hpush as <- <-.
    destruct (buffer_for_ok _ _ _ _ _ Hwf Hbuf) as (Hlen & Hfit & Htake & _).
    pose proof (appended_valid key data capacity db Hwf Hlen Hfit Htake) as Hv'.
    pose proof (contents_size db ss Hc) as Hsize.
    split.
    + constructor.
      * exact Hwf'.
      * unfold strings_of. cbn [appended m_dict]. rewrite map_app. cbn [map].
        f_equal.
        -- rewrite <- Hstr. unfold strings_of. apply map_ext_in.
           intros e He. apply list_elem_of_In in He.
           pose proof (wf_entries db Hwf) as Hent. rewrite Forall_forall in Hent.
           destruct (entry_ok_get _ _ (Hent e He)) as (s0 & _ & Hh0 & Hget0).
           rewrite Hget0. apply holds_get.
           eapply holds_extend; [exact Hv'|exact Hh0].
        -- cbn [idx_entry entry_index]. f_equal. apply holds_get, Hh.
      * cbn [appended m_dict]. rewrite map_app, offsets_snoc, Hidx.
        cbn [map idx_entry entry_index]. rewrite Hsize. reflexivity.
      * rewrite Hv', Hv, packed_snoc. reflexivity.
    + exists (length ss). split.
      * rewrite lookup_app_r, Nat.sub_diag by lia. reflexivity.
      * rewrite take_app_length. exact Hsize.
Qed.

Lemma push_all_contents keys : ∀ db ss db',
  contents db ss → push_all keys db = Ok db' →
  contents db' (fold_left note_string (map (λ k, c_string k.1) keys) ss).
Proof.
  induction keys as [|[key realloc] keys IH]; intros db ss db' Hc Hrun.
  - cbn in Hrun. injection Hrun as <-. exact Hc.
  - cbn [push_all] in Hrun.
    destruct (push_back key realloc db) as [[i db1]|e] eqn:Hpush;
      [|discriminate].
    cbn [mbind result_bind] in Hrun. cbn [map fold_left fst].
    apply (IH db1 _ db'); [|exact Hrun].
    eapply push_back_contents; eassumption.
Qed.

Lemma note_strings_spec ss : ∀ seen,
  NoDup seen →
  NoDup (fold_left note_string ss seen) ∧
  ∀ s, s ∈ fold_left note_string ss seen ↔ s ∈ seen ∨ s ∈ ss.
Proof.
  induction ss as [|x ss IH]; intros seen Hnd.
  - cbn. split; [exact Hnd|]. intros s. rewrite elem_of_nil. tauto.
  - cbn [fold_left].
    assert (Hnd' : NoDup (note_string seen x)).
    { unfold note_string. case_decide as Hx; [exact Hnd|].
      apply NoDup_app. split; [exact Hnd|]. split; [|apply NoDup_singleton].
      intros y Hy Hy'. apply list_elem_of_singleton in Hy'. congruence. }
    destruct (IH _ Hnd') as [Hnd'' Hin]. split; [exact Hnd''|].
    intros s. rewrite Hin, elem_of_cons. unfold note_string.
    case_decide as Hx.
    + split; [tauto|]. intros [Hs|[->|Hs]]; auto.
    + rewrite elem_of_app, list_elem_of_singleton. tauto.
Qed.

(** The strings pushed, each once, in the order of their first push. *)
Definition first_occurrences (ss : list (list ascii)) : list (list ascii) :=
  fold_left note_string ss [].

(** The buffer of a database after a run of insertions that return:
    every string of the run is stored once, however often it was pushed;
    the strings lie in the buffer in the order of their first push, each
    followed by its terminator and nothing between them; the index of a
    string is the number of characters before it, and that is what
    [push_back] returns for it from then on. *)
Theorem string_db_contents capacity keys db :
  push_all keys (string_db_new capacity) = Ok db →
  let ss := first_occurrences (map (λ k, c_string k.1) keys) in
  NoDup ss ∧
  (∀ s, s ∈ ss ↔ ∃ k, k ∈ keys ∧ c_string k.1 = s) ∧
  valid db = packed ss ∧
  m_size db = length (packed ss) ∧
  strings_of db = ss ∧
  map entry_index (m_dict db) = offsets ss ∧
  ∀ k s, ss !! k = Some s →
    c_string (get (length (packed (take k ss))) db) = s ∧
    ∀ key realloc, c_string key = s →
      push_back key realloc db = Ok (length (packed (take k ss)), db).
Proof.
  intros Hrun ss.
  pose proof (push_all_contents keys _ [] db (contents_new capacity) Hrun) as Hc.
  fold (first_occurrences (map (λ k, c_string k.1) keys)) in Hc. fold ss in Hc.
  destruct (note_strings_spec (map (λ k, c_string k.1) keys) [])
    as [Hnd Hin]; [constructor|].
  split; [exact Hnd|]. split.
  { intros s. unfold ss, first_occurrences. rewrite Hin, elem_of_nil.
    rewrite list_elem_of_fmap. split.
    - intros [[]|(k & -> & Hk)]. eauto.
    - intros (k & Hk & <-). right. eauto. }
  split; [apply (contents_valid db ss Hc)|].
  split; [apply contents_size, Hc|].
  split; [apply (contents_strings db ss Hc)|].
  split; [apply (contents_indices db ss Hc)|].
  intros k s Hk. destruct (contents_lookup db ss k s Hc Hk) as [Hst Hget].
  split; [exact Hget|]. intros key realloc Hkey.
  apply push_back_stored; [apply (contents_wf db ss Hc)|exact Hst|congruence].
Qed.

(** The test of the repository, with a second "cat": "dog" at 0 and
    "cat" at 4. *)
Lemma string_db_contents_witness :
  ∃ db,
    push_all [(str "dog", ReallocSame); (str "cat", ReallocSame);
              (str "dog", ReallocSame); (str "cat", ReallocSame)]
      (string_db_new 1) = Ok db ∧
    valid db = packed [str "dog"; str "cat"] ∧
    m_size db = 8 ∧
    map entry_index (m_dict db) = [0; 4] ∧
    ∀ key realloc, c_string key = str "cat" →
      push_back key realloc db = Ok (4, db).
Proof.
  eexists. split; [vm_compute; reflexivity|].
  match goal with
  | |- valid ?d = _ ∧ _ =>
      destruct (string_db_contents 1
                  [(str "dog", ReallocSame); (str "cat", ReallocSame);
                   (str "dog", ReallocSame); (str "cat", ReallocSame)] d)
        as (_ & _ & Hv & Hsize & _ & Hidx & Hget); [vm_compute; reflexivity|]
  end.
  split; [exact Hv|]. split; [exact Hsize|]. split; [exact Hidx|].
  intros key realloc Hkey.
  destruct (Hget 1 (str "cat") eq_refl) as [_ Hpush]. apply Hpush, Hkey.
Defined.

(** *** The copy constructor *)

Lemma string_db_copy_wf db : wf db → wf (string_db_copy db).
Proof.
  intros Hwf. pose proof (wf_length db Hwf) as Hlen.
  pose proof (wf_size db Hwf) as Hsize.
  assert (Hv : valid (string_db_copy db) = valid db ++ []).
  { rewrite app_nil_r. apply string_db_copy_valid. lia. }
  assert (Hent : ∀ e, e ∈ m_dict db →
            entry_ok (string_db_copy db) e ∧
            c_string (get (entry_index e) (string_db_copy db))
              = c_string (get (entry_index e) db)).
  { intros e He. pose proof (wf_entries db Hwf) as Hall.
    rewrite Forall_forall in Hall.
    destruct (entry_ok_get _ _ (Hall e He)) as (s & Heq & Hh & Hget).
    pose proof (holds_extend db _ [] _ _ Hv Hh) as Hh'.
    split; [exists (entry_index e), s; split; assumption|].
    rewrite Hget. apply holds_get, Hh'. }
  constructor.
  - cbn. rewrite length_app, length_take, length_replicate. lia.
  - exact Hsize.
  - apply Forall_forall. intros e He. apply Hent, He.
  - intros i j ei ej Hi Hj Hsame. cbn in Hi, Hj.
    apply (wf_distinct db Hwf i j ei ej Hi Hj).
    rewrite <- (proj2 (Hent ei (proj2 (list_elem_of_lookup _ _) (ex_intro _ i Hi)))),
            <- (proj2 (Hent ej (proj2 (list_elem_of_lookup _ _) (ex_intro _ j Hj)))).
    exact Hsame.
Qed.

(** The copy constructor copies the dictionary, the sizes and the part of
    the buffer that holds strings: the copy is well formed, holds the same
    strings at the same indices with the same capacity, and finds a stored
    string at its index without changing. *)
Theorem string_db_copy_keeps db ss :
  contents db ss →
  contents (string_db_copy db) ss ∧
  m_capacity (string_db_copy db) = m_capacity db ∧
  valid (string_db_copy db) = valid db ∧
  ∀ idx, stored db idx →
    stored (string_db_copy db) idx ∧
    c_string (get idx (string_db_copy db)) = c_string (get idx db) ∧
    ∀ key realloc, c_string key = c_string (get idx db) →
      push_back key realloc (string_db_copy db) = Ok (idx, string_db_copy db).
Proof.
  intros [Hwf Hstr Hidx Hv].
  pose proof (wf_length db Hwf) as Hlen. pose proof (wf_size db Hwf) as Hsize.
  pose proof (string_db_copy_wf db Hwf) as Hwf'.
  assert (Hv' : valid (string_db_copy db) = valid db)
    by (apply string_db_copy_valid; lia).
  assert (Hget : ∀ idx, stored db idx →
            c_string (get idx (string_db_copy db)) = c_string (get idx db)).
  { intros idx Hst. destruct (stored_holds db idx Hwf Hst) as [s Hh].
    rewrite (holds_get _ _ _ Hh). apply holds_get.
    apply (holds_extend db _ []); [rewrite app_nil_r; exact Hv'|exact Hh]. }
  split; [|split; [reflexivity|split]].
  - constructor; [exact Hwf'| |exact Hidx|congruence].
    rewrite <- Hstr. unfold strings_of. cbn [string_db_copy m_dict].
    apply map_ext_in. intros e He. apply list_elem_of_In in He.
    pose proof (wf_entries db Hwf) as Hall. rewrite Forall_forall in Hall.
    destruct (entry_ok_get _ _ (Hall e He)) as (s & Heq & _ & _).
    apply Hget. exists (calculate_hash s). rewrite <- Heq. exact He.
  - exact Hv'.
  - intros idx Hst. split; [exact Hst|]. split; [apply Hget, Hst|].
    intros key realloc Hkey. apply push_back_stored; [exact Hwf'|exact Hst|].
    rewrite Hget by exact Hst. congruence.
Qed.

(** The copy of the database that holds "dog" and "cat". *)
Lemma string_db_copy_keeps_witness :
  let db := {| m_dict := [IDX_SET 0 (calculate_hash (str "dog"));
                          IDX_SET 4 (calculate_hash (str "cat"))];
               m_data := str "dog" ++ [NUL] ++ str "cat" ++ [NUL] ++ str "xy";
               m_size := 8; m_capacity := 10 |} in
  contents (string_db_copy db) [str "dog"; str "cat"] ∧
  valid (string_db_copy db) = str "dog" ++ [NUL] ++ str "cat" ++ [NUL] ∧
  push_back (str "cat") ReallocNull (string_db_copy db)
    = Ok (4, string_db_copy db).
Proof.
  set (db := {| m_dict := [IDX_SET 0 (calculate_hash (str "dog"));
                           IDX_SET 4 (calculate_hash (str "cat"))];
                m_data := str "dog" ++ [NUL] ++ str "cat" ++ [NUL] ++ str "xy";
                m_size := 8; m_capacity := 10 |}).
  assert (Hc : contents db [str "dog"; str "cat"]).
  { constructor; try reflexivity. constructor; try reflexivity.
    - cbn. lia.
    - repeat constructor.
      + exists 0, (str "dog"). split; [reflexivity|]. split.
        * vm_compute. intros Hin. repeat (inversion Hin as [|? ? ? Hin']; subst; clear Hin; rename Hin' into Hin).
        * eexists. vm_compute. reflexivity.
      + exists 4, (str "cat"). split; [reflexivity|]. split.
        * vm_compute. intros Hin. repeat (inversion Hin as [|? ? ? Hin']; subst; clear Hin; rename Hin' into Hin).
        * eexists. vm_compute. reflexivity.
    - intros i j ei ej Hi Hj Hsame.
      destruct i as [|[|i]]; destruct j as [|[|j]]; cbn in Hi, Hj;
        try discriminate; try reflexivity;
        injection Hi as <-; injection Hj as <-; vm_compute in Hsame;
        discriminate. }
  destruct (string_db_copy_keeps db _ Hc) as (Hc' & _ & _ & Hidx).
  split; [exact Hc'|]. split; [reflexivity|].
  destruct (Hidx 4) as (_ & _ & Hpush).
  - exists (calculate_hash (str "cat")). right. left.
  - apply Hpush. reflexivity.
Defined.


End StringDb.

(** ** fiya-recorder.h *)

Module Recorder.

(** *** Label helpers

    [label_helper<LabelType>] converts a label between the form the caller
    uses ([Label]) and the form the nodes store ([Stored]), and compares a
    stored label with a caller's.  [State] is the helper's data (nothing,
    or the string database) and [Env] what the environment decides during
    [save] (nothing, or the answer of [realloc]). *)
Class label_helper (Label Stored State Env : Type) : Type := {
  helper_init : State;
  equal : State → Stored → Label → bool;
  save : Label → Env → State → result (Stored * State);
  restore : State → Stored → Label;
  helper_copy : State → State
}.

(** The primary template: [equal] is [==], [save] and [restore] return
    their argument. *)
#[global] Instance label_helper_plain (L : Type) `{EqDecision L}
  : label_helper L L unit unit := {
  helper_init := tt;
  equal := λ _ l1 l2, bool_decide (l1 = l2);
  save := λ l _ st, Ok (l, st);
  restore := λ _ l, l;
  helper_copy := λ st, st
}.

(** The specialisation for [const char *]: a stored label is an index of
    the string database.  A caller's label is the C string it points to;
    [restore] returns the C string at the index. *)
#[global] Instance label_helper_c_str
  : label_helper (list ascii) nat StringDb.string_db_t StringDb.realloc_ret := {
  helper_init := StringDb.string_db_new 2048;
  equal := λ db l1 l2, StringDb.strcmp_eq0 (StringDb.get l1 db) l2;
  save := λ l realloc db, StringDb.push_back l realloc db;
  restore := λ db l, StringDb.c_string (StringDb.get l db);
  helper_copy := StringDb.string_db_copy
}.

(** The errors a helper's [save] may end in. *)
Definition interner_error (e : error) : Prop :=
  e = OutOfMemory ∨ e = DoubleFree ∨ e = EntryTypeAssert.

(** What the recorder relies on: on a well-formed helper, a stored label
    compares equal to exactly the caller's label it restores to, and
    saving a label keeps what was stored. *)
Class label_helper_laws {Label Stored State Env : Type}
    (H : label_helper Label Stored State Env) : Type := {
  helper_wf : State → Prop;
  label_ok : Label → Prop;
  label_stored : State → Stored → Prop;
  init_wf : helper_wf helper_init;
  equal_spec : ∀ st l x,
    helper_wf st → label_stored st l → label_ok x →
    (equal st l x = true ↔ restore st l = x);
  restore_ok : ∀ st l,
    helper_wf st → label_stored st l → label_ok (restore st l);
  save_spec : ∀ st x env l st',
    helper_wf st → label_ok x → save x env st = Ok (l, st') →
    helper_wf st' ∧ label_stored st' l ∧ restore st' l = x ∧
    ∀ l0, label_stored st l0 →
      label_stored st' l0 ∧ restore st' l0 = restore st l0;
  save_error : ∀ st x env e, save x env st = Err e → interner_error e;
  copy_restore : ∀ st l,
    helper_wf st → label_stored st l →
    restore (helper_copy st) l = restore st l
}.

Lemma plain_equal_spec (L : Type) `{EqDecision L} (st : unit) (l x : L) :
  equal st l x = true ↔ restore st l = x.
Proof. simpl. apply bool_decide_eq_true. Qed.

Lemma plain_save_spec (L : Type) `{EqDecision L} (st : unit) (x : L)
    (env : unit) (l : L) (st' : unit) :
  save x env st = Ok (l, st') → restore st' l = x.
Proof. simpl. intros [= <- <-]. reflexivity. Qed.

#[global] Instance plain_laws (L : Type) `{EqDecision L}
  : label_helper_laws (label_helper_plain L).
Proof.
  refine {| helper_wf := λ _, True;
            label_ok := λ _, True;
            label_stored := λ _ _, True |}.
  - exact I.
  - intros st l x _ _ _. apply plain_equal_spec.
  - intros; exact I.
  - intros st x env l st' _ _ Hs.
    split; [exact I|]. split; [exact I|].
    split; [eapply plain_save_spec, Hs|]. intros l0 _. split; [exact I|].
    reflexivity.
  - intros st x env e Hs. simpl in Hs. discriminate.
  - intros; reflexivity.
Defined.

Lemma c_str_equal_spec db l x :
  StringDb.c_string x = x →
  equal db l x = true ↔ restore db l = x.
Proof.
  intros Hx. simpl. unfold StringDb.strcmp_eq0.
  rewrite bool_decide_eq_true, Hx. reflexivity.
Qed.

#[global] Instance c_str_laws : label_helper_laws label_helper_c_str.
Proof.
  refine {| helper_wf := StringDb.wf;
            label_ok := λ x, StringDb.c_string x = x;
            label_stored := StringDb.stored |}.
  - apply StringDb.string_db_new_wf.
  - intros st l x _ _ Hx. apply c_str_equal_spec, Hx.
  - intros st l _ _. simpl. apply StringDb.c_string_idemp.
  - intros st x env l st' Hwf Hx Hs. simpl in Hs.
    destruct (StringDb.push_back_ok _ _ _ _ _ Hwf Hs)
      as (Hwf' & Hh & Hst & [ext Hv] & Hkeep).
    split; [exact Hwf'|]. split; [exact Hst|].
    split.
    { simpl. rewrite (StringDb.holds_get _ _ _ Hh). exact Hx. }
    intros l0 Hl0. split; [apply Hkeep, Hl0|]. simpl.
    destruct (StringDb.stored_holds _ _ Hwf Hl0) as [s Hs0].
    rewrite (StringDb.holds_get _ _ _ Hs0).
    apply StringDb.holds_get. eapply StringDb.holds_extend; eassumption.
  - intros st x env e Hs. eapply StringDb.push_back_error, Hs.
  - intros st l Hwf Hl. simpl.
    destruct (StringDb.stored_holds _ _ Hwf Hl) as [s Hs0].
    rewrite (StringDb.holds_get _ _ _ Hs0).
    apply StringDb.holds_get.
    apply (StringDb.holds_extend st _ []); [|exact Hs0].
    rewrite app_nil_r. apply StringDb.string_db_copy_valid.
    rewrite (StringDb.wf_length _ Hwf). apply StringDb.wf_size, Hwf.
Defined.

(** *** The global [operator new] as the recorder meets it

    [new measure_node_t(...)] calls the global [operator new].  When the
    program links [fiya-heap-overloads.cpp] and [get_heap_counter()]
    returns this recorder, that call reads the recorder's flag and may
    write the counter of the current node.  [operator_new_effect n c] is
    the counter such a call of [n] bytes leaves, given the view [c] of the
    recorder; the overloads of fiya, like every consumer the README
    describes, leave it alone while the flag is set. *)
Class heap_hooks (MeasureType : Type) : Type := {
  sizeof_measure_node : Z;
  operator_new_effect : Z → counter_interface_t MeasureType → MeasureType;
  operator_new_effect_busy : ∀ n c,
    recorder_internal_running c = true → operator_new_effect n c = cnt c
}.

(** No overload is linked: [operator new] knows no counter. *)
Definition no_overloads (MeasureType : Type) : heap_hooks MeasureType :=
  {| sizeof_measure_node := 64;
     operator_new_effect := λ _ c, cnt c;
     operator_new_effect_busy := λ _ _ _, eq_refl |}.

(** A pointer to a node ([measure_node_t*]) is the node's index in the
    store; a pointer that may be null is an [option]. *)
Abbreviation node_ptr := nat (only parsing).

Section Model.

Context {LabelType Stored State Env MeasureType : Type}.
Context `{Countable LabelType}.
Context {helper : label_helper LabelType Stored State Env}.
Context {hooks : heap_hooks MeasureType}.

(** [struct measure_node_t] *)
Record measure_node_t : Type := {
  m_label : Stored;
  m_value : MeasureType;
  m_parent : option node_ptr;
  m_children : list node_ptr
}.

Definition with_value (v : MeasureType) (n : measure_node_t) : measure_node_t :=
  {| m_label := m_label n; m_value := v;
     m_parent := m_parent n; m_children := m_children n |}.

(** [children.emplace_back(node)] on the node's vector. *)
Definition emplace_back_child (c : node_ptr) (n : measure_node_t)
  : measure_node_t :=
  {| m_label := m_label n; m_value := m_value n;
     m_parent := m_parent n; m_children := m_children n ++ [c] |}.

(** [class recorder_t]; [m_nodes] is the store of the nodes allocated with
    [new]. *)
Record recorder_t : Type := {
  m_recorder_internal_running : bool;
  m_label_helper : State;
  m_default_value : MeasureType;
  m_nodes : list measure_node_t;
  m_root : node_ptr;
  m_current_node : node_ptr
}.

Definition set_running (b : bool) (r : recorder_t) : recorder_t :=
  {| m_recorder_internal_running := b;
     m_label_helper := m_label_helper r;
     m_default_value := m_default_value r;
     m_nodes := m_nodes r;
     m_root := m_root r;
     m_current_node := m_current_node r |}.

Definition set_label_helper (st : State) (r : recorder_t) : recorder_t :=
  {| m_recorder_internal_running := m_recorder_internal_running r;
     m_label_helper := st;
     m_default_value := m_default_value r;
     m_nodes := m_nodes r;
     m_root := m_root r;
     m_current_node := m_current_node r |}.

Definition set_nodes (nodes : list measure_node_t) (r : recorder_t)
  : recorder_t :=
  {| m_recorder_internal_running := m_recorder_internal_running r;
     m_label_helper := m_label_helper r;
     m_default_value := m_default_value r;
     m_nodes := nodes;
     m_root := m_root r;
     m_current_node := m_current_node r |}.

Definition set_current_node (p : node_ptr) (r : recorder_t) : recorder_t :=
  {| m_recorder_internal_running := m_recorder_internal_running r;
     m_label_helper := m_label_helper r;
     m_default_value := m_default_value r;
     m_nodes := m_nodes r;
     m_root := m_root r;
     m_current_node := p |}.

(** [*p] *)
Definition deref (nodes : list measure_node_t) (p : node_ptr)
  : result measure_node_t :=
  match nodes !! p with
  | Some n => Ok n
  | None => Err WildPointer
  end.

(** The constructor.  The flag is set before the root is allocated and
    cleared at the end; [operator new] meets the flag set. *)
Definition recorder_new (default_value : MeasureType) (root_label : LabelType)
    (env : Env) (root_value : MeasureType) : result recorder_t :=
  '(l, st) ← save root_label env helper_init;
  Ok {| m_recorder_internal_running := false;
        m_label_helper := st;
        m_default_value := default_value;
        m_nodes := [ {| m_label := l; m_value := root_value;
                        m_parent := None; m_children := [] |} ];
        m_root := 0;
        m_current_node := 0 |}.

(** [bool recorder_internal_running() const] *)
Definition recorder_internal_running_of (r : recorder_t) : bool :=
  m_recorder_internal_running r.

(** [const MeasureType& cnt() const] *)
Definition cnt_of (r : recorder_t) : result MeasureType :=
  n ← deref (m_nodes r) (m_current_node r); Ok (m_value n).

(** A write through the reference [MeasureType& cnt()] returns. *)
Definition cnt_write (v : MeasureType) (r : recorder_t) : recorder_t :=
  set_nodes (alter (with_value v) (m_current_node r) (m_nodes r)) r.

(** A call of the global [operator new] for [n] bytes from inside the
    recorder. *)
Definition global_operator_new (n : Z) (r : recorder_t) : recorder_t :=
  set_nodes
    (alter
       (λ node,
          with_value
            (operator_new_effect n
               {| recorder_internal_running := m_recorder_internal_running r;
                  cnt := m_value node |})
            node)
       (m_current_node r) (m_nodes r))
    r.

(** The loop of [begin_scope] over [children]: the first child whose label
    equals [label]. *)
Fixpoint find_child (st : State) (nodes : list measure_node_t)
    (label : LabelType) (children : list node_ptr) : result (option node_ptr) :=
  match children with
  | [] => Ok None
  | c :: children =>
      n ← deref nodes c;
      if equal st (m_label n) label then Ok (Some c)
      else find_child st nodes label children
  end.

(** [void begin_scope(const LabelType& label)] *)
Definition begin_scope (label : LabelType) (env : Env) (r : recorder_t)
  : result recorder_t :=
  let r := set_running true r in
  cur ← deref (m_nodes r) (m_current_node r);
  node ← find_child (m_label_helper r) (m_nodes r) label (m_children cur);
  r ←
    match node with
    | Some node => Ok (set_current_node node r)
    | None =>
        (* Node not found, generate a new node *)
        '(l, st) ← save label env (m_label_helper r);
        let r := set_label_helper st r in
        let r := global_operator_new sizeof_measure_node r in
        let node := length (m_nodes r) in
        let r :=
          set_nodes
            (m_nodes r ++
               [ {| m_label := l; m_value := m_default_value r;
                    m_parent := Some (m_current_node r);
                    m_children := [] |} ]) r in
        let r :=
          set_nodes
            (alter (emplace_back_child node) (m_current_node r) (m_nodes r))
            r in
        Ok (set_current_node node r)
    end;
  Ok (set_running false r).

(** [void end_scope()] *)
Definition end_scope (r : recorder_t) : result recorder_t :=
  let r := set_running true r in
  cur ← deref (m_nodes r) (m_current_node r);
  match m_parent cur with
  | None => Err StackUnderflow
  | Some parent => Ok (set_running false (set_current_node parent r))
  end.

(** [void end_scope(const LabelType& label)] *)
Definition end_scope_label (label : LabelType) (r : recorder_t)
  : result recorder_t :=
  let r := set_running true r in
  cur ← deref (m_nodes r) (m_current_node r);
  match m_parent cur with
  | None => Err StackUnderflow
  | Some parent =>
      if equal (m_label_helper r) (m_label cur) label
      then Ok (set_running false (set_current_node parent r))
      else Err LabelMismatch
  end.

(** *** Reports *)

(** An output stream is the text written to it so far. *)
Definition newline : string := String (ascii_of_nat 10) EmptyString.

(** A loop over a vector that threads a state and stops at a failure. *)
Fixpoint for_each {A B : Type} (f : B → A → result B) (l : list A) (b : B)
  : result B :=
  match l with
  | [] => Ok b
  | a :: l => b' ← f b a; for_each f l b'
  end.

(** [print_stack]; the recursion follows [m_parent], [fuel] bounds its
    depth. *)
Fixpoint print_stack (fuel : nat) (st : State) (nodes : list measure_node_t)
    (l_out : LabelType → string) (node : node_ptr) (os : string)
  : result string :=
  match fuel with
  | 0 => Err Diverges
  | S fuel =>
      n ← deref nodes node;
      os ←
        match m_parent n with
        | Some parent =>
            os ← print_stack fuel st nodes l_out parent os;
            Ok (os +:+ ";")
        | None => Ok os
        end;
      Ok (os +:+ l_out (restore st (m_label n)))
  end.

(** [to_collapsed_stack]; the recursion follows [m_children], [fuel]
    bounds its depth.  No path in a store is longer than the store, which
    bounds the recursion of [print_stack]. *)
Fixpoint to_collapsed_stack (fuel : nat) (st : State)
    (nodes : list measure_node_t) (l_out : LabelType → string)
    (m_out : MeasureType → string) (node : node_ptr) (os : string)
  : result string :=
  match fuel with
  | 0 => Err Diverges
  | S fuel' =>
      os ← print_stack (length nodes) st nodes l_out node os;
      let os := os +:+ " " in
      n ← deref nodes node;
      let os := os +:+ m_out (m_value n) in
      let os := os +:+ newline in
      for_each
        (λ os child, to_collapsed_stack fuel' st nodes l_out m_out child os)
        (m_children n) os
  end.

(** [to_collapsed_stacks(os, l_out, m_out)]: the text written to [os] and
    the recorder it leaves. *)
Definition to_collapsed_stacks (os : string) (l_out : LabelType → string)
    (m_out : MeasureType → string) (r : recorder_t)
  : result (string * recorder_t) :=
  let r := set_running true r in
  os ← to_collapsed_stack (length (m_nodes r)) (m_label_helper r) (m_nodes r)
         l_out m_out (m_root r) os;
  Ok (os, set_running false r).

(** [report_t::report_entry_t] *)
Record report_entry_t : Type := {
  self : MeasureType;
  total : MeasureType
}.

(** [report_t]: the map [report] and the helper copied at construction. *)
Record report_t : Type := {
  report : gmap LabelType report_entry_t;
  m_helper : State
}.

(** The update of the map at the end of the private [to_report]. *)
Definition report_add (op : MeasureType → MeasureType → MeasureType)
    (label : LabelType) (value total_ : MeasureType)
    (rep : gmap LabelType report_entry_t) : gmap LabelType report_entry_t :=
  match rep !! label with
  | Some it =>
      <[label := {| self := op (self it) value; total := op (total it) total_ |}]> rep
  | None => <[label := {| self := value; total := total_ |}]> rep
  end.

(** The private [to_report(node, report, op)]: the total of the node and
    the report. *)
Fixpoint to_report_node (fuel : nat) (nodes : list measure_node_t)
    (op : MeasureType → MeasureType → MeasureType) (node : node_ptr)
    (rep : report_t) : result (MeasureType * report_t) :=
  match fuel with
  | 0 => Err Diverges
  | S fuel =>
      n ← deref nodes node;
      '(total_, rep) ←
        for_each
          (λ '(total_, rep) child,
             '(t, rep) ← to_report_node fuel nodes op child rep;
             Ok (op total_ t, rep))
          (m_children n) (m_value n, rep);
      let label := restore (m_helper rep) (m_label n) in
      Ok (total_,
          {| report := report_add op label (m_value n) total_ (report rep);
             m_helper := m_helper rep |})
  end.

(** [to_report(accumulate_op)]: the report and the recorder it leaves. *)
Definition to_report (op : MeasureType → MeasureType → MeasureType)
    (r : recorder_t) : result (report_t * recorder_t) :=
  let r := set_running true r in
  let result_ := {| report := ∅; m_helper := helper_copy (m_label_helper r) |} in
  '(_, result_) ← to_report_node (length (m_nodes r)) (m_nodes r) op (m_root r)
                    result_;
  Ok (result_, set_running false r).

(** The report generators leave the recorder as it was, with the flag
    cleared. *)
Lemma reports_keep_recorder r :
  (∀ os l_out m_out os' r',
     to_collapsed_stacks os l_out m_out r = Ok (os', r') →
     r' = set_running false r) ∧
  (∀ op rep r', to_report op r = Ok (rep, r') → r' = set_running false r).
Proof.
  split.
  - intros os l_out m_out os' r'. unfold to_collapsed_stacks.
    destruct (to_collapsed_stack _ _ _ _ _ _ _) as [o|e];
      cbn [mbind result_bind]; [|discriminate].
    intros [= _ <-]. reflexivity.
  - intros op rep r'. unfold to_report.
    destruct (to_report_node _ _ _ _ _) as [[t rep0]|e];
      cbn [mbind result_bind]; [|discriminate].
    intros [= _ <-]. reflexivity.
Qed.

(** *** The two outcomes of [begin_scope] *)

(** [current] moves to a node of the store: to the child [begin_scope]
    found, or to the parent in [end_scope]. *)
Definition move_to (c : node_ptr) (r : recorder_t) : recorder_t :=
  set_running false (set_current_node c r).

(** The node [begin_scope] creates for the stored label [l]. *)
Definition fresh_node (l : Stored) (r : recorder_t) : measure_node_t :=
  {| m_label := l; m_value := m_default_value r;
     m_parent := Some (m_current_node r); m_children := [] |}.

(** The node is not found: a node is allocated at the end of the store and
    appended to the children of [current], and [current] moves to it. *)
Definition enter_fresh (l : Stored) (st : State) (r : recorder_t)
  : recorder_t :=
  {| m_recorder_internal_running := false;
     m_label_helper := st;
     m_default_value := m_default_value r;
     m_nodes :=
       alter (emplace_back_child (length (m_nodes r))) (m_current_node r)
         (m_nodes r ++ [fresh_node l r]);
     m_root := m_root r;
     m_current_node := length (m_nodes r) |}.

Lemma deref_Some nodes p n : nodes !! p = Some n → deref nodes p = Ok n.
Proof. intros Hp. unfold deref. rewrite Hp. reflexivity. Qed.

Lemma deref_ok nodes p n : deref nodes p = Ok n → nodes !! p = Some n.
Proof. unfold deref. destruct (nodes !! p); [congruence|discriminate]. Qed.

Lemma with_value_same (n : measure_node_t) : with_value (m_value n) n = n.
Proof. destruct n; reflexivity. Qed.

(** While the flag is set, [operator new] leaves the recorder as it is. *)
Lemma global_operator_new_busy n r :
  m_recorder_internal_running r = true → global_operator_new n r = r.
Proof.
  intros Hbusy. unfold global_operator_new.
  rewrite list_alter_id; [destruct r; reflexivity|].
  intros node. rewrite operator_new_effect_busy by exact Hbusy.
  apply with_value_same.
Qed.

Lemma begin_scope_found label env r cur c :
  m_nodes r !! m_current_node r = Some cur →
  find_child (m_label_helper r) (m_nodes r) label (m_children cur)
    = Ok (Some c) →
  begin_scope label env r = Ok (move_to c r).
Proof.
  intros Hcur Hfind. unfold begin_scope. cbn [set_running m_nodes
    m_current_node m_label_helper].
  rewrite (deref_Some _ _ _ Hcur). cbn [mbind result_bind].
  rewrite Hfind. reflexivity.
Qed.

Lemma begin_scope_fresh label env r cur l st :
  m_nodes r !! m_current_node r = Some cur →
  find_child (m_label_helper r) (m_nodes r) label (m_children cur) = Ok None →
  save label env (m_label_helper r) = Ok (l, st) →
  begin_scope label env r = Ok (enter_fresh l st r).
Proof.
  intros Hcur Hfind Hsave. unfold begin_scope. cbn [set_running m_nodes
    m_current_node m_label_helper].
  rewrite (deref_Some _ _ _ Hcur). cbn [mbind result_bind].
  rewrite Hfind. cbn [mbind result_bind]. rewrite Hsave.
  cbn [mbind result_bind]. rewrite global_operator_new_busy by reflexivity.
  reflexivity.
Qed.

(** How [begin_scope] ends, when the current node is in the store and the
    scan dereferences no wild pointer. *)
Lemma begin_scope_cases label env r cur :
  m_nodes r !! m_current_node r = Some cur →
  (∃ c, find_child (m_label_helper r) (m_nodes r) label (m_children cur)
          = Ok (Some c) ∧
        begin_scope label env r = Ok (move_to c r)) ∨
  (find_child (m_label_helper r) (m_nodes r) label (m_children cur) = Ok None ∧
   ((∃ l st, save label env (m_label_helper r) = Ok (l, st) ∧
             begin_scope label env r = Ok (enter_fresh l st r)) ∨
    (∃ e, save label env (m_label_helper r) = Err e ∧
          begin_scope label env r = Err e))) ∨
  (∃ e, find_child (m_label_helper r) (m_nodes r) label (m_children cur)
          = Err e).
Proof.
  intros Hcur.
  destruct (find_child _ _ label (m_children cur)) as [[c|]|e] eqn:Hfind.
  - left. exists c. split; [reflexivity|].
    eapply begin_scope_found; eassumption.
  - right. left. split; [reflexivity|].
    destruct (save label env (m_label_helper r)) as [[l st]|e] eqn:Hsave.
    + left. exists l, st. split; [reflexivity|].
      eapply begin_scope_fresh; eassumption.
    + right. exists e. split; [reflexivity|].
      unfold begin_scope. cbn [set_running m_nodes m_current_node
        m_label_helper].
      rewrite (deref_Some _ _ _ Hcur). cbn [mbind result_bind].
      rewrite Hfind. cbn [mbind result_bind]. rewrite Hsave. reflexivity.
  - right. right. exists e. reflexivity.
Qed.

(** The scan, on children that are in the store. *)
Lemma find_child_spec st nodes label children :
  (∀ c, c ∈ children → is_Some (nodes !! c)) →
  (∃ i c n, find_child st nodes label children = Ok (Some c) ∧
            children !! i = Some c ∧ nodes !! c = Some n ∧
            equal st (m_label n) label = true ∧
            ∀ j cj nj, j < i → children !! j = Some cj →
              nodes !! cj = Some nj → equal st (m_label nj) label = false) ∨
  (find_child st nodes label children = Ok None ∧
   ∀ c n, c ∈ children → nodes !! c = Some n →
     equal st (m_label n) label = false).
Proof.
  induction children as [|c children IH]; intros Hvalid.
  - right. split; [reflexivity|]. intros c n Hc. inversion Hc.
  - destruct (Hvalid c) as [n Hn]; [left|].
    cbn [find_child]. rewrite (deref_Some _ _ _ Hn). cbn [mbind result_bind].
    destruct (equal st (m_label n) label) eqn:Heq.
    + left. exists 0, c, n. split; [reflexivity|]. split; [reflexivity|].
      split; [exact Hn|]. split; [exact Heq|]. intros j cj nj Hj. lia.
    + destruct IH as [(i & c' & n' & Hf & Hi & Hn' & Heq' & Hbefore)|[Hf Hnone]].
      * intros c' Hc'. apply Hvalid. right. exact Hc'.
      * left. exists (S i), c', n'. split; [exact Hf|]. split; [exact Hi|].
        split; [exact Hn'|]. split; [exact Heq'|].
        intros j cj nj Hj Hcj Hnj. destruct j as [|j].
        -- simpl in Hcj. injection Hcj as <-. congruence.
        -- simpl in Hcj. apply (Hbefore j cj nj); [lia|assumption..].
      * right. split; [exact Hf|]. intros c' n' Hc' Hn'.
        apply elem_of_cons in Hc' as [->|Hc']; [congruence|].
        eapply Hnone; eassumption.
Qed.

(** The store after [enter_fresh]. *)
Lemma fresh_new l st r cur :
  m_nodes r !! m_current_node r = Some cur →
  m_nodes (enter_fresh l st r) !! length (m_nodes r) = Some (fresh_node l r).
Proof.
  intros Hcur. pose proof (lookup_lt_Some _ _ _ Hcur) as Hlt.
  cbn [enter_fresh m_nodes].
  rewrite list_lookup_alter_ne by lia.
  rewrite lookup_app_r by lia.
  replace (length (m_nodes r) - length (m_nodes r)) with 0 by lia.
  reflexivity.
Qed.

Lemma fresh_old l st r cur p n :
  m_nodes r !! m_current_node r = Some cur →
  m_nodes r !! p = Some n →
  ∃ n', m_nodes (enter_fresh l st r) !! p = Some n' ∧
    m_label n' = m_label n ∧ m_value n' = m_value n ∧
    m_parent n' = m_parent n ∧
    m_children n' =
      if decide (p = m_current_node r)
      then m_children n ++ [length (m_nodes r)] else m_children n.
Proof.
  intros Hcur Hp. pose proof (lookup_lt_Some _ _ _ Hp) as Hlt.
  cbn [enter_fresh m_nodes]. rewrite list_lookup_alter.
  rewrite !lookup_app_l by (eapply lookup_lt_Some; eassumption).
  case_decide as Hpc; case_decide as Hpc'; try congruence.
  - subst p. rewrite Hp.
    eexists. split; [reflexivity|]. repeat split.
  - rewrite Hp.
    eexists. split; [reflexivity|]. repeat split.
Qed.

Lemma fresh_lookup l st r cur p n' :
  m_nodes r !! m_current_node r = Some cur →
  m_nodes (enter_fresh l st r) !! p = Some n' →
  (p = length (m_nodes r) ∧ n' = fresh_node l r) ∨
  (∃ n, m_nodes r !! p = Some n ∧
     m_label n' = m_label n ∧ m_value n' = m_value n ∧
     m_parent n' = m_parent n ∧
     m_children n' =
       if decide (p = m_current_node r)
       then m_children n ++ [length (m_nodes r)] else m_children n).
Proof.
  intros Hcur Hp.
  destruct (decide (p = length (m_nodes r))) as [->|Hne].
  - left. split; [reflexivity|].
    rewrite (fresh_new l st r cur Hcur) in Hp. congruence.
  - right. assert (Hlt : p < length (m_nodes r)).
    { apply lookup_lt_Some in Hp. cbn [enter_fresh m_nodes] in Hp.
      rewrite length_alter, length_app in Hp. simpl in Hp. lia. }
    destruct (lookup_lt_is_Some_2 _ _ Hlt) as [n Hn].
    exists n. split; [exact Hn|].
    destruct (fresh_old l st r cur p n Hcur Hn) as (n'' & Hn'' & Hrest).
    rewrite Hp in Hn''. injection Hn'' as <-. exact Hrest.
Qed.

(** *** The invariant of the recorder *)

Context {laws : label_helper_laws helper}.

Record inv (r : recorder_t) : Prop := {
  inv_idle : m_recorder_internal_running r = false;
  inv_helper : helper_wf (m_label_helper r);
  inv_root : ∃ n, m_nodes r !! m_root r = Some n ∧ m_parent n = None;
  inv_current : is_Some (m_nodes r !! m_current_node r);
  inv_labels : ∀ p n,
    m_nodes r !! p = Some n → label_stored (m_label_helper r) (m_label n);
  inv_children : ∀ p n c,
    m_nodes r !! p = Some n → c ∈ m_children n →
    ∃ cn, m_nodes r !! c = Some cn ∧ m_parent cn = Some p;
  inv_parent : ∀ p n q,
    m_nodes r !! p = Some n → m_parent n = Some q →
    q < p ∧ ∃ qn, m_nodes r !! q = Some qn ∧ p ∈ m_children qn;
  inv_orphan : ∀ p n,
    m_nodes r !! p = Some n → m_parent n = None → p = m_root r;
  inv_distinct : ∀ p n i j ci cj ni nj,
    m_nodes r !! p = Some n →
    m_children n !! i = Some ci → m_children n !! j = Some cj →
    m_nodes r !! ci = Some ni → m_nodes r !! cj = Some nj →
    restore (m_label_helper r) (m_label ni)
      = restore (m_label_helper r) (m_label nj) →
    i = j
}.

(** What a step keeps: every node stays where it is with its label, its
    measure and its parent, and every stored label restores as before. *)
Record extends (r r' : recorder_t) : Prop := {
  ext_root : m_root r' = m_root r;
  ext_default : m_default_value r' = m_default_value r;
  ext_nodes : ∀ p n,
    m_nodes r !! p = Some n →
    ∃ n', m_nodes r' !! p = Some n' ∧ m_label n' = m_label n ∧
          m_value n' = m_value n ∧ m_parent n' = m_parent n;
  ext_labels : ∀ l,
    label_stored (m_label_helper r) l →
    label_stored (m_label_helper r') l ∧
    restore (m_label_helper r') l = restore (m_label_helper r) l
}.

Lemma extends_refl r : extends r r.
Proof.
  constructor; try reflexivity.
  - intros p n Hp. exists n. repeat split. exact Hp.
  - intros l Hl. split; [exact Hl|reflexivity].
Qed.

Lemma extends_trans r1 r2 r3 : extends r1 r2 → extends r2 r3 → extends r1 r3.
Proof.
  intros [Hr1 Hd1 Hn1 Hl1] [Hr2 Hd2 Hn2 Hl2]. constructor.
  - congruence.
  - congruence.
  - intros p n Hp. destruct (Hn1 p n Hp) as (n' & Hp' & Hl & Hv & Hpa).
    destruct (Hn2 p n' Hp') as (n'' & Hp'' & Hl' & Hv' & Hpa').
    exists n''. split; [exact Hp''|]. repeat split; congruence.
  - intros l Hl. destruct (Hl1 l Hl) as [Hs Hr].
    destruct (Hl2 l Hs) as [Hs' Hr']. split; [exact Hs'|congruence].
Qed.

Lemma move_to_inv r cur c :
  inv r → m_nodes r !! m_current_node r = Some cur → c ∈ m_children cur →
  inv (move_to c r).
Proof.
  intros Hinv Hcur Hc. destruct Hinv. constructor; try assumption.
  - reflexivity.
  - cbn. destruct (inv_children0 _ _ _ Hcur Hc) as (cn & Hcn & _). eauto.
Qed.

Lemma enter_fresh_extends r cur x env l st :
  inv r → m_nodes r !! m_current_node r = Some cur →
  label_ok x → save x env (m_label_helper r) = Ok (l, st) →
  extends r (enter_fresh l st r).
Proof.
  intros Hinv Hcur Hx Hsave.
  destruct (save_spec _ _ _ _ _ (inv_helper r Hinv) Hx Hsave)
    as (Hwf' & Hst & Hres & Hkeep).
  constructor; try reflexivity.
  - intros p n Hp.
    destruct (fresh_old l st r cur p n Hcur Hp) as (n' & Hn' & H1 & H2 & H3 & _).
    exists n'. auto.
  - intros l0 Hl0. apply Hkeep, Hl0.
Qed.

Lemma enter_fresh_inv r cur x env l st :
  inv r → m_nodes r !! m_current_node r = Some cur →
  label_ok x → save x env (m_label_helper r) = Ok (l, st) →
  (∀ c n, c ∈ m_children cur → m_nodes r !! c = Some n →
     equal (m_label_helper r) (m_label n) x = false) →
  inv (enter_fresh l st r).
Proof.
  intros Hinv Hcur Hx Hsave Hnone.
  destruct (save_spec _ _ _ _ _ (inv_helper r Hinv) Hx Hsave)
    as (Hwf' & Hst & Hres & Hkeep).
  pose proof (lookup_lt_Some _ _ _ Hcur) as Hcurlt.
  pose proof (fresh_new l st r cur Hcur) as Hnew.
  assert (Hold := fresh_old l st r cur).
  assert (Hlook := fresh_lookup l st r cur).
  assert (Hrestore : ∀ p n, m_nodes r !! p = Some n →
            restore st (m_label n) = restore (m_label_helper r) (m_label n)).
  { intros p n Hp. apply Hkeep. eapply inv_labels; eassumption. }
  constructor.
  - reflexivity.
  - exact Hwf'.
  - destruct (inv_root r Hinv) as (rn & Hrn & Hpar).
    destruct (Hold _ _ Hcur Hrn) as (rn' & Hrn' & _ & _ & Hpar' & _).
    exists rn'. split; [exact Hrn'|congruence].
  - cbn [enter_fresh m_current_node]. rewrite Hnew. eauto.
  - intros p n' Hp. cbn [enter_fresh m_label_helper].
    destruct (Hlook p n' Hcur Hp) as [[-> ->]|(n & Hn & Hl & _)].
    + exact Hst.
    + rewrite Hl. apply Hkeep. eapply inv_labels; eassumption.
  - intros p n' c Hp Hc.
    assert (Hchild : ∀ n, m_nodes r !! p = Some n → c ∈ m_children n →
              ∃ cn, m_nodes (enter_fresh l st r) !! c = Some cn ∧
                    m_parent cn = Some p).
    { intros n Hn Hcn.
      destruct (inv_children r Hinv _ _ _ Hn Hcn) as (cn & Hcn' & Hpar).
      destruct (Hold _ _ Hcur Hcn') as (cn' & Hcn'' & _ & _ & Hpar' & _).
      exists cn'. split; [exact Hcn''|congruence]. }
    destruct (Hlook p n' Hcur Hp) as [[-> ->]|(n & Hn & _ & _ & _ & Hch)].
    + inversion Hc.
    + rewrite Hch in Hc. case_decide as Hpc; [|eauto].
      apply elem_of_app in Hc as [Hc|Hc]; [eauto|].
      apply list_elem_of_singleton in Hc as ->.
      exists (fresh_node l r). split; [exact Hnew|]. simpl. congruence.
  - intros p n' q Hp Hq.
    destruct (Hlook p n' Hcur Hp) as [[-> ->]|(n & Hn & _ & _ & Hpar & _)].
    + simpl in Hq. injection Hq as <-. split; [exact Hcurlt|].
      destruct (Hold _ _ Hcur Hcur) as (cur' & Hcur' & _ & _ & _ & Hch).
      exists cur'. split; [exact Hcur'|]. rewrite Hch.
      rewrite decide_True by reflexivity. apply elem_of_app. right. left.
    + rewrite Hpar in Hq.
      destruct (inv_parent r Hinv _ _ _ Hn Hq) as (Hlt & qn & Hqn & Hin).
      split; [exact Hlt|].
      destruct (Hold _ _ Hcur Hqn) as (qn' & Hqn' & _ & _ & _ & Hch).
      exists qn'. split; [exact Hqn'|]. rewrite Hch.
      case_decide; [apply elem_of_app; left|]; exact Hin.
  - intros p n' Hp Hnone'.
    destruct (Hlook p n' Hcur Hp) as [[-> ->]|(n & Hn & _ & _ & Hpar & _)].
    + discriminate.
    + cbn [enter_fresh m_root]. eapply inv_orphan; [exact Hinv|exact Hn|].
      congruence.
  - intros p n' i j ci cj ni nj Hp Hi Hj Hni Hnj Hsame.
    cbn [enter_fresh m_label_helper] in Hsame.
    destruct (Hlook p n' Hcur Hp) as [[-> ->]|(n & Hn & _ & _ & _ & Hch)].
    + simpl in Hi. rewrite lookup_nil in Hi. discriminate.
    + (* a child is an old child or the fresh node *)
      assert (Hcase : ∀ k ck nk,
                m_children n' !! k = Some ck →
                m_nodes (enter_fresh l st r) !! ck = Some nk →
                (∃ nk0, m_children n !! k = Some ck ∧
                        m_nodes r !! ck = Some nk0 ∧
                        restore st (m_label nk)
                          = restore (m_label_helper r) (m_label nk0)) ∨
                (p = m_current_node r ∧ k = length (m_children n) ∧
                 restore st (m_label nk) = x)).
      { intros k ck nk Hk Hnk. rewrite Hch in Hk.
        assert (Hin_old : m_children n !! k = Some ck →
                  ∃ nk0, m_children n !! k = Some ck ∧
                         m_nodes r !! ck = Some nk0 ∧
                         restore st (m_label nk)
                           = restore (m_label_helper r) (m_label nk0)).
        { intros Hk0.
          destruct (inv_children r Hinv p n ck Hn) as (nk0 & Hnk0 & _).
          { apply list_elem_of_lookup. eauto. }
          exists nk0. split; [exact Hk0|]. split; [exact Hnk0|].
          destruct (Hold _ _ Hcur Hnk0) as (nk' & Hnk' & Hl & _).
          rewrite Hnk in Hnk'. injection Hnk' as <-.
          rewrite Hl. eapply Hrestore, Hnk0. }
        case_decide as Hpc; [|left; auto].
        apply lookup_app_Some in Hk as [Hk|[Hge Hk]]; [left; auto|].
        right. apply list_lookup_singleton_Some in Hk as [Hk0 <-].
        split; [exact Hpc|]. split; [lia|].
        rewrite Hnew in Hnk. injection Hnk as <-. exact Hres. }
      assert (Hscan : ∀ k ck nk0, p = m_current_node r →
                m_children n !! k = Some ck → m_nodes r !! ck = Some nk0 →
                restore (m_label_helper r) (m_label nk0) ≠ x).
      { intros k ck nk0 -> Hk Hnk0 Heq. rewrite Hcur in Hn.
        injection Hn as <-.
        assert (Hck : ck ∈ m_children cur)
          by (apply list_elem_of_lookup; eauto).
        pose proof (Hnone ck nk0 Hck Hnk0) as Hfalse.
        apply (equal_spec _ _ _ (inv_helper r Hinv)
                 (inv_labels r Hinv _ _ Hnk0) Hx) in Heq.
        congruence. }
      destruct (Hcase i ci ni Hi Hni) as [(ni0 & Hi0 & Hni0 & Hri)|(Hpi & -> & Hri)];
        destruct (Hcase j cj nj Hj Hnj) as [(nj0 & Hj0 & Hnj0 & Hrj)|(Hpj & -> & Hrj)].
      * eapply (inv_distinct r Hinv p n i j); try eassumption. congruence.
      * exfalso. eapply (Hscan i ci ni0); try eassumption. congruence.
      * exfalso. eapply (Hscan j cj nj0); try eassumption. congruence.
      * reflexivity.
Qed.

Lemma move_to_extends p r : extends r (move_to p r).
Proof.
  constructor; try reflexivity.
  - intros q n Hq. exists n. repeat split. exact Hq.
  - intros l Hl. split; [exact Hl|reflexivity].
Qed.

Lemma move_to_valid_inv r p :
  inv r → is_Some (m_nodes r !! p) → inv (move_to p r).
Proof.
  intros Hinv Hp. destruct Hinv. constructor; try assumption. reflexivity.
Qed.

(** A successful [begin_scope]: the invariant, what is kept, and the node
    it moves to. *)
Lemma begin_scope_ok x env r r' :
  inv r → label_ok x → begin_scope x env r = Ok r' →
  ∃ cur, m_nodes r !! m_current_node r = Some cur ∧
    ((∃ c cn, c ∈ m_children cur ∧ m_nodes r !! c = Some cn ∧
              equal (m_label_helper r) (m_label cn) x = true ∧
              r' = move_to c r) ∨
     (∃ l st, save x env (m_label_helper r) = Ok (l, st) ∧
              (∀ c n, c ∈ m_children cur → m_nodes r !! c = Some n →
                 equal (m_label_helper r) (m_label n) x = false) ∧
              r' = enter_fresh l st r)).
Proof.
  intros Hinv Hx Hb. destruct (inv_current r Hinv) as [cur Hcur].
  exists cur. split; [exact Hcur|].
  assert (Hvalid : ∀ c, c ∈ m_children cur → is_Some (m_nodes r !! c)).
  { intros c Hc. destruct (inv_children r Hinv _ _ _ Hcur Hc) as (cn & Hcn & _).
    eauto. }
  destruct (find_child_spec (m_label_helper r) (m_nodes r) x (m_children cur)
              Hvalid)
    as [(i & c & n & Hf & Hi & Hn & Heq & _)|[Hf Hnone]].
  - left. exists c, n. split; [apply list_elem_of_lookup; eauto|].
    split; [exact Hn|]. split; [exact Heq|].
    rewrite (begin_scope_found x env r cur c Hcur Hf) in Hb. congruence.
  - right. destruct (save x env (m_label_helper r)) as [[l st]|e] eqn:Hsave.
    + exists l, st. split; [reflexivity|]. split; [exact Hnone|].
      rewrite (begin_scope_fresh x env r cur l st Hcur Hf Hsave) in Hb.
      congruence.
    + exfalso. destruct (begin_scope_cases x env r cur Hcur)
        as [(c & Hf' & _)|[(_ & [(l & st & Hs & _)|(e' & _ & Hb')])|(e' & Hf')]];
        congruence.
Qed.

Lemma begin_scope_post x env r r' :
  inv r → label_ok x → begin_scope x env r = Ok r' →
  inv r' ∧ extends r r' ∧
  ∃ cn, m_nodes r' !! m_current_node r' = Some cn ∧
        m_parent cn = Some (m_current_node r) ∧
        restore (m_label_helper r') (m_label cn) = x.
Proof.
  intros Hinv Hx Hb.
  destruct (begin_scope_ok x env r r' Hinv Hx Hb)
    as (cur & Hcur & [(c & cn & Hc & Hcn & Heq & ->)|(l & st & Hs & Hnone & ->)]).
  - split; [eapply move_to_valid_inv; eauto|].
    split; [apply move_to_extends|].
    exists cn. split; [exact Hcn|].
    destruct (inv_children r Hinv _ _ _ Hcur Hc) as (cn' & Hcn' & Hpar).
    split; [congruence|].
    apply (equal_spec _ _ _ (inv_helper r Hinv)
             (inv_labels r Hinv _ _ Hcn) Hx), Heq.
  - split; [eapply enter_fresh_inv; eassumption|].
    split; [eapply enter_fresh_extends; eassumption|].
    exists (fresh_node l r). split; [eapply fresh_new, Hcur|].
    split; [reflexivity|].
    apply (save_spec _ _ _ _ _ (inv_helper r Hinv) Hx Hs).
Qed.

(** [begin_scope] fails only when the helper's [save] fails. *)
Lemma begin_scope_err x env r e :
  inv r → begin_scope x env r = Err e →
  save x env (m_label_helper r) = Err e.
Proof.
  intros Hinv Hb. destruct (inv_current r Hinv) as [cur Hcur].
  assert (Hvalid : ∀ c, c ∈ m_children cur → is_Some (m_nodes r !! c)).
  { intros c Hc. destruct (inv_children r Hinv _ _ _ Hcur Hc) as (cn & Hcn & _).
    eauto. }
  destruct (begin_scope_cases x env r cur Hcur)
    as [(c & _ & Hb')|[(_ & [(l & st & _ & Hb')|(e' & Hs & Hb')])|(e' & Hf')]].
  - congruence.
  - congruence.
  - congruence.
  - exfalso.
    destruct (find_child_spec (m_label_helper r) (m_nodes r) x (m_children cur)
                Hvalid)
      as [(i & c & n & Hf & _)|[Hf _]]; congruence.
Qed.

(** [end_scope], with and without a label, at the root and elsewhere. *)
Lemma end_scope_root r :
  inv r → m_current_node r = m_root r →
  end_scope r = Err StackUnderflow ∧
  ∀ label, end_scope_label label r = Err StackUnderflow.
Proof.
  intros Hinv Hroot. destruct (inv_root r Hinv) as (n & Hn & Hpar).
  rewrite <- Hroot in Hn. split; [|intros label].
  - unfold end_scope. cbn [set_running m_nodes m_current_node].
    rewrite (deref_Some _ _ _ Hn). cbn [mbind result_bind]. rewrite Hpar.
    reflexivity.
  - unfold end_scope_label. cbn [set_running m_nodes m_current_node].
    rewrite (deref_Some _ _ _ Hn). cbn [mbind result_bind]. rewrite Hpar.
    reflexivity.
Qed.

Lemma end_scope_child r cur q :
  m_nodes r !! m_current_node r = Some cur → m_parent cur = Some q →
  end_scope r = Ok (move_to q r) ∧
  ∀ label,
    end_scope_label label r =
      if equal (m_label_helper r) (m_label cur) label
      then Ok (move_to q r) else Err LabelMismatch.
Proof.
  intros Hcur Hpar. split; [|intros label].
  - unfold end_scope. cbn [set_running m_nodes m_current_node].
    rewrite (deref_Some _ _ _ Hcur). cbn [mbind result_bind]. rewrite Hpar.
    reflexivity.
  - unfold end_scope_label. cbn [set_running m_nodes m_current_node].
    rewrite (deref_Some _ _ _ Hcur). cbn [mbind result_bind]. rewrite Hpar.
    reflexivity.
Qed.

Lemma end_scope_ok r r' :
  inv r → end_scope r = Ok r' →
  ∃ cur q, m_nodes r !! m_current_node r = Some cur ∧
           m_parent cur = Some q ∧ r' = move_to q r ∧ inv r'.
Proof.
  intros Hinv He. destruct (inv_current r Hinv) as [cur Hcur].
  destruct (m_parent cur) as [q|] eqn:Hpar.
  - exists cur, q. destruct (end_scope_child r cur q Hcur Hpar) as [H1 _].
    rewrite H1 in He. injection He as <-.
    split; [exact Hcur|]. split; [exact Hpar|]. split; [reflexivity|].
    apply move_to_valid_inv; [exact Hinv|].
    destruct (inv_parent r Hinv _ _ _ Hcur Hpar) as (_ & qn & Hqn & _). eauto.
  - pose proof (inv_orphan r Hinv _ _ Hcur Hpar) as Hroot.
    destruct (end_scope_root r Hinv Hroot) as [H1 _]. congruence.
Qed.

Lemma end_scope_label_ok label r r' :
  inv r → end_scope_label label r = Ok r' →
  ∃ cur q, m_nodes r !! m_current_node r = Some cur ∧
           m_parent cur = Some q ∧
           equal (m_label_helper r) (m_label cur) label = true ∧
           r' = move_to q r ∧ inv r'.
Proof.
  intros Hinv He. destruct (inv_current r Hinv) as [cur Hcur].
  destruct (m_parent cur) as [q|] eqn:Hpar.
  - exists cur, q. destruct (end_scope_child r cur q Hcur Hpar) as [_ H1].
    rewrite H1 in He.
    destruct (equal (m_label_helper r) (m_label cur) label) eqn:Heq;
      [|discriminate].
    injection He as <-.
    split; [exact Hcur|]. split; [exact Hpar|]. split; [reflexivity|].
    split; [reflexivity|].
    apply move_to_valid_inv; [exact Hinv|].
    destruct (inv_parent r Hinv _ _ _ Hcur Hpar) as (_ & qn & Hqn & _). eauto.
  - pose proof (inv_orphan r Hinv _ _ Hcur Hpar) as Hroot.
    destruct (end_scope_root r Hinv Hroot) as [_ H1]. rewrite H1 in He.
    discriminate.
Qed.

Lemma recorder_new_inv default_value root_label env root_value r :
  label_ok root_label →
  recorder_new default_value root_label env root_value = Ok r →
  inv r.
Proof.
  intros Hx Hnew. unfold recorder_new in Hnew.
  destruct (save root_label env helper_init) as [[l st]|e] eqn:Hsave;
    [|discriminate].
  cbn [mbind result_bind] in Hnew. injection Hnew as <-.
  destruct (save_spec _ _ _ _ _ init_wf Hx Hsave) as (Hwf & Hst & _ & _).
  assert (Hone : ∀ p n,
            [ {| m_label := l; m_value := root_value;
                 m_parent := None; m_children := [] |} ] !! p = Some n →
            p = 0 ∧ n = {| m_label := l; m_value := root_value;
                           m_parent := None; m_children := [] |}).
  { intros p n Hp. apply list_lookup_singleton_Some in Hp as [-> <-]. auto. }
  constructor; cbn.
  - reflexivity.
  - exact Hwf.
  - eexists. split; reflexivity.
  - eauto.
  - intros p n Hp. destruct (Hone p n Hp) as [-> ->]. exact Hst.
  - intros p n c Hp Hc. destruct (Hone p n Hp) as [-> ->]. inversion Hc.
  - intros p n q Hp Hq. destruct (Hone p n Hp) as [-> ->]. discriminate.
  - intros p n Hp _. destruct (Hone p n Hp) as [-> ->]. reflexivity.
  - intros p n i j ci cj ni nj Hp Hi. destruct (Hone p n Hp) as [-> ->].
    simpl in Hi. rewrite lookup_nil in Hi. discriminate.
Qed.

Lemma cnt_write_lookup v r p n' :
  m_nodes (cnt_write v r) !! p = Some n' →
  ∃ n, m_nodes r !! p = Some n ∧ m_label n' = m_label n ∧
       m_parent n' = m_parent n ∧ m_children n' = m_children n ∧
       m_value n' = if decide (p = m_current_node r) then v else m_value n.
Proof.
  cbn [cnt_write set_nodes m_nodes]. rewrite list_lookup_alter.
  case_decide as Hp.
  - subst p. destruct (m_nodes r !! m_current_node r) as [n|]; [|discriminate].
    intros [= <-]. exists n. rewrite decide_True by reflexivity.
    repeat split.
  - intros Hn. exists n'. rewrite decide_False by congruence. repeat split.
    exact Hn.
Qed.

Lemma cnt_write_old v r p n :
  m_nodes r !! p = Some n →
  ∃ n', m_nodes (cnt_write v r) !! p = Some n' ∧ m_label n' = m_label n ∧
        m_parent n' = m_parent n ∧ m_children n' = m_children n.
Proof.
  intros Hn. cbn [cnt_write set_nodes m_nodes]. rewrite list_lookup_alter.
  case_decide as Hp.
  - subst p. rewrite Hn. eexists. split; [reflexivity|]. repeat split.
  - exists n. repeat split. exact Hn.
Qed.

Lemma cnt_write_inv v r : inv r → inv (cnt_write v r).
Proof.
  intros Hinv.
  assert (Hl := cnt_write_lookup v r). assert (Ho := cnt_write_old v r).
  constructor.
  - apply (inv_idle r Hinv).
  - apply (inv_helper r Hinv).
  - destruct (inv_root r Hinv) as (n & Hn & Hpar).
    destruct (Ho _ _ Hn) as (n' & Hn' & _ & Hpar' & _).
    exists n'. split; [exact Hn'|congruence].
  - destruct (inv_current r Hinv) as [n Hn].
    destruct (Ho _ _ Hn) as (n' & Hn' & _). exists n'. exact Hn'.
  - intros p n' Hp. destruct (Hl p n' Hp) as (n & Hn & Hlab & _).
    rewrite Hlab. exact (inv_labels r Hinv p n Hn).
  - intros p n' c Hp Hc. destruct (Hl p n' Hp) as (n & Hn & _ & _ & Hch & _).
    rewrite Hch in Hc.
    destruct (inv_children r Hinv _ _ _ Hn Hc) as (cn & Hcn & Hpar).
    destruct (Ho _ _ Hcn) as (cn' & Hcn' & _ & Hpar' & _).
    exists cn'. split; [exact Hcn'|congruence].
  - intros p n' q Hp Hq. destruct (Hl p n' Hp) as (n & Hn & _ & Hpar & _).
    rewrite Hpar in Hq.
    destruct (inv_parent r Hinv _ _ _ Hn Hq) as (Hlt & qn & Hqn & Hin).
    split; [exact Hlt|].
    destruct (Ho _ _ Hqn) as (qn' & Hqn' & _ & _ & Hch).
    exists qn'. split; [exact Hqn'|congruence].
  - intros p n' Hp Hnone. destruct (Hl p n' Hp) as (n & Hn & _ & Hpar & _).
    eapply (inv_orphan r Hinv); [exact Hn|congruence].
  - intros p n' i j ci cj ni' nj' Hp Hi Hj Hni Hnj Hsame.
    destruct (Hl p n' Hp) as (n & Hn & _ & _ & Hch & _).
    destruct (Hl ci ni' Hni) as (ni & Hni0 & Hli & _).
    destruct (Hl cj nj' Hnj) as (nj & Hnj0 & Hlj & _).
    rewrite Hch in Hi, Hj. rewrite Hli, Hlj in Hsame.
    eapply (inv_distinct r Hinv p n i j); eassumption.
Qed.

(** *** Runs of the recorder *)

(** The states a recorder goes through: it is constructed, scopes begin
    and end, and the current counter is written through [cnt()].  The
    labels a caller passes are labels of its type ([label_ok]). *)
Inductive reachable : recorder_t → Prop :=
  | reachable_new default_value root_label env root_value r :
      label_ok root_label →
      recorder_new default_value root_label env root_value = Ok r →
      reachable r
  | reachable_begin r label env r' :
      reachable r → label_ok label →
      begin_scope label env r = Ok r' → reachable r'
  | reachable_end r r' :
      reachable r → end_scope r = Ok r' → reachable r'
  | reachable_end_label r label r' :
      reachable r → end_scope_label label r = Ok r' → reachable r'
  | reachable_cnt r v :
      reachable r → reachable (cnt_write v r).

Lemma reachable_inv r : reachable r → inv r.
Proof.
  induction 1 as [d x env v r Hx Hnew|r x env r' _ IH Hx Hb|r r' _ IH He
                  |r x r' _ IH He|r v _ IH].
  - eapply recorder_new_inv; eassumption.
  - eapply begin_scope_post; eassumption.
  - destruct (end_scope_ok r r' IH He) as (cur & q & _ & _ & _ & Hinv).
    exact Hinv.
  - destruct (end_scope_label_ok x r r' IH He) as (cur & q & _ & _ & _ & _ & Hinv).
    exact Hinv.
  - apply cnt_write_inv, IH.
Qed.

(** A call of the scoping interface. *)
Inductive scope_call : Type :=
  | call_begin (label : LabelType) (env : Env)
  | call_end
  | call_end_label (label : LabelType).

Definition run_call (c : scope_call) (r : recorder_t) : result recorder_t :=
  match c with
  | call_begin label env => begin_scope label env r
  | call_end => end_scope r
  | call_end_label label => end_scope_label label r
  end.

Fixpoint run_calls (cs : list scope_call) (r : recorder_t)
  : result recorder_t :=
  match cs with
  | [] => Ok r
  | c :: cs => r' ← run_call c r; run_calls cs r'
  end.

(** Well-nested calls: every [begin_scope] is closed by an [end_scope],
    which, when it names a label, names the label of its [begin_scope]. *)
Inductive well_nested : list scope_call → Prop :=
  | nested_nil : well_nested []
  | nested_scope label env body rest :
      label_ok label → well_nested body → well_nested rest →
      well_nested (call_begin label env :: body ++ call_end :: rest)
  | nested_scope_label label env body rest :
      label_ok label → well_nested body → well_nested rest →
      well_nested
        (call_begin label env :: body ++ call_end_label label :: rest).

Lemma run_calls_app cs1 cs2 r :
  run_calls (cs1 ++ cs2) r = (r' ← run_calls cs1 r; run_calls cs2 r').
Proof.
  revert r. induction cs1 as [|c cs1 IH]; intros r; [reflexivity|].
  cbn [app run_calls]. destruct (run_call c r) as [r'|e]; [|reflexivity].
  cbn [mbind result_bind]. apply IH.
Qed.

(** A well-nested run comes back to the node it started from, keeps every
    node's label, measure and parent, and can fail only in [save]. *)
Lemma well_nested_run cs :
  well_nested cs → ∀ r, inv r →
  match run_calls cs r with
  | Ok r' =>
      inv r' ∧ extends r r' ∧ m_current_node r' = m_current_node r
  | Err e => ∃ x env st, save x env st = Err e
  end.
Proof.
  induction 1 as [|x env body rest Hx _ IHbody _ IHrest
                  |x env body rest Hx _ IHbody _ IHrest]; intros r Hinv.
  - cbn. split; [exact Hinv|]. split; [apply extends_refl|reflexivity].
  - cbn [run_calls run_call].
    destruct (begin_scope x env r) as [r1|e] eqn:Hb; cbn [mbind result_bind].
    2:{ eexists _, _, _. eapply begin_scope_err; eassumption. }
    destruct (begin_scope_post x env r r1 Hinv Hx Hb)
      as (Hinv1 & Hext1 & cn & Hcn & Hpar & Hres).
    rewrite run_calls_app. specialize (IHbody r1 Hinv1).
    destruct (run_calls body r1) as [r2|e]; cbn [mbind result_bind];
      [|exact IHbody].
    destruct IHbody as (Hinv2 & Hext2 & Hcur2).
    destruct (ext_nodes r1 r2 Hext2 _ _ Hcn) as (cn' & Hcn' & Hlab & _ & Hpar').
    rewrite <- Hcur2 in Hcn'. rewrite Hpar in Hpar'.
    destruct (end_scope_child r2 cn' _ Hcn' Hpar') as [Hend _].
    cbn [run_calls run_call]. rewrite Hend. cbn [mbind result_bind].
    assert (Hinv3 : inv (move_to (m_current_node r) r2)).
    { apply move_to_valid_inv; [exact Hinv2|].
      destruct (inv_current r Hinv) as [n Hn].
      destruct (ext_nodes r r2 (extends_trans _ _ _ Hext1 Hext2) _ _ Hn)
        as (n' & Hn' & _). eauto. }
    specialize (IHrest _ Hinv3).
    destruct (run_calls rest (move_to (m_current_node r) r2)) as [r4|e];
      [|exact IHrest].
    destruct IHrest as (Hinv4 & Hext4 & Hcur4).
    split; [exact Hinv4|]. split; [|exact Hcur4].
    eapply extends_trans; [exact Hext1|].
    eapply extends_trans; [exact Hext2|].
    eapply extends_trans; [apply move_to_extends|exact Hext4].
  - cbn [run_calls run_call].
    destruct (begin_scope x env r) as [r1|e] eqn:Hb; cbn [mbind result_bind].
    2:{ eexists _, _, _. eapply begin_scope_err; eassumption. }
    destruct (begin_scope_post x env r r1 Hinv Hx Hb)
      as (Hinv1 & Hext1 & cn & Hcn & Hpar & Hres).
    rewrite run_calls_app. specialize (IHbody r1 Hinv1).
    destruct (run_calls body r1) as [r2|e]; cbn [mbind result_bind];
      [|exact IHbody].
    destruct IHbody as (Hinv2 & Hext2 & Hcur2).
    destruct (ext_nodes r1 r2 Hext2 _ _ Hcn) as (cn' & Hcn' & Hlab & _ & Hpar').
    rewrite <- Hcur2 in Hcn'. rewrite Hpar in Hpar'.
    destruct (end_scope_child r2 cn' _ Hcn' Hpar') as [_ Hend].
    cbn [run_calls run_call]. rewrite Hend.
    assert (Heq : equal (m_label_helper r2) (m_label cn') x = true).
    { apply (equal_spec _ _ _ (inv_helper r2 Hinv2)
               (inv_labels r2 Hinv2 _ _ Hcn') Hx).
      rewrite Hlab.
      destruct (ext_labels r1 r2 Hext2 (m_label cn)
                  (inv_labels r1 Hinv1 _ _ Hcn)) as [_ Hr].
      congruence. }
    rewrite Heq. cbn [mbind result_bind].
    assert (Hinv3 : inv (move_to (m_current_node r) r2)).
    { apply move_to_valid_inv; [exact Hinv2|].
      destruct (inv_current r Hinv) as [n Hn].
      destruct (ext_nodes r r2 (extends_trans _ _ _ Hext1 Hext2) _ _ Hn)
        as (n' & Hn' & _). eauto. }
    specialize (IHrest _ Hinv3).
    destruct (run_calls rest (move_to (m_current_node r) r2)) as [r4|e];
      [|exact IHrest].
    destruct IHrest as (Hinv4 & Hext4 & Hcur4).
    split; [exact Hinv4|]. split; [|exact Hcur4].
    eapply extends_trans; [exact Hext1|].
    eapply extends_trans; [exact Hext2|].
    eapply extends_trans; [apply move_to_extends|exact Hext4].
Qed.

(** Calls whose labels are labels of the caller's type. *)
Definition call_ok (c : scope_call) : Prop :=
  match c with
  | call_begin label _ => label_ok label
  | call_end | call_end_label _ => True
  end.

Lemma run_calls_reachable cs : ∀ r r',
  reachable r → Forall call_ok cs → run_calls cs r = Ok r' → reachable r'.
Proof.
  induction cs as [|c cs IH]; intros r r' Hreach Hok Hrun.
  - cbn in Hrun. congruence.
  - apply Forall_cons in Hok as [Hc Hok]. cbn [run_calls] in Hrun.
    destruct (run_call c r) as [r1|e] eqn:Hcall; [|discriminate].
    cbn [mbind result_bind] in Hrun. apply (IH r1 r'); [|exact Hok|exact Hrun].
    destruct c as [label env| |label]; cbn [run_call] in Hcall.
    + eapply reachable_begin; eassumption.
    + eapply reachable_end; eassumption.
    + eapply reachable_end_label; eassumption.
Qed.

(** *** The claims about scopes *)

(** C1.  A well-nested sequence of [begin_scope] and [end_scope] calls
    (either overload) that starts at the root of a reachable recorder
    ends at the root; the run can fail only where the label helper's
    [save] fails, so it returns whenever [save] cannot fail (as for the
    primary template).  Both overloads of [end_scope] fail with
    [StackUnderflow] when [current] is the root, and return no
    recorder. *)
Theorem scope_balance :
  (∀ cs r, reachable r → well_nested cs → m_current_node r = m_root r →
     match run_calls cs r with
     | Ok r' => m_current_node r' = m_root r'
     | Err e => ∃ x env st, save x env st = Err e
     end) ∧
  ((∀ x env st, is_ok (save x env st) = true) →
   ∀ cs r, reachable r → well_nested cs → m_current_node r = m_root r →
     ∃ r', run_calls cs r = Ok r' ∧ m_current_node r' = m_root r') ∧
  (∀ r, reachable r → m_current_node r = m_root r →
     end_scope r = Err StackUnderflow ∧
     ∀ label, end_scope_label label r = Err StackUnderflow).
Proof.
  assert (Hmain : ∀ cs r, reachable r → well_nested cs →
            m_current_node r = m_root r →
            match run_calls cs r with
            | Ok r' => m_current_node r' = m_root r'
            | Err e => ∃ x env st, save x env st = Err e
            end).
  { intros cs r Hreach Hnested Hroot.
    pose proof (well_nested_run cs Hnested r (reachable_inv r Hreach)) as Hrun.
    destruct (run_calls cs r) as [r'|e]; [|exact Hrun].
    destruct Hrun as (_ & Hext & Hcur).
    rewrite Hcur, Hroot. symmetry. apply (ext_root r r' Hext). }
  split; [exact Hmain|]. split.
  - intros Htotal cs r Hreach Hnested Hroot.
    specialize (Hmain cs r Hreach Hnested Hroot).
    destruct (run_calls cs r) as [r'|e]; [eauto|].
    destruct Hmain as (x & env & st & Hsave).
    specialize (Htotal x env st). rewrite Hsave in Htotal. discriminate.
  - intros r Hreach Hroot.
    apply end_scope_root; [apply reachable_inv, Hreach|exact Hroot].
Qed.

(** C5.  In a reachable recorder, [begin_scope label] moves [current] to
    the first child of the current node whose label equals [label]; when
    no child's label does, it saves the label, allocates a node with the
    default measure and no children at the end of the store, with the
    current node as its parent, appends it to the current node's children
    and moves [current] to it ([enter_fresh]).  And no node has two
    children whose labels compare equal. *)
Theorem begin_scope_children :
  ∀ r, reachable r →
  (∀ label env cur,
     m_nodes r !! m_current_node r = Some cur →
     (∀ i c cn,
        m_children cur !! i = Some c → m_nodes r !! c = Some cn →
        equal (m_label_helper r) (m_label cn) label = true →
        (∀ j cj nj, j < i → m_children cur !! j = Some cj →
           m_nodes r !! cj = Some nj →
           equal (m_label_helper r) (m_label nj) label = false) →
        begin_scope label env r = Ok (move_to c r)) ∧
     ((∀ c cn, c ∈ m_children cur → m_nodes r !! c = Some cn →
         equal (m_label_helper r) (m_label cn) label = false) →
      ∀ l st, save label env (m_label_helper r) = Ok (l, st) →
        begin_scope label env r = Ok (enter_fresh l st r))) ∧
  (∀ p n i j ci cj ni nj,
     m_nodes r !! p = Some n →
     m_children n !! i = Some ci → m_children n !! j = Some cj → i ≠ j →
     m_nodes r !! ci = Some ni → m_nodes r !! cj = Some nj →
     equal (m_label_helper r) (m_label ni)
       (restore (m_label_helper r) (m_label nj)) = false).
Proof.
  intros r Hreach. pose proof (reachable_inv r Hreach) as Hinv. split.
  - intros label env cur Hcur.
    assert (Hvalid : ∀ c, c ∈ m_children cur → is_Some (m_nodes r !! c)).
    { intros c Hc.
      destruct (inv_children r Hinv _ _ _ Hcur Hc) as (cn & Hcn & _). eauto. }
    destruct (find_child_spec (m_label_helper r) (m_nodes r) label
                (m_children cur) Hvalid)
      as [(i' & c' & n' & Hf & Hi' & Hn' & Heq' & Hbefore)|[Hf Hnone]].
    + split.
      * intros i c cn Hi Hcn Heq Hfirst.
        assert (i = i') as ->.
        { destruct (Nat.lt_trichotomy i i') as [Hlt|[Heq0|Hgt]]; [|exact Heq0|].
          - pose proof (Hbefore i c cn Hlt Hi Hcn). congruence.
          - pose proof (Hfirst i' c' n' Hgt Hi' Hn'). congruence. }
        assert (c = c') as -> by congruence.
        eapply begin_scope_found; eassumption.
      * intros Hno. exfalso.
        assert (Hc' : c' ∈ m_children cur)
          by (apply list_elem_of_lookup; eauto).
        pose proof (Hno c' n' Hc' Hn'). congruence.
    + split.
      * intros i c cn Hi Hcn Heq _. exfalso.
        assert (Hc : c ∈ m_children cur) by (apply list_elem_of_lookup; eauto).
        pose proof (Hnone c cn Hc Hcn). congruence.
      * intros _ l st Hsave. eapply begin_scope_fresh; eassumption.
  - intros p n i j ci cj ni nj Hp Hi Hj Hij Hni Hnj.
    destruct (equal (m_label_helper r) (m_label ni)
                (restore (m_label_helper r) (m_label nj))) eqn:Heq;
      [|reflexivity].
    exfalso. apply Hij.
    eapply (inv_distinct r Hinv p n i j); try eassumption.
    apply (equal_spec _ _ _ (inv_helper r Hinv) (inv_labels r Hinv _ _ Hni)).
    + apply restore_ok; [apply (inv_helper r Hinv)|].
      apply (inv_labels r Hinv _ _ Hnj).
    + exact Heq.
Qed.

(** C10.  In a reachable recorder, [begin_scope] leaves every node of the
    store in its place with the measure it had; if the current node has
    a child whose label equals the label, [current] moves to that child
    and the store is left as it is; a node the store did not hold before
    is the new current node and carries the default measure.  Both
    overloads of [end_scope] leave the store as it is. *)
Theorem scopes_keep_measures :
  ∀ r, reachable r →
  (∀ label env r', label_ok label → begin_scope label env r = Ok r' →
     (∀ p n, m_nodes r !! p = Some n →
        ∃ n', m_nodes r' !! p = Some n' ∧ m_value n' = m_value n) ∧
     (∀ cur c cn,
        m_nodes r !! m_current_node r = Some cur →
        c ∈ m_children cur → m_nodes r !! c = Some cn →
        equal (m_label_helper r) (m_label cn) label = true →
        m_current_node r' = c ∧ m_nodes r' = m_nodes r) ∧
     (∀ p n', m_nodes r' !! p = Some n' → m_nodes r !! p = None →
        p = m_current_node r' ∧ m_value n' = m_default_value r)) ∧
  (∀ r', end_scope r = Ok r' → m_nodes r' = m_nodes r) ∧
  (∀ label r', end_scope_label label r = Ok r' → m_nodes r' = m_nodes r).
Proof.
  intros r Hreach. pose proof (reachable_inv r Hreach) as Hinv.
  split; [|split].
  - intros label env r' Hx Hb.
    destruct (begin_scope_ok label env r r' Hinv Hx Hb)
      as (cur & Hcur & [(c & cn & Hc & Hcn & Heq & ->)|(l & st & Hs & Hnone & ->)]).
    + split; [|split].
      * intros p n Hp. exists n. split; [exact Hp|reflexivity].
      * intros cur' c' cn' Hcur' Hc' Hcn' Heq'. split; [|reflexivity].
        cbn. rewrite Hcur in Hcur'. injection Hcur' as <-.
        apply list_elem_of_lookup in Hc as [i Hi].
        apply list_elem_of_lookup in Hc' as [j Hj].
        assert (i = j) as ->; [|congruence].
        eapply (inv_distinct r Hinv _ cur i j); try eassumption.
        apply (equal_spec _ _ _ (inv_helper r Hinv)
                 (inv_labels r Hinv _ _ Hcn) Hx) in Heq.
        apply (equal_spec _ _ _ (inv_helper r Hinv)
                 (inv_labels r Hinv _ _ Hcn') Hx) in Heq'.
        congruence.
      * intros p n' Hp Hnone. cbn in Hp. congruence.
    + split; [|split].
      * intros p n Hp.
        destruct (fresh_old l st r cur p n Hcur Hp) as (n' & Hn' & _ & Hv & _).
        exists n'. split; assumption.
      * intros cur' c' cn' Hcur' Hc' Hcn' Heq'. exfalso.
        rewrite Hcur in Hcur'. injection Hcur' as <-.
        pose proof (Hnone c' cn' Hc' Hcn'). congruence.
      * intros p n' Hp Hnew.
        destruct (fresh_lookup l st r cur p n' Hcur Hp)
          as [[-> ->]|(n & Hn & _)]; [|congruence].
        split; reflexivity.
  - intros r' He.
    destruct (end_scope_ok r r' Hinv He) as (cur & q & _ & _ & -> & _).
    reflexivity.
  - intros label r' He.
    destruct (end_scope_label_ok label r r' Hinv He)
      as (cur & q & _ & _ & _ & -> & _).
    reflexivity.
Qed.

(** *** The tree a store holds *)

(** The tree of a store, read off the nodes: the pointer, label and
    measure of a node and the trees of its children, in the order of the
    children. *)
#[warnings="-register-all"]
Inductive tree : Type :=
  | Node (t_ptr : node_ptr) (t_label : Stored) (t_value : MeasureType)
         (t_kids : list tree).

Definition tree_ptr (t : tree) : node_ptr :=
  match t with Node p _ _ _ => p end.

Lemma tree_ind_kids (P : tree → Prop) :
  (∀ p l v kids, Forall P kids → P (Node p l v kids)) → ∀ t, P t.
Proof.
  intros Hnode. fix go 1. intros [p l v kids]. apply Hnode.
  induction kids as [|k kids IH]; constructor; [apply go|exact IH].
Qed.

(** The store holds the tree [t] below the parent pointer [parent]. *)
#[warnings="-register-all"]
Inductive represents (nodes : list measure_node_t)
  : option node_ptr → tree → Prop :=
  | represents_node parent p l v kids :
      nodes !! p = Some {| m_label := l; m_value := v; m_parent := parent;
                           m_children := map tree_ptr kids |} →
      Forall (represents nodes (Some p)) kids →
      represents nodes parent (Node p l v kids).

(** Nodes are allocated after their parents. *)
Definition ordered (nodes : list measure_node_t) : Prop :=
  ∀ p n q, nodes !! p = Some n → m_parent n = Some q → q < p.

(** The labels on the way from the root to a node, the root's first. *)
Inductive chain (nodes : list measure_node_t)
  : node_ptr → list Stored → Prop :=
  | chain_root p n :
      nodes !! p = Some n → m_parent n = None → chain nodes p [m_label n]
  | chain_step p n q path :
      nodes !! p = Some n → m_parent n = Some q → chain nodes q path →
      chain nodes p (path ++ [m_label n]).

Lemma chain_length nodes p path :
  ordered nodes → chain nodes p path → length path ≤ S p.
Proof.
  intros Hord. induction 1 as [p n Hp Hpar|p n q path Hp Hpar _ IH].
  - simpl. lia.
  - rewrite length_app. simpl. pose proof (Hord _ _ _ Hp Hpar). lia.
Qed.

Lemma chain_nonempty nodes p path : chain nodes p path → path ≠ [].
Proof. destruct 1; [discriminate|]. destruct path; discriminate. Qed.

(** Text. *)
Lemma append_assoc (a b c : string) : (a +:+ b) +:+ c = a +:+ (b +:+ c).
Proof.
  induction a as [|x a IH]; [reflexivity|].
  change (String x ((a +:+ b) +:+ c) = String x (a +:+ (b +:+ c))).
  rewrite IH. reflexivity.
Qed.

Lemma append_empty_r (a : string) : a +:+ "" = a.
Proof.
  induction a as [|x a IH]; [reflexivity|].
  change (String x (a +:+ "") = String x a).
  rewrite IH. reflexivity.
Qed.

(** [parts] with [sep] between them. *)
Fixpoint join (sep : string) (parts : list string) : string :=
  match parts with
  | [] => ""
  | [x] => x
  | x :: parts => x +:+ sep +:+ join sep parts
  end.

Lemma join_snoc sep parts x :
  parts ≠ [] → join sep (parts ++ [x]) = join sep parts +:+ sep +:+ x.
Proof.
  induction parts as [|y parts IH]; intros Hne; [congruence|].
  destruct parts as [|z parts]; [reflexivity|].
  change (join sep ((y :: z :: parts) ++ [x]))
    with (y +:+ sep +:+ join sep ((z :: parts) ++ [x])).
  rewrite IH by discriminate.
  change (join sep (y :: z :: parts)) with (y +:+ sep +:+ join sep (z :: parts)).
  rewrite !append_assoc. reflexivity.
Qed.

Fixpoint concat_text (parts : list string) : string :=
  match parts with
  | [] => ""
  | x :: parts => x +:+ concat_text parts
  end.

Lemma concat_text_app a b :
  concat_text (a ++ b) = concat_text a +:+ concat_text b.
Proof.
  induction a as [|x a IH]; simpl; [reflexivity|].
  rewrite IH, append_assoc. reflexivity.
Qed.

Section Collapsed.

Variable st : State.
Variable l_out : LabelType → string.
Variable m_out : MeasureType → string.

(** The text of a label as it leaves the recorder. *)
Definition label_text (l : Stored) : string := l_out (restore st l).

(** What [print_stack] writes for a node: the labels from the root down
    to the node, with [;] between them. *)
Definition stack_text (path : list Stored) : string :=
  join ";" (map label_text path).

Lemma print_stack_chain nodes p path :
  chain nodes p path → ∀ fuel os, length path ≤ fuel →
  print_stack fuel st nodes l_out p os = Ok (os +:+ stack_text path).
Proof.
  induction 1 as [p n Hp Hpar|p n q path Hp Hpar Hq IH]; intros fuel os Hfuel.
  - destruct fuel as [|fuel]; [simpl in Hfuel; lia|].
    cbn [print_stack]. rewrite (deref_Some _ _ _ Hp).
    cbn [mbind result_bind]. rewrite Hpar. reflexivity.
  - rewrite length_app in Hfuel. simpl in Hfuel.
    destruct fuel as [|fuel]; [lia|].
    cbn [print_stack]. rewrite (deref_Some _ _ _ Hp).
    cbn [mbind result_bind]. rewrite Hpar.
    rewrite IH by lia. cbn [mbind result_bind].
    unfold stack_text. rewrite map_app. cbn [map].
    rewrite join_snoc.
    + fold (label_text (m_label n)). rewrite !append_assoc. reflexivity.
    + pose proof (chain_nonempty _ _ _ Hq) as Hne.
      destruct path; [congruence|discriminate].
Qed.

(** The lines of the collapsed stacks of a tree below the path [prefix]:
    the line of the root, then the lines of each child's tree in turn.  A
    line is the path to its node and the node's measure. *)
Fixpoint tree_lines (prefix : list Stored) (t : tree)
  : list (list Stored * MeasureType) :=
  match t with
  | Node _ l v kids =>
      (prefix ++ [l], v) :: flat_map (tree_lines (prefix ++ [l])) kids
  end.

(** A line as text: the path, a space, the measure, a newline. *)
Definition line_text (line : list Stored * MeasureType) : string :=
  stack_text line.1 +:+ " " +:+ m_out line.2 +:+ newline.

Definition lines_text (lines : list (list Stored * MeasureType)) : string :=
  concat_text (map line_text lines).

Lemma to_collapsed_stack_tree nodes :
  ordered nodes →
  ∀ t parent prefix fuel os,
    represents nodes parent t →
    (parent = None ∧ prefix = [] ∨
     ∃ q, parent = Some q ∧ chain nodes q prefix) →
    length nodes - tree_ptr t ≤ fuel →
    to_collapsed_stack fuel st nodes l_out m_out (tree_ptr t) os
      = Ok (os +:+ lines_text (tree_lines prefix t)).
Proof.
  intros Hord t. induction t as [p l v kids IH] using tree_ind_kids.
  intros parent prefix fuel os Hrep Hpre Hfuel.
  inversion Hrep as [parent' p' l' v' kids' Hp Hkids]; subst.
  cbn [tree_ptr] in *.
  pose proof (lookup_lt_Some _ _ _ Hp) as Hlt.
  destruct fuel as [|fuel]; [lia|].
  assert (Hchain : chain nodes p (prefix ++ [l])).
  { destruct Hpre as [[-> ->]|(q & -> & Hq)].
    - apply (chain_root nodes p _ Hp). reflexivity.
    - apply (chain_step nodes p _ q prefix Hp); [reflexivity|exact Hq]. }
  cbn [to_collapsed_stack].
  rewrite (print_stack_chain nodes p _ Hchain)
    by (pose proof (chain_length _ _ _ Hord Hchain); lia).
  cbn [mbind result_bind]. rewrite (deref_Some _ _ _ Hp).
  cbn [mbind result_bind m_value m_children tree_lines].
  unfold lines_text. cbn [map concat_text].
  assert (Hloop : ∀ os,
    for_each
      (λ os child, to_collapsed_stack fuel st nodes l_out m_out child os)
      (map tree_ptr kids) os
    = Ok (os +:+ concat_text
                   (map line_text (flat_map (tree_lines (prefix ++ [l])) kids)))).
  { clear Hp Hrep. induction kids as [|k kids IHkids]; intros os'.
    - cbn. rewrite append_empty_r. reflexivity.
    - apply Forall_cons in IH as [IHk IH].
      apply Forall_cons in Hkids as [Hk Hkids].
      cbn [map for_each flat_map].
      assert (Hkp : p < tree_ptr k).
      { inversion Hk as [? pk lk vk kk Hpk _]; subst. cbn.
        apply (Hord _ _ _ Hpk). reflexivity. }
      rewrite (IHk (Some p) (prefix ++ [l]) fuel os' Hk)
        by (eauto || lia).
      cbn [mbind result_bind]. rewrite (IHkids IH Hkids).
      rewrite map_app, concat_text_app, append_assoc. reflexivity. }
  rewrite Hloop. unfold line_text. cbn [fst snd].
  rewrite !append_assoc. reflexivity.
Qed.

End Collapsed.

(** The nodes of a tree in pre-order, each with its label and measure. *)
Fixpoint preorder (t : tree) : list (Stored * MeasureType) :=
  match t with
  | Node _ l v kids => (l, v) :: flat_map preorder kids
  end.

Lemma tree_lines_preorder t : ∀ prefix,
  map (λ line, (last line.1, line.2)) (tree_lines prefix t)
    = map (λ n, (Some n.1, n.2)) (preorder t).
Proof.
  induction t as [p l v kids IH] using tree_ind_kids. intros prefix.
  cbn [tree_lines preorder map fst snd]. rewrite last_snoc. f_equal.
  induction kids as [|k kids IHkids]; [reflexivity|].
  apply Forall_cons in IH as [IHk IH].
  cbn [flat_map]. rewrite !map_app, IHk, (IHkids IH). reflexivity.
Qed.

(** Every reachable recorder holds a tree, allocated parents first. *)
Lemma inv_ordered r : inv r → ordered (m_nodes r).
Proof. intros Hinv p n q Hp Hq. eapply inv_parent; eassumption. Qed.

Lemma inv_subtree r : inv r → ∀ k p n,
  m_nodes r !! p = Some n → length (m_nodes r) - p ≤ k →
  ∃ t, represents (m_nodes r) (m_parent n) t ∧ tree_ptr t = p.
Proof.
  intros Hinv. induction k as [|k IH]; intros p n Hp Hk.
  - apply lookup_lt_Some in Hp. lia.
  - assert (Hkids : ∀ cs, (∀ c, c ∈ cs → c ∈ m_children n) →
              ∃ kids, map tree_ptr kids = cs ∧
                      Forall (represents (m_nodes r) (Some p)) kids).
    { induction cs as [|c cs IHcs]; intros Hcs.
      - exists []. split; [reflexivity|constructor].
      - destruct (inv_children r Hinv p n c Hp) as (cn & Hcn & Hpar);
          [apply Hcs; left|].
        destruct (inv_parent r Hinv c cn p Hcn Hpar) as [Hlt _].
        destruct (IH c cn Hcn) as (tc & Hrep & Hptr); [lia|].
        destruct IHcs as (kids & Hmap & Hall);
          [intros c' Hc'; apply Hcs; right; exact Hc'|].
        exists (tc :: kids). split; [cbn; congruence|].
        constructor; [congruence|exact Hall]. }
    destruct (Hkids (m_children n)) as (kids & Hmap & Hall); [auto|].
    exists (Node p (m_label n) (m_value n) kids). split; [|reflexivity].
    constructor; [|exact Hall]. rewrite Hmap, Hp. destruct n; reflexivity.
Qed.

Lemma reachable_tree r :
  reachable r →
  ordered (m_nodes r) ∧
  ∃ t, represents (m_nodes r) None t ∧ tree_ptr t = m_root r.
Proof.
  intros Hreach. pose proof (reachable_inv r Hreach) as Hinv.
  split; [apply inv_ordered, Hinv|].
  destruct (inv_root r Hinv) as (n & Hn & Hpar).
  destruct (inv_subtree r Hinv (length (m_nodes r)) (m_root r) n Hn)
    as (t & Hrep & Hptr); [lia|].
  exists t. rewrite Hpar in Hrep. auto.
Qed.

(** C3.  For a recorder whose store holds the tree [t] (as every
    reachable recorder's does), [to_collapsed_stacks] appends to the
    stream the lines of [t] and nothing else: a line per node of the
    tree, interior nodes too, in pre-order; the line of a node is the
    labels from the root down to the node, each written by [l_out], with
    [;] between them, then a space, then the node's measure written by
    [m_out], then a newline. *)
Theorem collapsed_stack_lines :
  ∀ r t os l_out m_out,
    ordered (m_nodes r) →
    represents (m_nodes r) None t → tree_ptr t = m_root r →
    to_collapsed_stacks os l_out m_out r
      = Ok (os +:+ lines_text (m_label_helper r) l_out m_out (tree_lines [] t),
            set_running false r) ∧
    map (λ line, (last line.1, line.2)) (tree_lines [] t)
      = map (λ n, (Some n.1, n.2)) (preorder t) ∧
    ∀ line,
      line_text (m_label_helper r) l_out m_out line
        = join ";" (map (λ l, l_out (restore (m_label_helper r) l)) line.1)
          +:+ " " +:+ m_out line.2 +:+ newline.
Proof.
  intros r t os l_out m_out Hord Hrep Hroot. split; [|split].
  - unfold to_collapsed_stacks.
    cbn [set_running m_nodes m_label_helper m_root]. rewrite <- Hroot.
    rewrite (to_collapsed_stack_tree (m_label_helper r) l_out m_out
               (m_nodes r) Hord t None [] _ os Hrep) by (auto || lia).
    reflexivity.
  - apply tree_lines_preorder.
  - intros line. reflexivity.
Qed.

(** *** The self/total report of a tree *)

Section Report.

Variable op : MeasureType → MeasureType → MeasureType.

(** The total of a node: its measure combined with the totals of its
    children, in their order. *)
Fixpoint tree_total (t : tree) : MeasureType :=
  match t with
  | Node _ _ v kids => fold_left (λ acc k, op acc (tree_total k)) kids v
  end.

(** A visit of the report walk: a node's stored label, its own measure
    and its total. *)
Record visit : Type := {
  v_label : Stored;
  v_self : MeasureType;
  v_total : MeasureType
}.

(** The visits of the walk over a tree: post-order. *)
Fixpoint postorder (t : tree) : list visit :=
  match t with
  | Node _ l v kids =>
      flat_map postorder kids
      ++ [ {| v_label := l; v_self := v; v_total := tree_total t |} ]
  end.

(** The map after the visits [vs], from the map [rep]; [st] is the helper
    of the report. *)
Definition add_visits (st : State) (vs : list visit)
    (rep : gmap LabelType report_entry_t) : gmap LabelType report_entry_t :=
  fold_left
    (λ rep v, report_add op (restore st (v_label v)) (v_self v) (v_total v) rep)
    vs rep.

Lemma add_visits_app st vs1 vs2 rep :
  add_visits st (vs1 ++ vs2) rep = add_visits st vs2 (add_visits st vs1 rep).
Proof. apply fold_left_app. Qed.

Lemma to_report_node_tree nodes :
  ordered nodes →
  ∀ t parent fuel rep,
    represents nodes parent t →
    length nodes - tree_ptr t ≤ fuel →
    to_report_node fuel nodes op (tree_ptr t) rep
      = Ok (tree_total t,
            {| report := add_visits (m_helper rep) (postorder t) (report rep);
               m_helper := m_helper rep |}).
Proof.
  intros Hord t. induction t as [p l v kids IH] using tree_ind_kids.
  intros parent fuel rep Hrep Hfuel.
  inversion Hrep as [parent' p' l' v' kids' Hp Hkids]; subst.
  cbn [tree_ptr] in *.
  pose proof (lookup_lt_Some _ _ _ Hp) as Hlt.
  destruct fuel as [|fuel]; [lia|].
  cbn [to_report_node]. rewrite (deref_Some _ _ _ Hp).
  cbn [mbind result_bind m_value m_children m_label].
  assert (Hloop : ∀ acc rep0,
    for_each
      (λ '(total_, rep) child,
         '(t, rep) ← to_report_node fuel nodes op child rep;
         Ok (op total_ t, rep))
      (map tree_ptr kids) (acc, rep0)
    = Ok (fold_left (λ acc k, op acc (tree_total k)) kids acc,
          {| report := add_visits (m_helper rep0) (flat_map postorder kids)
                         (report rep0);
             m_helper := m_helper rep0 |})).
  { clear Hp Hrep. induction kids as [|k kids IHkids]; intros acc rep0.
    - cbn. destruct rep0; reflexivity.
    - apply Forall_cons in IH as [IHk IH].
      apply Forall_cons in Hkids as [Hk Hkids].
      cbn [map for_each flat_map fold_left].
      assert (Hkp : p < tree_ptr k).
      { inversion Hk as [? pk lk vk kk Hpk _]; subst. cbn.
        apply (Hord _ _ _ Hpk). reflexivity. }
      rewrite (IHk (Some p) fuel rep0 Hk) by lia.
      cbn [mbind result_bind]. rewrite (IHkids IH Hkids).
      cbn [m_helper report]. rewrite add_visits_app. reflexivity. }
  rewrite Hloop. cbn [mbind result_bind m_helper report postorder].
  rewrite add_visits_app. reflexivity.
Qed.

(** An entry after one more visit of its label. *)
Definition merge_visit (o : option report_entry_t) (v : visit)
  : option report_entry_t :=
  match o with
  | Some it =>
      Some {| self := op (self it) (v_self v);
              total := op (total it) (v_total v) |}
  | None => Some {| self := v_self v; total := v_total v |}
  end.

(** The visits of the label [x]. *)
Definition visits_of (st : State) (x : LabelType) (vs : list visit)
  : list visit :=
  filter (λ v, restore st (v_label v) = x) vs.

Lemma add_visits_lookup st x vs : ∀ rep,
  add_visits st vs rep !! x
    = fold_left merge_visit (visits_of st x vs) (rep !! x).
Proof.
  induction vs as [|v vs IH]; intros rep; [reflexivity|].
  change (add_visits st (v :: vs) rep)
    with (add_visits st vs
            (report_add op (restore st (v_label v)) (v_self v) (v_total v) rep)).
  rewrite IH. unfold visits_of. rewrite filter_cons.
  unfold report_add. case_decide as Hx.
  - cbn [fold_left]. f_equal. subst x.
    destruct (rep !! restore st (v_label v)) as [it|] eqn:Hit;
      cbn [merge_visit]; apply lookup_insert_eq.
  - f_equal.
    destruct (rep !! restore st (v_label v)) as [it|];
      apply lookup_insert_ne; exact Hx.
Qed.

(** The private [to_report] returns the total of the tree and adds the
    visits of the tree to the map, whatever tree the store holds at the
    node. *)
Lemma to_report_tree r t :
  ordered (m_nodes r) →
  represents (m_nodes r) None t → tree_ptr t = m_root r →
  to_report op r
    = Ok ({| report := add_visits (helper_copy (m_label_helper r))
                         (postorder t) ∅;
             m_helper := helper_copy (m_label_helper r) |},
          set_running false r).
Proof.
  intros Hord Hrep Hroot. unfold to_report.
  cbn [set_running m_nodes m_label_helper m_root]. rewrite <- Hroot.
  rewrite (to_report_node_tree (m_nodes r) Hord t None _ _ Hrep) by lia.
  reflexivity.
Qed.

End Report.

(** *** Label paths *)

(** A step that keeps every node in its place with its label and its
    parent keeps the paths. *)
Lemma chain_kept (nodes nodes' : list measure_node_t) p path :
  (∀ q n, nodes !! q = Some n →
     ∃ n', nodes' !! q = Some n' ∧ m_label n' = m_label n ∧
           m_parent n' = m_parent n) →
  chain nodes p path → chain nodes' p path.
Proof.
  intros Hkeep. induction 1 as [p n Hp Hpar|p n q path Hp Hpar _ IH].
  - destruct (Hkeep p n Hp) as (n' & Hp' & <- & Hpar').
    apply (chain_root nodes' p n' Hp'). congruence.
  - destruct (Hkeep p n Hp) as (n' & Hp' & <- & Hpar').
    apply (chain_step nodes' p n' q path Hp'); [congruence|exact IH].
Qed.

Lemma chain_functional (nodes : list measure_node_t) p path1 path2 :
  chain nodes p path1 → chain nodes p path2 → path1 = path2.
Proof.
  intros H1. revert path2.
  induction H1 as [p n Hp Hpar|p n q path Hp Hpar _ IH]; intros path2 H2.
  - destruct H2 as [p m Hm Hparm|p m q' path' Hm Hparm _]; congruence.
  - destruct H2 as [p m Hm Hparm|p m q' path' Hm Hparm Hq']; [congruence|].
    assert (m = n) as -> by congruence. assert (q' = q) as -> by congruence.
    rewrite (IH path' Hq'). reflexivity.
Qed.

(** Every node of a recorder has a path, no longer than the store. *)
Lemma inv_chain r : inv r → ∀ p n,
  m_nodes r !! p = Some n → ∃ path, chain (m_nodes r) p path.
Proof.
  intros Hinv p. induction (lt_wf p) as [p _ IH]. intros n Hp.
  destruct (m_parent n) as [q|] eqn:Hpar.
  - destruct (inv_parent r Hinv p n q Hp Hpar) as (Hlt & qn & Hq & _).
    destruct (IH q Hlt qn Hq) as [path Hpath].
    exists (path ++ [m_label n]). eapply chain_step; eassumption.
  - exists [m_label n]. apply (chain_root _ p n Hp Hpar).
Qed.

(** The labels of a path as the caller gave them. *)
Definition label_path (st : State) (path : list Stored) : list LabelType :=
  map (restore st) path.

(** Two nodes with the same labels on their paths are the same node. *)
Lemma paths_injective r :
  inv r → ∀ p path_p, chain (m_nodes r) p path_p →
  ∀ q path_q, chain (m_nodes r) q path_q →
  label_path (m_label_helper r) path_p = label_path (m_label_helper r) path_q →
  p = q.
Proof.
  intros Hinv p path_p Hp. unfold label_path.
  induction Hp as [p n Hn Hpar|p n pp path Hn Hpar Hpp IH];
    intros q path_q Hq Hsame.
  - destruct Hq as [q m Hm Hparm|q m qq path' Hm Hparm Hqq].
    + rewrite (inv_orphan r Hinv p n Hn Hpar), (inv_orphan r Hinv q m Hm Hparm).
      reflexivity.
    + exfalso. pose proof (chain_nonempty _ _ _ Hqq) as Hne.
      apply (f_equal length) in Hsame.
      rewrite !length_map, length_app in Hsame. cbn in Hsame.
      destruct path'; [congruence|cbn in Hsame; lia].
  - destruct Hq as [q m Hm Hparm|q m qq path' Hm Hparm Hqq].
    + exfalso. pose proof (chain_nonempty _ _ _ Hpp) as Hne.
      apply (f_equal length) in Hsame.
      rewrite !length_map, length_app in Hsame. cbn in Hsame.
      destruct path; [congruence|cbn in Hsame; lia].
    + rewrite !map_app in Hsame. cbn [map] in Hsame.
      apply app_inj_tail in Hsame as [Hpre Hlast].
      pose proof (IH qq path' Hqq Hpre) as <-.
      destruct (inv_parent r Hinv p n pp Hn Hpar) as (_ & pn & Hpn & Hpin).
      destruct (inv_parent r Hinv q m pp Hm Hparm) as (_ & pn' & Hpn' & Hqin).
      assert (pn' = pn) as -> by congruence.
      apply list_elem_of_lookup in Hpin as [i Hi].
      apply list_elem_of_lookup in Hqin as [j Hj].
      pose proof (inv_distinct r Hinv pp pn i j p q n m Hpn Hi Hj Hn Hm Hlast)
        as ->.
      congruence.
Qed.

(** *** The nodes of a tree *)

(** A node above another: the second reaches the first by following
    [m_parent]. *)
Inductive ancestor (nodes : list measure_node_t) (a : node_ptr)
  : node_ptr → Prop :=
  | ancestor_self : ancestor nodes a a
  | ancestor_up x n q :
      nodes !! x = Some n → m_parent n = Some q → ancestor nodes a q →
      ancestor nodes a x.

Lemma ancestor_le nodes a x : ordered nodes → ancestor nodes a x → a ≤ x.
Proof.
  intros Hord. induction 1 as [|x n q Hx Hpar _ IH]; [lia|].
  pose proof (Hord x n q Hx Hpar). lia.
Qed.

Lemma ancestor_parent nodes p c n x :
  nodes !! c = Some n → m_parent n = Some p →
  ancestor nodes c x → ancestor nodes p x.
Proof.
  intros Hc Hpar. induction 1 as [|x m q Hx Hparx _ IH].
  - apply (ancestor_up nodes p c n p Hc Hpar). constructor.
  - apply (ancestor_up nodes p x m q Hx Hparx IH).
Qed.

(** The nodes above a node form a chain. *)
Lemma ancestor_linear nodes a b x :
  ordered nodes → ancestor nodes a x → ancestor nodes b x → a ≤ b →
  ancestor nodes a b.
Proof.
  intros Hord Ha Hb. revert Ha.
  induction Hb as [|x n q Hx Hpar Hbq IH]; intros Ha Hle; [exact Ha|].
  destruct Ha as [|x m q' Hx' Hpar' Haq].
  - pose proof (ancestor_le _ _ _ Hord Hbq). pose proof (Hord _ _ _ Hx Hpar). lia.
  - assert (q' = q) as -> by congruence. apply IH; assumption.
Qed.

Lemma inv_below_root r : inv r → ∀ p n,
  m_nodes r !! p = Some n → ancestor (m_nodes r) (m_root r) p.
Proof.
  intros Hinv p. induction (lt_wf p) as [p _ IH]. intros n Hp.
  destruct (m_parent n) as [q|] eqn:Hpar.
  - destruct (inv_parent r Hinv p n q Hp Hpar) as (Hlt & qn & Hq & _).
    apply (ancestor_up _ _ p n q Hp Hpar). apply (IH q Hlt qn Hq).
  - rewrite (inv_orphan r Hinv p n Hp Hpar). constructor.
Qed.

Lemma inv_children_NoDup r p n :
  inv r → m_nodes r !! p = Some n → NoDup (m_children n).
Proof.
  intros Hinv Hp. apply NoDup_alt. intros i j c Hi Hj.
  destruct (inv_children r Hinv p n c Hp) as (cn & Hcn & _).
  { apply list_elem_of_lookup. eauto. }
  apply (inv_distinct r Hinv p n i j c c cn cn Hp Hi Hj Hcn Hcn). reflexivity.
Qed.

(** The subtrees of a tree and their pointers, in pre-order. *)
Fixpoint subtrees (t : tree) : list tree :=
  match t with
  | Node _ _ _ kids => t :: flat_map subtrees kids
  end.

Definition tree_ptrs (t : tree) : list node_ptr := map tree_ptr (subtrees t).

Lemma tree_ptrs_node p l v kids :
  tree_ptrs (Node p l v kids) = p :: flat_map tree_ptrs kids.
Proof.
  unfold tree_ptrs. cbn [subtrees map tree_ptr]. f_equal.
  induction kids as [|k kids IH]; [reflexivity|].
  cbn [flat_map]. rewrite map_app, IH. reflexivity.
Qed.

Lemma represents_subtrees nodes : ∀ t parent,
  represents nodes parent t →
  Forall (λ s, ∃ parent', represents nodes parent' s) (subtrees t).
Proof.
  intros t. induction t as [p l v kids IH] using tree_ind_kids.
  intros parent Hrep. cbn [subtrees]. constructor; [eauto|].
  inversion Hrep as [parent' p' l' v' kids' _ Hkids]; subst.
  clear Hrep. induction kids as [|k kids IHkids]; [constructor|].
  apply Forall_cons in IH as [IHk IH]. apply Forall_cons in Hkids as [Hk Hkids].
  cbn [flat_map]. apply Forall_app. split; [eapply IHk, Hk|].
  apply IHkids; assumption.
Qed.

(** The pointers of a tree are below its root. *)
Lemma tree_ptrs_below nodes : ∀ t parent x,
  represents nodes parent t → x ∈ tree_ptrs t →
  ancestor nodes (tree_ptr t) x.
Proof.
  intros t. induction t as [p l v kids IH] using tree_ind_kids.
  intros parent x Hrep Hx. rewrite tree_ptrs_node in Hx. cbn [tree_ptr].
  apply elem_of_cons in Hx as [->|Hx]; [constructor|].
  inversion Hrep as [parent' p' l' v' kids' _ Hkids]; subst.
  apply list_elem_of_In, in_flat_map in Hx as (k & Hk & Hx).
  apply list_elem_of_In in Hk, Hx.
  rewrite Forall_forall in IH, Hkids.
  pose proof (IH k Hk (Some p) x (Hkids k Hk) Hx) as Hbelow.
  pose proof (Hkids k Hk) as Hrepk.
  inversion Hrepk as [parent' pk lk vk kk Hpk _]; subst. cbn [tree_ptr] in *.
  eapply ancestor_parent; [exact Hpk|reflexivity|exact Hbelow].
Qed.

(** In the tree of a recorder no pointer occurs twice. *)
Lemma tree_ptrs_NoDup r : inv r → ∀ t parent,
  represents (m_nodes r) parent t → NoDup (tree_ptrs t).
Proof.
  intros Hinv. pose proof (inv_ordered r Hinv) as Hord.
  intros t. induction t as [p l v kids IH] using tree_ind_kids.
  intros parent Hrep. rewrite tree_ptrs_node.
  inversion Hrep as [parent' p' l' v' kids' Hp Hkids]; subst.
  pose proof (inv_children_NoDup r p _ Hinv Hp) as Hnd. cbn [m_children] in Hnd.
  assert (Hkid : ∀ k, k ∈ kids →
            ∃ kn, m_nodes r !! tree_ptr k = Some kn ∧ m_parent kn = Some p).
  { intros k Hk. rewrite Forall_forall in Hkids.
    pose proof (Hkids k Hk) as Hrepk.
    inversion Hrepk as [parent' pk lk vk kk Hpk _]; subst. eauto. }
  constructor.
  - intros Hin. apply list_elem_of_In, in_flat_map in Hin as (k & Hk & Hx).
    apply list_elem_of_In in Hk, Hx. rewrite Forall_forall in Hkids.
    pose proof (tree_ptrs_below _ k (Some p) p (Hkids k Hk) Hx) as Hbelow.
    apply (ancestor_le _ _ _ Hord) in Hbelow.
    destruct (Hkid k Hk) as (kn & Hkn & Hpar).
    pose proof (Hord _ _ _ Hkn Hpar). lia.
  - clear Hp Hrep. induction kids as [|k kids IHkids]; [constructor|].
    apply Forall_cons in IH as [IHk IH].
    pose proof Hkids as Hkids0. apply Forall_cons in Hkids as [Hk Hkids].
    cbn [map] in Hnd. apply NoDup_cons in Hnd as [Hfirst Hnd].
    cbn [flat_map]. apply NoDup_app. split; [eapply IHk, Hk|].
    split; [|apply IHkids; try assumption;
             intros k' Hk'; apply Hkid; right; exact Hk'].
    intros x Hx Hx'. apply list_elem_of_In, in_flat_map in Hx' as (k' & Hk' & Hx').
    apply list_elem_of_In in Hk', Hx'. rewrite Forall_forall in Hkids.
    pose proof (tree_ptrs_below _ k (Some p) x Hk Hx) as Hb.
    pose proof (tree_ptrs_below _ k' (Some p) x (Hkids k' Hk') Hx') as Hb'.
    destruct (Hkid k) as (kn & Hkn & Hpar); [left|].
    destruct (Hkid k') as (kn' & Hkn' & Hpar'); [right; exact Hk'|].
    assert (Hne : tree_ptr k ≠ tree_ptr k').
    { intros Heq. apply Hfirst. rewrite Heq.
      apply list_elem_of_In, in_map, list_elem_of_In, Hk'. }
    assert (Hup : ∀ a b an bn,
              m_nodes r !! a = Some an → m_parent an = Some p →
              m_nodes r !! b = Some bn → m_parent bn = Some p →
              ancestor (m_nodes r) a x → ancestor (m_nodes r) b x → a ≤ b →
              a = b).
    { intros a b an bn Ha Hpa Hbn Hpb Hax Hbx Hle.
      pose proof (ancestor_linear _ a b x Hord Hax Hbx Hle) as Hab.
      destruct Hab as [|b m q Hb0 Hparb Haq]; [reflexivity|].
      assert (q = p) as -> by congruence.
      apply (ancestor_le _ _ _ Hord) in Haq.
      pose proof (Hord _ _ _ Ha Hpa). lia. }
    destruct (Nat.le_ge_cases (tree_ptr k) (tree_ptr k')) as [Hle|Hle].
    + apply Hne. eapply (Hup (tree_ptr k) (tree_ptr k')); eassumption.
    + apply Hne. symmetry.
      eapply (Hup (tree_ptr k') (tree_ptr k)); eassumption.
Qed.

(** Every pointer below the root of a tree is a pointer of the tree. *)
Lemma below_tree_ptrs r : inv r → ∀ t parent x n,
  represents (m_nodes r) parent t →
  m_nodes r !! x = Some n → ancestor (m_nodes r) (tree_ptr t) x →
  x ∈ tree_ptrs t.
Proof.
  intros Hinv t parent x n Hrep Hx Hbelow. revert n Hx.
  induction Hbelow as [|x m q Hxm Hpar _ IH]; intros n Hx.
  - destruct t as [p l v kids]. rewrite tree_ptrs_node. left.
  - destruct (inv_parent r Hinv x m q Hxm Hpar) as (_ & qn & Hq & Hin).
    specialize (IH qn Hq). unfold tree_ptrs in IH.
    apply list_elem_of_In, in_map_iff in IH as (s & Hs & Hin').
    apply list_elem_of_In in Hin'.
    pose proof (represents_subtrees _ t parent Hrep) as Hall.
    rewrite Forall_forall in Hall. destruct (Hall s Hin') as [ps Hreps].
    inversion Hreps as [parent' p' l' v' kids' Hp' Hkids']; subst.
    cbn [tree_ptr] in Hq. rewrite Hq in Hp'. injection Hp' as ->.
    cbn [m_children] in Hin.
    apply list_elem_of_In, in_map_iff in Hin as (k & Hk & Hkin).
    apply list_elem_of_In in Hkin.
    assert (Hsub : ∀ s' t', s' ∈ subtrees t' → ∀ u, u ∈ subtrees s' → u ∈ subtrees t').
    { clear. intros s' t'. revert s'.
      induction t' as [p l v kids IH] using tree_ind_kids. intros s' Hs' u Hu.
      cbn [subtrees] in Hs'. apply elem_of_cons in Hs' as [->|Hs']; [exact Hu|].
      cbn [subtrees]. right.
      apply list_elem_of_In, in_flat_map in Hs' as (k & Hk & Hs').
      apply list_elem_of_In in Hk, Hs'. rewrite Forall_forall in IH.
      apply list_elem_of_In, in_flat_map. exists k.
      split; [apply list_elem_of_In, Hk|].
      apply list_elem_of_In. eapply IH; eassumption. }
    unfold tree_ptrs. apply list_elem_of_In, in_map_iff. exists k.
    split; [exact Hk|]. apply list_elem_of_In.
    apply (Hsub _ t Hin' k). cbn [subtrees]. right.
    apply list_elem_of_In, in_flat_map. exists k.
    split; [apply list_elem_of_In, Hkin|].
    destruct k; cbn [subtrees]. left. reflexivity.
Qed.

(** *** The destructor *)

(** [delete p] on the set of the nodes released so far. *)
Definition delete_ptr (p : node_ptr) (freed : gset nat) : result (gset nat) :=
  if decide (p ∈ freed) then Err DoubleFree else Ok ({[p]} ∪ freed).

(** [*p] when some nodes have been released. *)
Definition deref_live (nodes : list measure_node_t) (freed : gset nat)
    (p : node_ptr) : result measure_node_t :=
  if decide (p ∈ freed) then Err WildPointer else deref nodes p.

(** [delete_node]; the recursion follows [m_children], [fuel] bounds its
    depth. *)
Fixpoint delete_node (fuel : nat) (nodes : list measure_node_t)
    (node : node_ptr) (freed : gset nat) : result (gset nat) :=
  match fuel with
  | 0 => Err Diverges
  | S fuel =>
      n ← deref_live nodes freed node;
      freed ←
        for_each (λ freed child, delete_node fuel nodes child freed)
          (m_children n) freed;
      delete_ptr node freed
  end.

(** [~recorder_t()]: the nodes it releases. *)
Definition recorder_delete (r : recorder_t) : result (gset nat) :=
  let r := set_running true r in
  delete_node (length (m_nodes r)) (m_nodes r) (m_root r) ∅.

Lemma delete_node_tree nodes :
  ordered nodes →
  ∀ t parent fuel freed,
    represents nodes parent t → NoDup (tree_ptrs t) →
    (∀ x, x ∈ tree_ptrs t → x ∉ freed) →
    length nodes - tree_ptr t ≤ fuel →
    delete_node fuel nodes (tree_ptr t) freed
      = Ok (list_to_set (tree_ptrs t) ∪ freed).
Proof.
  intros Hord t. induction t as [p l v kids IH] using tree_ind_kids.
  intros parent fuel freed Hrep Hnd Hfresh Hfuel.
  inversion Hrep as [parent' p' l' v' kids' Hp Hkids]; subst.
  cbn [tree_ptr] in *. rewrite tree_ptrs_node in Hnd, Hfresh |- *.
  pose proof (lookup_lt_Some _ _ _ Hp) as Hlt.
  destruct fuel as [|fuel]; [lia|].
  apply NoDup_cons in Hnd as [Hpkids Hnd].
  cbn [delete_node]. unfold deref_live.
  rewrite decide_False by (apply Hfresh; left).
  rewrite (deref_Some _ _ _ Hp). cbn [mbind result_bind m_children].
  assert (Hloop : ∀ freed0,
    (∀ x, x ∈ flat_map tree_ptrs kids → x ∉ freed0) →
    for_each (λ freed child, delete_node fuel nodes child freed)
      (map tree_ptr kids) freed0
    = Ok (list_to_set (flat_map tree_ptrs kids) ∪ freed0)).
  { clear Hp Hrep Hpkids Hfresh.
    induction kids as [|k kids IHkids]; intros freed0 Hfresh0.
    - cbn. rewrite (left_id_L ∅ (∪)). reflexivity.
    - apply Forall_cons in IH as [IHk IH].
      apply Forall_cons in Hkids as [Hk Hkids].
      cbn [flat_map] in Hnd, Hfresh0. apply NoDup_app in Hnd as (Hndk & Hdis & Hnd).
      cbn [map for_each flat_map].
      assert (Hkp : p < tree_ptr k).
      { inversion Hk as [? pk lk vk kk Hpk _]; subst. cbn.
        apply (Hord _ _ _ Hpk). reflexivity. }
      rewrite (IHk (Some p) fuel freed0 Hk Hndk) by
        (try lia; intros x Hx; apply Hfresh0, elem_of_app; left; exact Hx).
      cbn [mbind result_bind]. rewrite (IHkids IH Hnd Hkids).
      + f_equal. rewrite list_to_set_app_L.
        rewrite (assoc_L (∪)).
        rewrite (comm_L (∪) (list_to_set (flat_map tree_ptrs kids))).
        reflexivity.
      + intros x Hx. apply not_elem_of_union. split.
        * rewrite elem_of_list_to_set. intros Hxk. exact (Hdis x Hxk Hx).
        * apply Hfresh0, elem_of_app. right. exact Hx. }
  rewrite Hloop by (intros x Hx; apply Hfresh; right; exact Hx).
  cbn [mbind result_bind]. unfold delete_ptr.
  rewrite decide_False.
  - f_equal. cbn [list_to_set]. rewrite (assoc_L (∪)). reflexivity.
  - apply not_elem_of_union. split.
    + rewrite elem_of_list_to_set. exact Hpkids.
    + apply Hfresh. left.
Qed.

(** The destructor of a reachable recorder releases every node of the
    store, each once: no node is left allocated, none is released twice
    and none is read after its release. *)
Theorem destructor_releases_every_node r :
  reachable r →
  ∃ freed, recorder_delete r = Ok freed ∧
    ∀ p, p ∈ freed ↔ p < length (m_nodes r).
Proof.
  intros Hreach. pose proof (reachable_inv r Hreach) as Hinv.
  pose proof (inv_ordered r Hinv) as Hord.
  destruct (inv_root r Hinv) as (n & Hn & Hpar).
  destruct (inv_subtree r Hinv (length (m_nodes r)) (m_root r) n Hn)
    as (t & Hrep & Hptr); [lia|].
  exists (list_to_set (tree_ptrs t) ∪ ∅). split.
  - unfold recorder_delete. cbn [set_running m_nodes m_root]. rewrite <- Hptr.
    apply (delete_node_tree _ Hord t (m_parent n)); [exact Hrep| | |lia].
    + eapply tree_ptrs_NoDup; eassumption.
    + intros x _. apply not_elem_of_empty.
  - intros p. rewrite elem_of_union, elem_of_list_to_set, elem_of_empty.
    split.
    + intros [Hp|[]]. unfold tree_ptrs in Hp.
      apply list_elem_of_In, in_map_iff in Hp as (s & <- & Hs).
      apply list_elem_of_In in Hs.
      pose proof (represents_subtrees _ t _ Hrep) as Hall.
      rewrite Forall_forall in Hall. destruct (Hall s Hs) as [ps Hreps].
      inversion Hreps as [parent' p' l' v' kids' Hp' _]; subst.
      cbn [tree_ptr]. eapply lookup_lt_Some, Hp'.
    + intros Hlt. left. destruct (lookup_lt_is_Some_2 _ _ Hlt) as [pn Hpn].
      apply (below_tree_ptrs r Hinv t (m_parent n) p pn Hrep Hpn).
      rewrite Hptr. eapply inv_below_root; eassumption.
Qed.

(** *** The stack of open scopes *)

(** The scoping interface on a stack of labels, the innermost scope
    first: [begin_scope] pushes its label; [end_scope] pops, and asserts
    that there is a scope to end and, when it names a label, that the
    innermost scope carries it. *)
Definition stack_call (c : scope_call) (s : list LabelType)
  : result (list LabelType) :=
  match c with
  | call_begin label _ => Ok (label :: s)
  | call_end =>
      match s with
      | [] => Err StackUnderflow
      | _ :: s => Ok s
      end
  | call_end_label label =>
      match s with
      | [] => Err StackUnderflow
      | top :: s => if decide (top = label) then Ok s else Err LabelMismatch
      end
  end.

Fixpoint stack_calls (cs : list scope_call) (s : list LabelType)
  : result (list LabelType) :=
  match cs with
  | [] => Ok s
  | c :: cs => s' ← stack_call c s; stack_calls cs s'
  end.

(** The open scopes of a recorder: the labels on the path of the current
    node, below the root's, the innermost first. *)
Definition open_scopes (r : recorder_t) (s : list LabelType) : Prop :=
  ∃ l0 rest,
    chain (m_nodes r) (m_current_node r) (l0 :: rest) ∧
    label_path (m_label_helper r) rest = rev s.

(** Calls whose labels, those of [end_scope] included, are labels of the
    caller's type. *)
Definition call_labels_ok (c : scope_call) : Prop :=
  match c with
  | call_begin label _ | call_end_label label => label_ok label
  | call_end => True
  end.

Lemma chain_labels (nodes : list measure_node_t) p path :
  chain nodes p path →
  Forall (λ l, ∃ q n, nodes !! q = Some n ∧ m_label n = l) path.
Proof.
  induction 1 as [p n Hp Hpar|p n q path Hp Hpar _ IH].
  - constructor; [eauto|constructor].
  - apply Forall_app. split; [exact IH|]. constructor; [eauto|constructor].
Qed.

(** The labels of a path restore as before after a step that keeps the
    stored labels. *)
Lemma label_path_kept r r' p path :
  inv r → chain (m_nodes r) p path →
  (∀ l, label_stored (m_label_helper r) l →
     restore (m_label_helper r') l = restore (m_label_helper r) l) →
  label_path (m_label_helper r') path = label_path (m_label_helper r) path.
Proof.
  intros Hinv Hchain Hkeep. unfold label_path. apply map_ext_in.
  intros l Hl. apply list_elem_of_In in Hl.
  pose proof (chain_labels _ _ _ Hchain) as Hall.
  rewrite Forall_forall in Hall. destruct (Hall l Hl) as (q & n & Hq & <-).
  apply Hkeep. eapply inv_labels; eassumption.
Qed.

Lemma chain_cons_split (nodes : list measure_node_t) q path l0 rest l :
  chain nodes q path → path ++ [l] = l0 :: rest →
  ∃ rest', path = l0 :: rest' ∧ rest = rest' ++ [l].
Proof.
  intros Hq Heq. pose proof (chain_nonempty _ _ _ Hq) as Hne.
  destruct path as [|l0' rest']; [congruence|].
  cbn in Heq. injection Heq as -> <-. eauto.
Qed.

Lemma open_scopes_root r s :
  inv r → open_scopes r s → m_current_node r = m_root r → s = [].
Proof.
  intros Hinv (l0 & rest & Hchain & Hpath) Hroot.
  destruct (inv_root r Hinv) as (n & Hn & Hpar). rewrite <- Hroot in Hn.
  pose proof (chain_functional _ _ _ _ Hchain (chain_root _ _ n Hn Hpar)) as Heq.
  injection Heq as _ ->. cbn in Hpath.
  destruct s as [|x s]; [reflexivity|].
  cbn in Hpath. destruct (rev s); discriminate.
Qed.

(** One call: the recorder follows the stack, fails where the stack
    fails, and else only in [save]. *)
Lemma open_scopes_call c r s :
  inv r → call_labels_ok c → open_scopes r s →
  match run_call c r with
  | Ok r' => inv r' ∧ ∃ s', stack_call c s = Ok s' ∧ open_scopes r' s'
  | Err e => stack_call c s = Err e ∨ ∃ x env st, save x env st = Err e
  end.
Proof.
  intros Hinv Hok Hopen. pose proof Hopen as (l0 & rest & Hchain & Hpath).
  assert (Hend : ∀ n, m_nodes r !! m_current_node r = Some n →
            match m_parent n with
            | None => s = []
            | Some q =>
                ∃ s0, s = restore (m_label_helper r) (m_label n) :: s0 ∧
                      inv (move_to q r) ∧ open_scopes (move_to q r) s0
            end).
  { intros n Hn. destruct (m_parent n) as [q|] eqn:Hpar.
    - destruct (inv_parent r Hinv _ n q Hn Hpar) as (_ & qn & Hq & _).
      destruct (inv_chain r Hinv q qn Hq) as [path Hq'].
      pose proof (chain_functional _ _ _ _ Hchain
                    (chain_step _ _ n q path Hn Hpar Hq')) as Heq.
      destruct (chain_cons_split _ _ _ _ _ _ Hq' (eq_sym Heq))
        as (rest' & -> & ->).
      unfold label_path in Hpath. rewrite map_app in Hpath. cbn [map] in Hpath.
      apply (f_equal (@rev _)) in Hpath.
      rewrite rev_involutive, rev_unit in Hpath.
      eexists. split; [symmetry; exact Hpath|].
      split; [apply move_to_valid_inv; eauto|].
      exists l0, rest'. split; [exact Hq'|].
      cbn. unfold label_path. rewrite rev_involutive. reflexivity.
    - apply (open_scopes_root r s Hinv Hopen).
      eapply inv_orphan; eassumption. }
  destruct (inv_current r Hinv) as [cur Hcur]. specialize (Hend cur Hcur).
  destruct c as [x env| |x]; cbn [run_call stack_call call_labels_ok] in *.
  - destruct (begin_scope x env r) as [r'|e] eqn:Hb.
    2:{ right. eexists _, _, _. eapply begin_scope_err; eassumption. }
    destruct (begin_scope_post x env r r' Hinv Hok Hb)
      as (Hinv' & Hext & cn & Hcn & Hpar & Hres).
    split; [exact Hinv'|]. exists (x :: s). split; [reflexivity|].
    exists l0, (rest ++ [m_label cn]). split.
    + change (l0 :: rest ++ [m_label cn]) with ((l0 :: rest) ++ [m_label cn]).
      apply (chain_step _ _ cn (m_current_node r) _ Hcn Hpar).
      apply (chain_kept (m_nodes r)); [|exact Hchain].
      intros q n Hq.
      destruct (ext_nodes r r' Hext q n Hq) as (n' & Hq' & Hl & _ & Hp). eauto.
    + assert (Hkept : label_path (m_label_helper r') (l0 :: rest)
                      = label_path (m_label_helper r) (l0 :: rest)).
      { apply (label_path_kept r r' _ _ Hinv Hchain).
        intros l Hl. apply (ext_labels r r' Hext l Hl). }
      unfold label_path in *. cbn [map] in Hkept. injection Hkept as _ Hkept.
      rewrite map_app, Hkept, Hpath. cbn [map rev]. rewrite Hres. reflexivity.
  - destruct (m_parent cur) as [q|] eqn:Hpar.
    + destruct (end_scope_child r cur q Hcur Hpar) as [-> _].
      destruct Hend as (s0 & -> & Hinv' & Hopen'). eauto.
    + subst s.
      assert (Hroot : m_current_node r = m_root r)
        by (eapply inv_orphan; eassumption).
      destruct (end_scope_root r Hinv Hroot) as [-> _]. left. reflexivity.
  - destruct (m_parent cur) as [q|] eqn:Hpar.
    + destruct (end_scope_child r cur q Hcur Hpar) as [_ ->].
      destruct Hend as (s0 & -> & Hinv' & Hopen').
      pose proof (equal_spec (m_label_helper r) (m_label cur) x
                    (inv_helper r Hinv) (inv_labels r Hinv _ _ Hcur) Hok) as Heq.
      destruct (equal (m_label_helper r) (m_label cur) x) eqn:Hequal;
        case_decide as Hx.
      * eauto.
      * exfalso. apply Hx, Heq. reflexivity.
      * exfalso. apply Heq in Hx. discriminate.
      * left. reflexivity.
    + subst s.
      assert (Hroot : m_current_node r = m_root r)
        by (eapply inv_orphan; eassumption).
      destruct (end_scope_root r Hinv Hroot) as [_ ->]. left. reflexivity.
Qed.

Lemma open_scopes_new default_value root_label env root_value r :
  recorder_new default_value root_label env root_value = Ok r →
  open_scopes r [].
Proof.
  unfold recorder_new.
  destruct (save root_label env helper_init) as [[l st]|e]; [|discriminate].
  cbn [mbind result_bind]. intros [= <-]. exists l, []. split; [|reflexivity].
  cbn.
  apply (chain_root _ 0 {| m_label := l; m_value := root_value;
                           m_parent := None; m_children := [] |});
    reflexivity.
Qed.

(** The recorder implements the stack of open scopes.  From a reachable
    recorder whose current node has the labels [s] on its path, a run of
    calls that returns leaves the current node on the path the calls make
    of [s] as pushes and pops; and a run fails where the stack underflows
    or an [end_scope] names a label that is not the innermost one, with
    that assert, and nowhere else but in the label helper's [save]. *)
Theorem recorder_refines_stack cs : ∀ r s,
  reachable r → Forall call_labels_ok cs → open_scopes r s →
  match run_calls cs r with
  | Ok r' => ∃ s', stack_calls cs s = Ok s' ∧ open_scopes r' s'
  | Err e => stack_calls cs s = Err e ∨ ∃ x env st, save x env st = Err e
  end.
Proof.
  intros r s Hreach. pose proof (reachable_inv r Hreach) as Hinv. clear Hreach.
  revert r s Hinv.
  induction cs as [|c cs IH]; intros r s Hinv Hok Hopen.
  - cbn. eauto.
  - apply Forall_cons in Hok as [Hc Hok].
    pose proof (open_scopes_call c r s Hinv Hc Hopen) as Hstep.
    cbn [run_calls stack_calls].
    destruct (run_call c r) as [r1|e]; cbn [mbind result_bind].
    + destruct Hstep as (Hinv1 & s1 & -> & Hopen1). cbn [mbind result_bind].
      apply (IH r1 s1 Hinv1 Hok Hopen1).
    + destruct Hstep as [->|Hsave]; [left; reflexivity|right; exact Hsave].
Qed.

(** *** The counters by call path *)

(** What a client does with a recorder: it calls the scoping interface,
    or it updates the current counter through the reference [cnt()]
    returns. *)
Inductive event : Type :=
  | ev_call (c : scope_call)
  | ev_update (f : MeasureType → MeasureType).

Definition run_event (e : event) (r : recorder_t) : result recorder_t :=
  match e with
  | ev_call c => run_call c r
  | ev_update f => v ← cnt_of r; Ok (cnt_write (f v) r)
  end.

Fixpoint run_events (es : list event) (r : recorder_t) : result recorder_t :=
  match es with
  | [] => Ok r
  | e :: es => r' ← run_event e r; run_events es r'
  end.

(** A profile: a counter for each stack of open scopes. *)
Definition profile : Type := list LabelType → MeasureType.

Definition profile_update (s : list LabelType)
    (f : MeasureType → MeasureType) (prof : profile) : profile :=
  λ k, if decide (k = s) then f (prof s) else prof k.

(** The events on a stack and a profile: an update changes the counter of
    the stack of open scopes. *)
Definition profile_event (e : event) (sp : list LabelType * profile)
  : result (list LabelType * profile) :=
  match e with
  | ev_call c => s' ← stack_call c sp.1; Ok (s', sp.2)
  | ev_update f => Ok (sp.1, profile_update sp.1 f sp.2)
  end.

Fixpoint profile_events (es : list event) (sp : list LabelType * profile)
  : result (list LabelType * profile) :=
  match es with
  | [] => Ok sp
  | e :: es => sp' ← profile_event e sp; profile_events es sp'
  end.

Definition event_labels_ok (e : event) : Prop :=
  match e with
  | ev_call c => call_labels_ok c
  | ev_update _ => True
  end.

(** The stack of scopes that is open when the node [p] is current. *)
Definition node_stack (r : recorder_t) (p : node_ptr) (k : list LabelType)
  : Prop :=
  ∃ l0 rest,
    chain (m_nodes r) p (l0 :: rest) ∧
    rev (label_path (m_label_helper r) rest) = k.

(** The recorder holds the profile: the measure of every node is the
    counter of the node's stack, and a stack without a node has the
    default measure. *)
Record holds_profile (r : recorder_t) (prof : profile) : Prop := {
  profile_nodes : ∀ p n k,
    m_nodes r !! p = Some n → node_stack r p k → m_value n = prof k;
  profile_default : ∀ k,
    (∀ p, ¬ node_stack r p k) → prof k = m_default_value r
}.

Lemma open_scopes_node_stack r s :
  open_scopes r s ↔ node_stack r (m_current_node r) s.
Proof.
  unfold open_scopes, node_stack. split; intros (l0 & rest & Hchain & Hpath);
    exists l0, rest; (split; [exact Hchain|]).
  - rewrite Hpath. apply rev_involutive.
  - rewrite <- Hpath. symmetry. apply rev_involutive.
Qed.

(** The first label of every path is the root's. *)
Lemma chain_head r p l0 rest :
  inv r → chain (m_nodes r) p (l0 :: rest) →
  ∃ n, m_nodes r !! m_root r = Some n ∧ m_label n = l0.
Proof.
  intros Hinv Hchain. remember (l0 :: rest) as path eqn:Hpath.
  revert rest Hpath.
  induction Hchain as [p n Hp Hpar|p n q path Hp Hpar Hq IH]; intros rest Hpath.
  - injection Hpath as <- _.
    rewrite (inv_orphan r Hinv p n Hp Hpar) in Hp. eauto.
  - destruct (chain_cons_split _ _ _ _ _ _ Hq Hpath) as (rest' & -> & _).
    apply (IH rest'). reflexivity.
Qed.

Lemma node_stack_functional r p k1 k2 :
  node_stack r p k1 → node_stack r p k2 → k1 = k2.
Proof.
  intros (l1 & rest1 & Hc1 & <-) (l2 & rest2 & Hc2 & <-).
  pose proof (chain_functional _ _ _ _ Hc1 Hc2) as Heq.
  injection Heq as _ ->. reflexivity.
Qed.

Lemma node_stack_inj r p q k :
  inv r → node_stack r p k → node_stack r q k → p = q.
Proof.
  intros Hinv (l1 & rest1 & Hc1 & Hk1) (l2 & rest2 & Hc2 & Hk2).
  apply (paths_injective r Hinv p _ Hc1 q _ Hc2).
  destruct (chain_head r p l1 rest1 Hinv Hc1) as (n1 & Hn1 & <-).
  destruct (chain_head r q l2 rest2 Hinv Hc2) as (n2 & Hn2 & <-).
  assert (n2 = n1) as -> by congruence.
  unfold label_path in *. cbn [map]. f_equal.
  rewrite <- (rev_involutive (map _ rest1)), <- (rev_involutive (map _ rest2)).
  congruence.
Qed.

(** Paths after a step that keeps every node in its place with its label
    and its parent, and the stored labels. *)
Lemma node_stack_kept r r' p k :
  inv r →
  (∀ q n, m_nodes r !! q = Some n →
     ∃ n', m_nodes r' !! q = Some n' ∧ m_label n' = m_label n ∧
           m_parent n' = m_parent n) →
  (∀ l, label_stored (m_label_helper r) l →
     restore (m_label_helper r') l = restore (m_label_helper r) l) →
  node_stack r p k → node_stack r' p k.
Proof.
  intros Hinv Hkeep Hlabels (l0 & rest & Hchain & Hk).
  exists l0, rest. split; [eapply chain_kept; eassumption|].
  pose proof (label_path_kept r r' _ _ Hinv Hchain Hlabels) as Hsame.
  unfold label_path in *. cbn [map] in Hsame. injection Hsame as _ Hsame.
  rewrite Hsame. exact Hk.
Qed.

(** Paths before a step that appended nodes and kept the others. *)
Lemma chain_back (nodes nodes' : list measure_node_t) p path :
  ordered nodes' →
  (∀ q n', q < length nodes → nodes' !! q = Some n' →
     ∃ n, nodes !! q = Some n ∧ m_label n = m_label n' ∧
          m_parent n = m_parent n') →
  chain nodes' p path → p < length nodes → chain nodes p path.
Proof.
  intros Hord Hback. induction 1 as [p n' Hp Hpar|p n' q path Hp Hpar _ IH];
    intros Hlt.
  - destruct (Hback p n' Hlt Hp) as (n & Hn & <- & Hpar').
    apply (chain_root nodes p n Hn). congruence.
  - destruct (Hback p n' Hlt Hp) as (n & Hn & <- & Hpar').
    apply (chain_step nodes p n q path Hn); [congruence|].
    apply IH. pose proof (Hord p n' q Hp Hpar). lia.
Qed.

Lemma node_stack_back r r' p k :
  inv r → ordered (m_nodes r') →
  (∀ q n', q < length (m_nodes r) → m_nodes r' !! q = Some n' →
     ∃ n, m_nodes r !! q = Some n ∧ m_label n = m_label n' ∧
          m_parent n = m_parent n') →
  (∀ l, label_stored (m_label_helper r) l →
     restore (m_label_helper r') l = restore (m_label_helper r) l) →
  p < length (m_nodes r) →
  node_stack r' p k → node_stack r p k.
Proof.
  intros Hinv Hord Hback Hlabels Hlt (l0 & rest & Hchain & Hk).
  pose proof (chain_back _ _ _ _ Hord Hback Hchain Hlt) as Hchain0.
  exists l0, rest. split; [exact Hchain0|].
  pose proof (label_path_kept r r' _ _ Hinv Hchain0 Hlabels) as Hsame.
  unfold label_path in *. cbn [map] in Hsame. injection Hsame as _ Hsame.
  rewrite <- Hsame. exact Hk.
Qed.

(** A node with the stack [x :: s] is a child of the node with the stack
    [s] and carries the label [x]. *)
Lemma node_stack_child r p n x s :
  inv r → m_nodes r !! p = Some n → node_stack r p (x :: s) →
  ∃ q, m_parent n = Some q ∧ node_stack r q s ∧
       restore (m_label_helper r) (m_label n) = x.
Proof.
  intros Hinv Hp (l0 & rest & Hchain & Hk).
  apply (f_equal (@rev _)) in Hk. rewrite rev_involutive in Hk. cbn [rev] in Hk.
  destruct (m_parent n) as [q|] eqn:Hpar.
  - destruct (inv_parent r Hinv p n q Hp Hpar) as (_ & qn & Hq & _).
    destruct (inv_chain r Hinv q qn Hq) as [path Hq'].
    pose proof (chain_functional _ _ _ _ Hchain
                  (chain_step _ _ n q path Hp Hpar Hq')) as Heq.
    destruct (chain_cons_split _ _ _ _ _ _ Hq' (eq_sym Heq))
      as (rest' & -> & ->).
    unfold label_path in Hk. rewrite map_app in Hk. cbn [map] in Hk.
    apply app_inj_tail in Hk as [Hpre Hlast].
    exists q. split; [reflexivity|]. split; [|exact Hlast].
    exists l0, rest'. split; [exact Hq'|].
    unfold label_path. rewrite Hpre. apply rev_involutive.
  - pose proof (chain_functional _ _ _ _ Hchain (chain_root _ _ n Hp Hpar))
      as Heq.
    injection Heq as _ ->. cbn in Hk. destruct (rev s); discriminate.
Qed.

Lemma holds_profile_update f r s prof v :
  inv r → open_scopes r s → holds_profile r prof → cnt_of r = Ok v →
  holds_profile (cnt_write (f v) r) (profile_update s f prof).
Proof.
  intros Hinv Hopen [Hnodes Hdefault] Hcnt.
  apply open_scopes_node_stack in Hopen.
  assert (Hfwd : ∀ p k, node_stack r p k → node_stack (cnt_write (f v) r) p k).
  { intros p k. apply (node_stack_kept r _ p k Hinv); [|reflexivity].
    intros q n Hq. destruct (cnt_write_old (f v) r q n Hq) as (n' & Hq' & Hl & Hp & _).
    eauto. }
  assert (Hbwd : ∀ p k, node_stack (cnt_write (f v) r) p k → node_stack r p k).
  { intros p k (l0 & rest & Hchain & Hk). exists l0, rest. split; [|exact Hk].
    apply (chain_kept (m_nodes (cnt_write (f v) r))); [|exact Hchain].
    intros q n' Hq.
    destruct (cnt_write_lookup (f v) r q n' Hq) as (n & Hn & Hl & Hp & _).
    eauto. }
  unfold cnt_of in Hcnt.
  destruct (deref (m_nodes r) (m_current_node r)) as [cur|] eqn:Hcur;
    [|discriminate].
  apply deref_ok in Hcur. cbn [mbind result_bind] in Hcnt. injection Hcnt as <-.
  constructor.
  - intros p n' k Hp Hk. apply Hbwd in Hk.
    destruct (cnt_write_lookup (f (m_value cur)) r p n' Hp)
      as (n & Hn & _ & _ & _ & Hv).
    rewrite Hv. unfold profile_update. case_decide as Hpc.
    + subst p. rewrite (node_stack_functional r _ _ _ Hk Hopen).
      rewrite decide_True by reflexivity. f_equal.
      apply (Hnodes _ cur s Hcur Hopen).
    + rewrite decide_False; [apply (Hnodes p n k Hn Hk)|].
      intros ->. apply Hpc. eapply node_stack_inj; eassumption.
  - intros k Hnone. unfold profile_update. rewrite decide_False.
    + apply Hdefault. intros p Hk. apply (Hnone p), Hfwd, Hk.
    + intros ->. apply (Hnone (m_current_node r)), Hfwd, Hopen.
Qed.

Lemma holds_profile_call c r r' s prof :
  inv r → call_labels_ok c → open_scopes r s → holds_profile r prof →
  run_call c r = Ok r' → holds_profile r' prof.
Proof.
  intros Hinv Hok Hopen Hprof Hrun.
  assert (Hmove : ∀ q, holds_profile (move_to q r) prof).
  { intros q. destruct Hprof as [Hnodes Hdefault]. constructor.
    - intros p n k Hp Hk. apply (Hnodes p n k Hp Hk).
    - intros k Hnone. apply Hdefault. exact Hnone. }
  destruct c as [x env| |x]; cbn [run_call call_labels_ok] in *.
  - destruct (begin_scope_ok x env r r' Hinv Hok Hrun)
      as (cur & Hcur & [(c & cn & _ & _ & _ & ->)|(l & st & Hs & Hnone & ->)]);
      [apply Hmove|].
    pose proof (enter_fresh_inv r cur x env l st Hinv Hcur Hok Hs Hnone) as Hinv'.
    pose proof (enter_fresh_extends r cur x env l st Hinv Hcur Hok Hs) as Hext.
    destruct Hprof as [Hnodes Hdefault].
    apply open_scopes_node_stack in Hopen.
    assert (Hfwd : ∀ p k, node_stack r p k → node_stack (enter_fresh l st r) p k).
    { intros p k. apply (node_stack_kept r _ p k Hinv).
      - intros q n Hq.
        destruct (ext_nodes _ _ Hext q n Hq) as (n' & Hq' & Hl & _ & Hp). eauto.
      - intros l1 Hl1. apply (ext_labels _ _ Hext l1 Hl1). }
    assert (Hbwd : ∀ p k, p < length (m_nodes r) →
              node_stack (enter_fresh l st r) p k → node_stack r p k).
    { intros p k Hlt. apply (node_stack_back r _ p k Hinv).
      - apply inv_ordered, Hinv'.
      - intros q n' Hq Hq'.
        destruct (fresh_lookup l st r cur q n' Hcur Hq')
          as [[-> _]|(n & Hn & Hl & _ & Hp & _)]; [lia|]. eauto.
      - intros l1 Hl1. apply (ext_labels _ _ Hext l1 Hl1).
      - exact Hlt. }
    constructor.
    + intros p n' k Hp Hk.
      destruct (fresh_lookup l st r cur p n' Hcur Hp)
        as [[-> ->]|(n & Hn & _ & Hv & _)].
      * (* the new node *)
        cbn [fresh_node m_value].
        destruct (save_spec _ _ _ _ _ (inv_helper r Hinv) Hok Hs)
          as (_ & _ & Hres & _).
        assert (Hnew : node_stack (enter_fresh l st r) (length (m_nodes r))
                         (x :: s)).
        { destruct (Hfwd _ _ Hopen) as (l0 & rest & Hchain & Hk0).
          exists l0, (rest ++ [l]). split.
          - change (l0 :: rest ++ [l]) with ((l0 :: rest) ++ [l]).
            apply (chain_step _ _ (fresh_node l r) (m_current_node r));
              [eapply fresh_new; eassumption|reflexivity|exact Hchain].
          - unfold label_path in *. rewrite map_app. cbn [map].
            rewrite rev_unit. cbn [enter_fresh m_label_helper] in *.
            rewrite Hres, Hk0. reflexivity. }
        rewrite (node_stack_functional _ _ _ _ Hk Hnew). symmetry.
        apply Hdefault. intros p Hp0.
        destruct Hp0 as (l0 & rest & Hchain & Hk0).
        assert (Hlook : is_Some (m_nodes r !! p)).
        { clear -Hchain. destruct Hchain; eauto. }
        destruct Hlook as [pn Hpn].
        destruct (node_stack_child r p pn x s Hinv Hpn)
          as (q & Hpar & Hq & Hlab).
        { exists l0, rest. split; assumption. }
        assert (q = m_current_node r) as ->
          by exact (node_stack_inj r q _ s Hinv Hq Hopen).
        destruct (inv_parent r Hinv p pn _ Hpn Hpar) as (_ & qn & Hqn & Hin).
        assert (qn = cur) as -> by congruence.
        pose proof (Hnone p pn Hin Hpn) as Hneq.
        apply (equal_spec _ _ _ (inv_helper r Hinv)
                 (inv_labels r Hinv _ _ Hpn) Hok) in Hlab.
        congruence.
      * rewrite Hv. apply (Hnodes p n k Hn).
        apply Hbwd; [eapply lookup_lt_Some; eassumption|exact Hk].
    + intros k Hnone'. cbn [enter_fresh m_default_value].
      apply Hdefault. intros p Hk. apply (Hnone' p), Hfwd, Hk.
  - destruct (end_scope_ok r r' Hinv Hrun) as (cur & q & _ & _ & -> & _).
    apply Hmove.
  - destruct (end_scope_label_ok x r r' Hinv Hrun)
      as (cur & q & _ & _ & _ & -> & _).
    apply Hmove.
Qed.

Lemma holds_profile_new default_value root_label env root_value r :
  recorder_new default_value root_label env root_value = Ok r →
  holds_profile r
    (λ k, if decide (k = []) then root_value else default_value).
Proof.
  intros Hnew. pose proof (open_scopes_new _ _ _ _ _ Hnew) as Hopen.
  apply open_scopes_node_stack in Hopen.
  unfold recorder_new in Hnew.
  destruct (save root_label env helper_init) as [[l st]|e]; [|discriminate].
  cbn [mbind result_bind] in Hnew. injection Hnew as <-.
  cbn [m_current_node] in Hopen. constructor.
  - intros p n k Hp Hk. cbn [m_nodes] in Hp.
    apply list_lookup_singleton_Some in Hp as [-> <-].
    rewrite (node_stack_functional _ _ _ _ Hk Hopen). reflexivity.
  - intros k Hnone. cbn [m_default_value]. rewrite decide_False; [reflexivity|].
    intros ->. exact (Hnone 0 Hopen).
Qed.

Lemma open_scopes_update v r s :
  open_scopes r s → open_scopes (cnt_write v r) s.
Proof.
  intros (l0 & rest & Hchain & Hpath). exists l0, rest. split; [|exact Hpath].
  apply (chain_kept (m_nodes r)); [|exact Hchain].
  intros q n Hq.
  destruct (cnt_write_old v r q n Hq) as (n' & Hq' & Hl & Hp & _). eauto.
Qed.

(** The recorder keeps a counter for each stack of open scopes: an update
    through [cnt()] changes the measure of the node whose path is the
    stack of the scopes open at the update, and of no other node; a node
    is created with the default measure when its stack is first opened.
    So after a run of calls and updates that returns, the measure of
    every node is what the updates made while its stack was the stack of
    open scopes have made of its first measure, in their order. *)
Theorem recorder_refines_profile es : ∀ r s prof,
  reachable r → Forall event_labels_ok es →
  open_scopes r s → holds_profile r prof →
  match run_events es r with
  | Ok r' =>
      ∃ s' prof', profile_events es (s, prof) = Ok (s', prof') ∧
        open_scopes r' s' ∧ holds_profile r' prof'
  | Err e =>
      profile_events es (s, prof) = Err e ∨ ∃ x env st, save x env st = Err e
  end.
Proof.
  intros r s prof Hreach. pose proof (reachable_inv r Hreach) as Hinv.
  clear Hreach. revert r s prof Hinv.
  induction es as [|e es IH]; intros r s prof Hinv Hok Hopen Hprof.
  - cbn. eauto.
  - apply Forall_cons in Hok as [He Hok].
    cbn [run_events profile_events].
    destruct e as [c|f]; cbn [run_event profile_event event_labels_ok fst snd] in *.
    + pose proof (open_scopes_call c r s Hinv He Hopen) as Hstep.
      destruct (run_call c r) as [r1|err] eqn:Hrun; cbn [mbind result_bind].
      * destruct Hstep as (Hinv1 & s1 & -> & Hopen1). cbn [mbind result_bind].
        apply (IH r1 s1 prof Hinv1 Hok Hopen1).
        exact (holds_profile_call c r r1 s prof Hinv He Hopen Hprof Hrun).
      * destruct Hstep as [->|Hsave]; [left; reflexivity|right; exact Hsave].
    + destruct (inv_current r Hinv) as [cur Hcur].
      assert (Hcnt : cnt_of r = Ok (m_value cur)).
      { unfold cnt_of. rewrite (deref_Some _ _ _ Hcur). reflexivity. }
      rewrite Hcnt. cbn [mbind result_bind].
      apply (IH _ s _ (cnt_write_inv _ r Hinv) Hok).
      * destruct Hopen as (l0 & rest & Hchain & Hpath). exists l0, rest.
        split; [|exact Hpath].
        apply (chain_kept (m_nodes r)); [|exact Hchain].
        intros q n Hq.
        destruct (cnt_write_old (f (m_value cur)) r q n Hq)
          as (n' & Hq' & Hl & Hp & _). eauto.
      * apply holds_profile_update; assumption.
Qed.

(** *** The lines of the collapsed stacks and the nodes *)

(** The path of each line is the path of a node: the lines and the
    pointers of a tree go in step. *)
Lemma tree_lines_chain nodes : ∀ t parent prefix,
  represents nodes parent t →
  (parent = None ∧ prefix = [] ∨ ∃ q, parent = Some q ∧ chain nodes q prefix) →
  Forall2 (λ line p, chain nodes p line.1) (tree_lines prefix t) (tree_ptrs t).
Proof.
  intros t. induction t as [p l v kids IH] using tree_ind_kids.
  intros parent prefix Hrep Hpre.
  inversion Hrep as [parent' p' l' v' kids' Hp Hkids]; subst.
  assert (Hchain : chain nodes p (prefix ++ [l])).
  { destruct Hpre as [[-> ->]|(q & -> & Hq)].
    - apply (chain_root nodes p _ Hp). reflexivity.
    - apply (chain_step nodes p _ q prefix Hp); [reflexivity|exact Hq]. }
  rewrite tree_ptrs_node. cbn [tree_lines]. constructor; [exact Hchain|].
  clear Hp Hrep. induction kids as [|k kids IHkids]; [constructor|].
  apply Forall_cons in IH as [IHk IH]. apply Forall_cons in Hkids as [Hk Hkids].
  cbn [flat_map]. apply Forall2_app; [|apply IHkids; assumption].
  apply (IHk (Some p)); [exact Hk|]. right. eauto.
Qed.

(** The pointers of the tree of a recorder are the pointers of the
    store. *)
Lemma tree_ptrs_all r t :
  inv r → represents (m_nodes r) None t → tree_ptr t = m_root r →
  tree_ptrs t ≡ₚ seq 0 (length (m_nodes r)).
Proof.
  intros Hinv Hrep Hroot. apply NoDup_Permutation.
  - eapply tree_ptrs_NoDup; eassumption.
  - apply NoDup_seq.
  - intros p. rewrite elem_of_seq. split.
    + intros Hp. unfold tree_ptrs in Hp.
      apply list_elem_of_In, in_map_iff in Hp as (s & <- & Hs).
      apply list_elem_of_In in Hs.
      pose proof (represents_subtrees _ t _ Hrep) as Hall.
      rewrite Forall_forall in Hall. destruct (Hall s Hs) as [ps Hreps].
      inversion Hreps as [parent' p' l' v' kids' Hp' _]; subst.
      cbn [tree_ptr]. apply lookup_lt_Some in Hp'. lia.
    + intros [_ Hlt]. destruct (lookup_lt_is_Some_2 (m_nodes r) p) as [pn Hpn];
        [lia|].
      apply (below_tree_ptrs r Hinv t None p pn Hrep Hpn).
      rewrite Hroot. eapply inv_below_root; eassumption.
Qed.

(** The measure of each line is the measure of a node. *)
Lemma tree_lines_measures nodes : ∀ t parent prefix,
  represents nodes parent t →
  Forall2 (λ line p, ∃ n, nodes !! p = Some n ∧ line.2 = m_value n)
    (tree_lines prefix t) (tree_ptrs t).
Proof.
  intros t. induction t as [p l v kids IH] using tree_ind_kids.
  intros parent prefix Hrep.
  inversion Hrep as [parent' p' l' v' kids' Hp Hkids]; subst.
  rewrite tree_ptrs_node. cbn [tree_lines]. constructor.
  { eexists. split; [exact Hp|reflexivity]. }
  clear Hp Hrep. induction kids as [|k kids IHkids]; [constructor|].
  apply Forall_cons in IH as [IHk IH]. apply Forall_cons in Hkids as [Hk Hkids].
  cbn [flat_map]. apply Forall2_app; [|apply IHkids; assumption].
  apply (IHk (Some p)). exact Hk.
Qed.

(** What [to_collapsed_stacks] writes for a reachable recorder, and what
    it leaves: it returns, with the recorder as it was, and has appended
    to the stream the text of one line for each node the recorder
    allocated and nothing else; every node has its line, with the labels
    on the way from the root to the node and the node's measure; and no
    two lines carry the same stack of labels. *)
Theorem collapsed_stacks_distinct r os l_out m_out :
  reachable r →
  ∃ lines,
    to_collapsed_stacks os l_out m_out r
      = Ok (os +:+ lines_text (m_label_helper r) l_out m_out lines, r) ∧
    length lines = length (m_nodes r) ∧
    NoDup (map (λ line, label_path (m_label_helper r) line.1) lines) ∧
    ∀ p n, m_nodes r !! p = Some n →
      ∃ path, chain (m_nodes r) p path ∧ (path, m_value n) ∈ lines.
Proof.
  intros Hreach. pose proof (reachable_inv r Hreach) as Hinv.
  pose proof (inv_ordered r Hinv) as Hord.
  destruct (inv_root r Hinv) as (n0 & Hn0 & Hpar).
  destruct (inv_subtree r Hinv (length (m_nodes r)) (m_root r) n0 Hn0)
    as (t & Hrep & Hroot); [lia|].
  rewrite Hpar in Hrep.
  pose proof (tree_lines_chain (m_nodes r) t None [] Hrep
                (or_introl (conj eq_refl eq_refl))) as Hlines.
  pose proof (tree_lines_measures (m_nodes r) t None [] Hrep) as Hvalues.
  pose proof (tree_ptrs_all r t Hinv Hrep Hroot) as Hperm.
  exists (tree_lines [] t). split; [|split; [|split]].
  - unfold to_collapsed_stacks.
    cbn [set_running m_nodes m_label_helper m_root]. rewrite <- Hroot.
    rewrite (to_collapsed_stack_tree (m_label_helper r) l_out m_out
               (m_nodes r) Hord t None [] _ os Hrep) by (auto || lia).
    cbn [mbind result_bind]. pose proof (inv_idle r Hinv) as Hidle.
    destruct r; cbn in Hidle |- *. rewrite Hidle. reflexivity.
  - rewrite (Forall2_length _ _ _ Hlines), Hperm. apply length_seq.
  - apply NoDup_alt. intros i j path Hi Hj.
    apply list_lookup_fmap_Some in Hi as (li & Hpi & Hli).
    apply list_lookup_fmap_Some in Hj as (lj & Hpj & Hlj).
    destruct (Forall2_lookup_l _ _ _ i li Hlines Hli) as (pi & Hpti & Hci).
    destruct (Forall2_lookup_l _ _ _ j lj Hlines Hlj) as (pj & Hptj & Hcj).
    assert (pi = pj) as ->.
    { apply (paths_injective r Hinv pi _ Hci pj _ Hcj). congruence. }
    eapply NoDup_lookup; [|exact Hpti|exact Hptj].
    eapply tree_ptrs_NoDup; eassumption.
  - intros p n Hp.
    assert (Hin : p ∈ tree_ptrs t).
    { rewrite Hperm. apply elem_of_seq. apply lookup_lt_Some in Hp. lia. }
    apply list_elem_of_lookup in Hin as [i Hi].
    destruct (Forall2_lookup_r _ _ _ i p Hlines Hi) as (line & Hline & Hchain).
    destruct (Forall2_lookup_r _ _ _ i p Hvalues Hi) as (line' & Hline' & n' & Hn' & Hv).
    rewrite Hline in Hline'. injection Hline' as <-.
    rewrite Hp in Hn'. injection Hn' as <-.
    exists line.1. split; [exact Hchain|].
    rewrite <- Hv. apply list_elem_of_lookup. exists i.
    rewrite Hline. destruct line; reflexivity.
Qed.

(** *** A recorder as it is constructed *)

(** A recorder that has just been constructed is idle and holds the root
    alone: [cnt()] is the root's measure, the collapsed stacks are the one
    line of the root, the report has the one entry of the root's label,
    with the root's measure as [self] and as [total], both overloads of
    [end_scope] run into their first [assert], and the destructor
    releases the root. *)
Theorem fresh_recorder default_value root_label env root_value r :
  label_ok root_label →
  recorder_new default_value root_label env root_value = Ok r →
  reachable r ∧
  recorder_internal_running_of r = false ∧
  cnt_of r = Ok root_value ∧
  (∀ os l_out m_out,
     to_collapsed_stacks os l_out m_out r
       = Ok (os +:+ l_out root_label +:+ " " +:+ m_out root_value +:+ newline,
             r)) ∧
  (∀ op, ∃ rep,
     to_report op r = Ok (rep, r) ∧
     report rep = {[ root_label := {| self := root_value; total := root_value |} ]}) ∧
  end_scope r = Err StackUnderflow ∧
  (∀ label, end_scope_label label r = Err StackUnderflow) ∧
  recorder_delete r = Ok {[ 0 ]}.
Proof.
  intros Hx Hnew.
  assert (Hreach : reachable r) by (eapply reachable_new; eassumption).
  split; [exact Hreach|].
  unfold recorder_new in Hnew.
  destruct (save root_label env helper_init) as [[l st]|e] eqn:Hsave;
    [|discriminate].
  cbn [mbind result_bind] in Hnew. injection Hnew as <-.
  destruct (save_spec _ _ _ _ _ init_wf Hx Hsave) as (Hwf & Hst & Hres & _).
  split; [reflexivity|]. split; [reflexivity|].
  split; [|split; [|split; [|split]]].
  - intros os l_out m_out. unfold to_collapsed_stacks.
    cbn [set_running m_nodes m_label_helper m_root length to_collapsed_stack
         print_stack deref lookup list_lookup mbind result_bind m_parent
         m_label m_value m_children for_each].
    rewrite Hres, !append_assoc. reflexivity.
  - intros op.
    exists {| report := report_add op (restore (helper_copy st) l) root_value
                          root_value ∅;
              m_helper := helper_copy st |}.
    split; [reflexivity|]. cbn [report]. unfold report_add.
    rewrite lookup_empty, (copy_restore st l Hwf Hst), Hres.
    apply insert_empty.
  - reflexivity.
  - intros label. reflexivity.
  - unfold recorder_delete.
    cbn [set_running m_nodes m_root length delete_node]. unfold deref_live.
    rewrite decide_False by apply not_elem_of_empty.
    cbn [deref lookup list_lookup mbind result_bind m_children for_each].
    unfold delete_ptr. rewrite decide_False by apply not_elem_of_empty.
    rewrite (right_id_L ∅ (∪)). reflexivity.
Qed.

End Model.

(** *** The claims about the self/total report *)

Section ReportClaims.

Context {LabelType Stored State Env : Type}.
Context `{Countable LabelType}.
Context {helper : label_helper LabelType Stored State Env}.

(** The sum of the measures of all nodes of a tree. *)
Definition sum_of_measures (t : tree (Stored := Stored) (MeasureType := Z)) : Z :=
  foldr Z.add 0%Z (map snd (preorder t)).

Lemma foldr_add_app (a b : list Z) :
  foldr Z.add 0%Z (a ++ b) = (foldr Z.add 0 a + foldr Z.add 0 b)%Z.
Proof. induction a as [|x a IH]; cbn [foldr app]; lia. Qed.

Lemma tree_total_add (t : tree (Stored := Stored) (MeasureType := Z)) :
  tree_total Z.add t = sum_of_measures t.
Proof.
  induction t as [p l v kids IH] using tree_ind_kids.
  unfold sum_of_measures. cbn [tree_total preorder map foldr snd].
  assert (Hkids : ∀ acc,
    fold_left (λ acc k, (acc + tree_total Z.add k)%Z) kids acc
      = (acc + foldr Z.add 0 (map snd (flat_map preorder kids)))%Z).
  { induction kids as [|k kids IHkids]; intros acc.
    - cbn. lia.
    - apply Forall_cons in IH as [IHk IH].
      cbn [fold_left flat_map]. rewrite (IHkids IH), IHk.
      rewrite map_app, foldr_add_app. unfold sum_of_measures. lia. }
  apply Hkids.
Qed.

(** C4.  Whatever tree a store holds at a node, the walk of the report
    returns for the node its total: its own measure combined with the
    totals of its children, in their order; each visit puts the node's
    own measure and that total into the entry of the node's label.  With
    addition over the integers, the total returned for the root is the
    sum of the measures of all nodes of the tree. *)
Theorem report_totals :
  (∀ (MeasureType : Type) (op : MeasureType → MeasureType → MeasureType)
     (nodes : list (measure_node_t (Stored := Stored))) t parent fuel rep,
     ordered nodes → represents nodes parent t →
     length nodes - tree_ptr t ≤ fuel →
     to_report_node fuel nodes op (tree_ptr t) rep
       = Ok (tree_total op t,
             {| report := add_visits op (m_helper rep) (postorder op t)
                            (report rep);
                m_helper := m_helper rep |})) ∧
  (∀ (MeasureType : Type) (op : MeasureType → MeasureType → MeasureType)
     p (l : Stored) v kids,
     tree_total op (Node p l v kids)
       = fold_left (λ acc k, op acc (tree_total op k)) kids v) ∧
  (∀ (r : recorder_t (Stored := Stored) (State := State) (MeasureType := Z))
     t rep,
     ordered (m_nodes r) → represents (m_nodes r) None t →
     tree_ptr t = m_root r →
     ∃ rep',
       to_report_node (length (m_nodes r)) (m_nodes r) Z.add (m_root r) rep
         = Ok (sum_of_measures t, rep')).
Proof.
  split; [|split].
  - intros MeasureType op nodes t parent fuel rep Hord Hrep Hfuel.
    apply (to_report_node_tree op nodes Hord t parent fuel rep Hrep Hfuel).
  - reflexivity.
  - intros r t rep Hord Hrep Hroot. eexists. rewrite <- Hroot.
    rewrite (to_report_node_tree Z.add (m_nodes r) Hord t None _ rep Hrep)
      by lia.
    rewrite tree_total_add. reflexivity.
Qed.

Lemma merge_visits_cons (MeasureType : Type)
    (op : MeasureType → MeasureType → MeasureType)
    (v : visit (Stored := Stored)) vs :
  fold_left (merge_visit op) (v :: vs) None
    = Some {| self := fold_left op (map v_self vs) (v_self v);
              total := fold_left op (map v_total vs) (v_total v) |}.
Proof.
  cbn [fold_left merge_visit].
  generalize (v_self v) (v_total v). induction vs as [|w vs IH]; intros a b.
  - reflexivity.
  - cbn [fold_left merge_visit self total map]. apply IH.
Qed.

Lemma fold_add_ge (zs : list Z) : ∀ a,
  Forall (λ z, 0 ≤ z)%Z zs →
  (a ≤ fold_left Z.add zs a)%Z ∧
  ∀ z, z ∈ zs → (0 ≤ a)%Z → (z ≤ fold_left Z.add zs a)%Z.
Proof.
  induction zs as [|y zs IH]; intros a Hpos.
  - split; [cbn; lia|]. intros z Hz. inversion Hz.
  - apply Forall_cons in Hpos as [Hy Hpos]. cbn [fold_left].
    destruct (IH (a + y)%Z Hpos) as [Hge Hin]. split; [lia|].
    intros z Hz Ha. apply elem_of_cons in Hz as [->|Hz]; [lia|].
    apply Hin; [exact Hz|lia].
Qed.

Lemma tree_total_nonneg (t : tree (Stored := Stored) (MeasureType := Z)) :
  Forall (λ n, 0 ≤ n.2)%Z (preorder t) →
  (0 ≤ tree_total Z.add t)%Z ∧
  Forall (λ w, 0 ≤ v_total w)%Z (postorder Z.add t).
Proof.
  induction t as [p l v kids IH] using tree_ind_kids. intros Hpos.
  cbn [preorder] in Hpos. apply Forall_cons in Hpos as [Hv Hpos].
  cbn [snd] in Hv.
  assert (Hkids : ∀ acc, (0 ≤ acc)%Z →
    (0 ≤ fold_left (λ acc k, (acc + tree_total Z.add k)%Z) kids acc)%Z ∧
    Forall (λ w, 0 ≤ v_total w)%Z (flat_map (postorder Z.add) kids)).
  { induction kids as [|k kids IHkids]; intros acc Hacc.
    - split; [exact Hacc|constructor].
    - apply Forall_cons in IH as [IHk IH]. cbn [flat_map] in Hpos.
      apply Forall_app in Hpos as [Hk Hrest].
      destruct (IHk Hk) as [Htk Hvk].
      destruct (IHkids IH Hrest (acc + tree_total Z.add k)%Z) as [Hf Hvs];
        [lia|].
      split; [exact Hf|]. cbn [flat_map]. apply Forall_app. auto. }
  destruct (Hkids v Hv) as [Htot Hvs]. split; [exact Htot|].
  cbn [postorder]. apply Forall_app. split; [exact Hvs|].
  constructor; [exact Htot|constructor].
Qed.

(** C6, amended.  The report of a tree has, for each label, no entry when
    no node carries the label and else one entry: its [self] is the
    combination of the own measures of all nodes that carry the label and
    its [total] the combination of their totals, both in the order of the
    walk, wherever in the tree the nodes are.  With addition over
    non-negative integers the entry's [total] is at least the total of
    each of these nodes (with a negative measure it need not be). *)
Theorem report_collapses_labels :
  (∀ (MeasureType : Type) (op : MeasureType → MeasureType → MeasureType)
     (r : recorder_t (Stored := Stored) (State := State)) t,
     ordered (m_nodes r) → represents (m_nodes r) None t →
     tree_ptr t = m_root r →
     ∃ rep,
       to_report op r = Ok (rep, set_running false r) ∧
       m_helper rep = helper_copy (m_label_helper r) ∧
       ∀ x, report rep !! x =
         match visits_of (m_helper rep) x (postorder op t) with
         | [] => None
         | v :: vs =>
             Some {| self := fold_left op (map v_self vs) (v_self v);
                     total := fold_left op (map v_total vs) (v_total v) |}
         end) ∧
  (∀ (t : tree (Stored := Stored) (MeasureType := Z)) (st : State) x v vs,
     Forall (λ n, 0 ≤ n.2)%Z (preorder t) →
     visits_of st x (postorder Z.add t) = v :: vs →
     ∀ w, w ∈ v :: vs →
       (v_total w ≤ fold_left Z.add (map v_total vs) (v_total v))%Z).
Proof.
  split.
  - intros MeasureType op r t Hord Hrep Hroot.
    eexists. split; [apply (to_report_tree op r t Hord Hrep Hroot)|].
    split; [reflexivity|]. intros x. cbn [report m_helper].
    rewrite add_visits_lookup, lookup_empty.
    destruct (visits_of _ x (postorder op t)) as [|v vs]; [reflexivity|].
    apply merge_visits_cons.
  - intros t st x v vs Hpos Hvisits w Hw.
    destruct (tree_total_nonneg t Hpos) as [_ Hall].
    assert (Hsub : Forall (λ w, 0 ≤ v_total w)%Z (v :: vs)).
    { rewrite <- Hvisits. unfold visits_of. apply Forall_forall.
      intros u Hu. apply list_elem_of_filter in Hu as [_ Hu].
      rewrite Forall_forall in Hall. apply Hall, Hu. }
    apply Forall_cons in Hsub as [Hv Hvs].
    assert (Hvs' : Forall (λ z, 0 ≤ z)%Z (map v_total vs)).
    { apply Forall_fmap. exact Hvs. }
    destruct (fold_add_ge (map v_total vs) (v_total v) Hvs') as [Hge Hin].
    apply elem_of_cons in Hw as [->|Hw]; [exact Hge|].
    apply Hin; [|exact Hv]. apply list_elem_of_fmap. eauto.
Qed.

End ReportClaims.

(** *** What the totals of the report count *)

Section ReportWeights.

Context {LabelType Stored State Env : Type}.
Context `{Countable LabelType}.
Context {helper : label_helper LabelType Stored State Env}.

#[local] Abbreviation ztree := (tree (Stored := Stored) (MeasureType := Z)).

(** The measures of a tree, each counted once for every node on the way
    from the root of the tree down to its node, both included, that
    carries the label [x]; [c] counts the nodes above the tree that carry
    the label. *)
Fixpoint weighted (st : State) (x : LabelType) (c : Z) (t : ztree) : Z :=
  match t with
  | Node _ l v kids =>
      let c' := (c + if decide (restore st l = x) then 1 else 0)%Z in
      (v * c' + foldr (λ k acc, weighted st x c' k + acc) 0 kids)%Z
  end.

(** The own measures of the nodes that carry the label [x]. *)
Fixpoint own (st : State) (x : LabelType) (t : ztree) : Z :=
  match t with
  | Node _ l v kids =>
      ((if decide (restore st l = x) then v else 0)
       + foldr (λ k acc, own st x k + acc) 0 kids)%Z
  end.

Lemma sum_of_measures_node p (l : Stored) v (kids : list ztree) :
  sum_of_measures (Node p l v kids)
    = (v + foldr (λ k acc, sum_of_measures k + acc) 0 kids)%Z.
Proof.
  unfold sum_of_measures at 1. cbn [preorder map snd foldr]. f_equal.
  induction kids as [|k kids IH]; [reflexivity|].
  cbn [flat_map foldr]. rewrite map_app, foldr_add_app, IH. reflexivity.
Qed.

Lemma weighted_shift st x (t : ztree) : ∀ c,
  weighted st x c t = (c * sum_of_measures t + weighted st x 0 t)%Z.
Proof.
  induction t as [p l v kids IH] using tree_ind_kids. intros c.
  rewrite sum_of_measures_node. cbn [weighted]. cbn zeta.
  set (b := if decide (restore st l = x) then 1%Z else 0%Z).
  assert (Hkids : ∀ d,
    foldr (λ k acc, weighted st x d k + acc)%Z 0%Z kids
      = (d * foldr (λ k acc, sum_of_measures k + acc) 0 kids
         + foldr (λ k acc, weighted st x 0 k + acc) 0 kids)%Z).
  { intros d. induction kids as [|k kids IHkids]; [cbn; lia|].
    apply Forall_cons in IH as [IHk IH]. cbn [foldr].
    rewrite (IHkids IH), (IHk d). lia. }
  rewrite (Hkids (c + b)%Z), (Hkids (0 + b)%Z). lia.
Qed.

Lemma fold_left_add (zs : list Z) : ∀ a,
  fold_left Z.add zs a = (a + foldr Z.add 0 zs)%Z.
Proof.
  induction zs as [|z zs IH]; intros a; cbn [fold_left foldr]; [lia|].
  rewrite IH. lia.
Qed.

(** The totals and the own measures of the visits of a label, summed. *)
Lemma visits_sums st x (t : ztree) :
  foldr Z.add 0%Z (map v_total (visits_of st x (postorder Z.add t)))
    = weighted st x 0 t ∧
  foldr Z.add 0%Z (map v_self (visits_of st x (postorder Z.add t)))
    = own st x t.
Proof.
  induction t as [p l v kids IH] using tree_ind_kids.
  assert (Hkids :
    foldr Z.add 0%Z
      (map v_total (visits_of st x (flat_map (postorder Z.add) kids)))
      = foldr (λ k acc, weighted st x 0 k + acc)%Z 0%Z kids ∧
    foldr Z.add 0%Z
      (map v_self (visits_of st x (flat_map (postorder Z.add) kids)))
      = foldr (λ k acc, own st x k + acc)%Z 0%Z kids).
  { induction kids as [|k kids IHkids]; [split; reflexivity|].
    apply Forall_cons in IH as [[IHk1 IHk2] IH].
    destruct (IHkids IH) as [IH1 IH2].
    cbn [flat_map foldr]. unfold visits_of in *.
    rewrite filter_app, !map_app, !foldr_add_app, IHk1, IHk2, IH1, IH2.
    split; reflexivity. }
  destruct Hkids as [Hk1 Hk2].
  cbn [postorder]. unfold visits_of in *.
  rewrite filter_app, !map_app, !foldr_add_app, Hk1, Hk2.
  rewrite filter_cons, filter_nil. cbn [v_label].
  cbn [weighted own]. cbn zeta.
  assert (Hshift :
    ∀ b, foldr (λ k acc, weighted st x (0 + b) k + acc)%Z 0%Z kids
         = (b * foldr (λ k acc, sum_of_measures k + acc) 0 kids
            + foldr (λ k acc, weighted st x 0 k + acc) 0 kids)%Z).
  { intros b. clear. induction kids as [|k kids IHkids]; [cbn; lia|].
    cbn [foldr]. rewrite IHkids, (weighted_shift st x k (0 + b)). lia. }
  rewrite Hshift.
  case_decide; cbn [map foldr v_total v_self].
  - rewrite (tree_total_add (Node p l v kids)), sum_of_measures_node.
    split; lia.
  - split; lia.
Qed.

(** The report with addition over the integers.  The [self] of a label is
    the sum of the own measures of the nodes that carry it.  Its [total]
    counts the measure of a node once for each scope that encloses the
    node, the node included, and carries the label: so the measures under
    a label that is nested in itself are counted more than once, and
    [total] is then not the measure taken while the label was active. *)
Theorem report_counts_enclosing_scopes
    (r : recorder_t (Stored := Stored) (State := State) (MeasureType := Z))
    (t : ztree) :
  ordered (m_nodes r) → represents (m_nodes r) None t →
  tree_ptr t = m_root r →
  ∃ rep,
    to_report Z.add r = Ok (rep, set_running false r) ∧
    ∀ x e, report rep !! x = Some e →
      total e = weighted (m_helper rep) x 0 t ∧
      self e = own (m_helper rep) x t.
Proof.
  intros Hord Hrep Hroot. eexists.
  split; [apply (to_report_tree Z.add r t Hord Hrep Hroot)|].
  intros x e. cbn [report m_helper].
  rewrite add_visits_lookup, lookup_empty.
  destruct (visits_sums (helper_copy (m_label_helper r)) x t) as [Htot Hown].
  destruct (visits_of _ x (postorder Z.add t)) as [|v vs]; [discriminate|].
  rewrite merge_visits_cons. intros [= <-]. cbn [total self].
  rewrite !fold_left_add. cbn [map foldr] in Htot, Hown. split; lia.
Qed.

End ReportWeights.

(** *** The recorder with the heap overloads linked

    [get_heap_counter()] returns the recorder, whose measure is
    [heap_usage_t]; [operator new] then counts into the recorder's current
    counter when the recorder is idle. *)

Definition fiya_operator_new_effect (n : Z)
    (c : counter_interface_t HeapOverlay.heap_usage_t)
  : HeapOverlay.heap_usage_t :=
  if negb (recorder_internal_running c)
  then HeapOverlay.count_allocation (HeapOverlay.allocated_bytes_of n) (cnt c)
  else cnt c.

Lemma fiya_operator_new_effect_busy n c :
  recorder_internal_running c = true → fiya_operator_new_effect n c = cnt c.
Proof. intros Hbusy. unfold fiya_operator_new_effect. rewrite Hbusy. reflexivity. Qed.

Definition fiya_heap_overloads : heap_hooks HeapOverlay.heap_usage_t :=
  {| sizeof_measure_node := 72;
     operator_new_effect := fiya_operator_new_effect;
     operator_new_effect_busy := fiya_operator_new_effect_busy |}.

Section HeapRecorder.

Context {LabelType Stored State Env : Type}.
Context {helper : label_helper LabelType Stored State Env}.
Context {laws : label_helper_laws helper}.

#[local] Existing Instance fiya_heap_overloads.

(** C9.  The counter [operator new] leaves is the one
    [fiya_heap_overloads] computes from the recorder's view; while
    [recorder_internal_running()] reports true, neither [operator new]
    nor [operator delete] changes the counter.  [begin_scope] sets the
    flag before it allocates: with the overloads linked, its allocation
    of a node leaves every measure in the store as it was, and the new
    node starts from the default measure. *)
Theorem busy_recorder_is_not_counted :
  (∀ n p c mem r,
     HeapOverlay.operator_new n (Some p) (Some c) mem = Ok r →
     HeapOverlay.new_counter r
       = Some (HeapOverlay.with_cnt c (operator_new_effect n c)) ∧
     (recorder_internal_running c = true →
      HeapOverlay.new_counter r = Some c)) ∧
  (∀ p c mem,
     recorder_internal_running c = true →
     HeapOverlay.delete_counter (HeapOverlay.operator_delete p (Some c) mem)
       = Some c) ∧
  (∀ (r : recorder_t (Stored := Stored) (State := State)) n,
     m_recorder_internal_running r = true → global_operator_new n r = r) ∧
  (∀ (r : recorder_t (Stored := Stored) (State := State)) label env r',
     reachable r → label_ok label → begin_scope label env r = Ok r' →
     (∀ p n, m_nodes r !! p = Some n →
        ∃ n', m_nodes r' !! p = Some n' ∧ m_value n' = m_value n) ∧
     (∀ p n', m_nodes r' !! p = Some n' → m_nodes r !! p = None →
        m_value n' = m_default_value r)).
Proof.
  split; [|split; [|split]].
  - intros n p c mem r Hnew. split.
    + unfold HeapOverlay.operator_new in Hnew. injection Hnew as <-.
      cbn [HeapOverlay.new_counter operator_new_effect fiya_heap_overloads].
      unfold fiya_operator_new_effect. destruct c as [[] hu]; reflexivity.
    + intros Hbusy. eapply HeapOverlay.operator_new_busy; eassumption.
  - intros p c mem Hbusy. apply HeapOverlay.operator_delete_busy, Hbusy.
  - intros r n Hbusy. apply global_operator_new_busy, Hbusy.
  - intros r label env r' Hreach Hx Hb.
    pose proof (reachable_inv r Hreach) as Hinv.
    destruct (begin_scope_ok label env r r' Hinv Hx Hb)
      as (cur & Hcur & [(c & cn & _ & _ & _ & ->)|(l & st & _ & _ & ->)]).
    + split.
      * intros p n Hp. exists n. split; [exact Hp|reflexivity].
      * intros p n' Hp Hnone. cbn in Hp. congruence.
    + split.
      * intros p n Hp.
        destruct (fresh_old l st r cur p n Hcur Hp) as (n' & Hn' & _ & Hv & _).
        exists n'. split; assumption.
      * intros p n' Hp Hnone.
        destruct (fresh_lookup l st r cur p n' Hcur Hp)
          as [[-> ->]|(n & Hn & _)]; [reflexivity|congruence].
Qed.

End HeapRecorder.

(** *** Heap usage by call path

    [fiya-heap-measure.h] and [fiya-heap-overloads.cpp] together:
    [get_heap_counter()] returns the recorder, [measure_heap_t] opens a
    scope in its constructor and closes it in its destructor, and the
    overloads count into the counter the recorder returns from [cnt()]. *)

Section HeapProfile.

Context {LabelType Stored State Env : Type}.
Context `{Countable LabelType}.
Context {helper : label_helper LabelType Stored State Env}.
Context {laws : label_helper_laws helper}.

#[local] Existing Instance fiya_heap_overloads.

#[local] Abbreviation heap_recorder_t :=
  (recorder_t (Stored := Stored) (State := State)
     (MeasureType := HeapOverlay.heap_usage_t)).

(** The view [operator new] and [operator delete] have of the recorder
    [get_heap_counter()] returns. *)
Definition heap_counter (r : heap_recorder_t)
  : result (counter_interface_t HeapOverlay.heap_usage_t) :=
  v ← cnt_of r;
  Ok {| recorder_internal_running := recorder_internal_running_of r;
        cnt := v |}.

(** [operator new(n)] of the application: the pointer it returns, the
    memory and the recorder it leaves. *)
Definition recorder_operator_new (n : Z) (malloc_ret : option Z)
    (r : heap_recorder_t) (mem : HeapOverlay.memory)
  : result (Z * HeapOverlay.memory * heap_recorder_t) :=
  c ← heap_counter r;
  res ← HeapOverlay.operator_new n malloc_ret (Some c) mem;
  Ok (HeapOverlay.new_ptr res, HeapOverlay.new_mem res,
      cnt_write
        (HeapOverlay.counter_value (HeapOverlay.new_counter res) (cnt c)) r).

(** [operator delete(p)] of the application: the pointer handed to
    [free] and the recorder it leaves. *)
Definition recorder_operator_delete (p : Z) (r : heap_recorder_t)
    (mem : HeapOverlay.memory) : result (option Z * heap_recorder_t) :=
  c ← heap_counter r;
  let res := HeapOverlay.operator_delete p (Some c) mem in
  Ok (HeapOverlay.delete_freed res,
      cnt_write
        (HeapOverlay.counter_value (HeapOverlay.delete_counter res) (cnt c)) r).

(** [measure_heap_t(label, recorder)] and [~measure_heap_t()] *)
Definition measure_heap_t_new (label : LabelType) (env : Env)
    (m_recorder : heap_recorder_t) : result heap_recorder_t :=
  begin_scope label env m_recorder.

Definition measure_heap_t_delete (m_recorder : heap_recorder_t)
  : result heap_recorder_t :=
  end_scope m_recorder.

(** What an application does: it constructs and destroys
    [measure_heap_t] objects, and it allocates and releases memory. *)
Inductive heap_event : Type :=
  | he_enter (label : LabelType) (env : Env)
  | he_leave
  | he_new (n : Z) (malloc_ret : Z)
  | he_delete (p : Z).

Definition run_heap_event (e : heap_event)
    (rm : heap_recorder_t * HeapOverlay.memory)
  : result (heap_recorder_t * HeapOverlay.memory) :=
  match e with
  | he_enter label env => r ← measure_heap_t_new label env rm.1; Ok (r, rm.2)
  | he_leave => r ← measure_heap_t_delete rm.1; Ok (r, rm.2)
  | he_new n p =>
      '(_, mem, r) ← recorder_operator_new n (Some p) rm.1 rm.2; Ok (r, mem)
  | he_delete p =>
      '(_, r) ← recorder_operator_delete p rm.1 rm.2; Ok (r, rm.2)
  end.

Fixpoint run_heap_events (hs : list heap_event)
    (rm : heap_recorder_t * HeapOverlay.memory)
  : result (heap_recorder_t * HeapOverlay.memory) :=
  match hs with
  | [] => Ok rm
  | e :: hs => rm' ← run_heap_event e rm; run_heap_events hs rm'
  end.

Definition heap_event_ok (e : heap_event) : Prop :=
  match e with
  | he_enter label _ => label_ok label
  | _ => True
  end.

(** The bytes the events allocate while the stack of open scopes is [k],
    each request saturated to 32 bits; [s] is the stack the events start
    with. *)
Fixpoint allocated_at (k : list LabelType) (hs : list heap_event)
    (s : list LabelType) : Z :=
  match hs with
  | [] => 0
  | he_enter label _ :: hs => allocated_at k hs (label :: s)
  | he_leave :: hs => allocated_at k hs (tail s)
  | he_new n _ :: hs =>
      ((if decide (s = k) then HeapOverlay.allocated_bytes_of n else 0)
       + allocated_at k hs s)%Z
  | he_delete _ :: hs => allocated_at k hs s
  end.

Lemma heap_counter_idle (r : heap_recorder_t) cur :
  inv r → m_nodes r !! m_current_node r = Some cur →
  heap_counter r = Ok {| recorder_internal_running := false; cnt := m_value cur |}.
Proof.
  intros Hinv Hcur. unfold heap_counter, cnt_of, recorder_internal_running_of.
  rewrite (deref_Some _ _ _ Hcur), (inv_idle r Hinv). reflexivity.
Qed.

Lemma operator_delete_total p c mem hu :
  HeapOverlay.total_allocations
    (HeapOverlay.counter_value
       (HeapOverlay.delete_counter (HeapOverlay.operator_delete p (Some c) mem))
       hu)
  = HeapOverlay.total_allocations (cnt c).
Proof.
  unfold HeapOverlay.operator_delete.
  destruct (recorder_internal_running c); repeat case_decide; reflexivity.
Qed.

(** One event: the recorder follows the stack and the profile. *)
Lemma heap_event_step e (r : heap_recorder_t) mem r' mem' s prof :
  inv r → heap_event_ok e → open_scopes r s → holds_profile r prof →
  run_heap_event e (r, mem) = Ok (r', mem') →
  inv r' ∧
  ∃ s' prof', open_scopes r' s' ∧ holds_profile r' prof' ∧
    (∀ rest k, allocated_at k (e :: rest) s = 
       ((if decide (s = k)
         then match e with he_new n _ => HeapOverlay.allocated_bytes_of n | _ => 0 end
         else 0) + allocated_at k rest s')%Z) ∧
    (∀ k, HeapOverlay.total_allocations (prof' k) =
       if decide (k = s)
       then match e with
            | he_new n _ =>
                HeapOverlay.wrap64
                  (HeapOverlay.total_allocations (prof s)
                   + HeapOverlay.allocated_bytes_of n)
            | _ => HeapOverlay.total_allocations (prof s)
            end
       else HeapOverlay.total_allocations (prof k)).
Proof.
  intros Hinv Hok Hopen Hprof Hrun.
  destruct (inv_current r Hinv) as [cur Hcur].
  pose proof (heap_counter_idle r cur Hinv Hcur) as Hview.
  assert (Hsame : ∀ k, HeapOverlay.total_allocations (prof k) =
            if decide (k = s) then HeapOverlay.total_allocations (prof s)
            else HeapOverlay.total_allocations (prof k)).
  { intros k. case_decide; congruence. }
  destruct e as [x env| |n p|p];
    cbn [run_heap_event fst snd heap_event_ok] in *.
  - unfold measure_heap_t_new in Hrun.
    destruct (begin_scope x env r) as [r1|err] eqn:Hb; [|discriminate].
    cbn [mbind result_bind] in Hrun. injection Hrun as <- <-.
    pose proof (open_scopes_call (call_begin x env) r s Hinv Hok Hopen) as Hstep.
    cbn [run_call] in Hstep. rewrite Hb in Hstep.
    destruct Hstep as (Hinv1 & s1 & [= <-] & Hopen1).
    split; [exact Hinv1|]. exists (x :: s), prof. split; [exact Hopen1|].
    split; [exact (holds_profile_call (call_begin x env) r r1 s prof Hinv Hok
                     Hopen Hprof Hb)|].
    split; [|exact Hsame]. intros rest k. cbn [allocated_at].
    case_decide; lia.
  - unfold measure_heap_t_delete in Hrun.
    destruct (end_scope r) as [r1|err] eqn:He; [|discriminate].
    cbn [mbind result_bind] in Hrun. injection Hrun as <- <-.
    pose proof (open_scopes_call call_end r s Hinv I Hopen) as Hstep.
    cbn [run_call] in Hstep. rewrite He in Hstep.
    destruct Hstep as (Hinv1 & s1 & Hs1 & Hopen1).
    split; [exact Hinv1|]. exists s1, prof. split; [exact Hopen1|].
    split; [exact (holds_profile_call call_end r r1 s prof Hinv I Hopen Hprof He)|].
    split; [|exact Hsame]. intros rest k. cbn [allocated_at].
    destruct s as [|top s]; cbn [stack_call] in Hs1; [discriminate|].
    injection Hs1 as <-. cbn [tail]. case_decide; lia.
  - unfold recorder_operator_new in Hrun. rewrite Hview in Hrun.
    cbn [mbind result_bind HeapOverlay.operator_new negb
         recorder_internal_running cnt HeapOverlay.new_ptr HeapOverlay.new_mem
         HeapOverlay.new_counter HeapOverlay.counter_value HeapOverlay.with_cnt]
      in Hrun.
    injection Hrun as <- <-.
    split; [apply cnt_write_inv, Hinv|].
    exists s,
      (profile_update s
         (HeapOverlay.count_allocation (HeapOverlay.allocated_bytes_of n)) prof).
    split; [apply open_scopes_update, Hopen|]. split.
    { apply holds_profile_update; try assumption.
      unfold cnt_of. rewrite (deref_Some _ _ _ Hcur). reflexivity. }
    split.
    { intros rest k. cbn [allocated_at]. reflexivity. }
    intros k. unfold profile_update. case_decide; reflexivity.
  - unfold recorder_operator_delete in Hrun. rewrite Hview in Hrun.
    cbn [mbind result_bind cnt] in Hrun. injection Hrun as <- <-.
    split; [apply cnt_write_inv, Hinv|].
    exists s,
      (profile_update s
         (λ hu,
            HeapOverlay.counter_value
              (HeapOverlay.delete_counter
                 (HeapOverlay.operator_delete p
                    (Some {| recorder_internal_running := false; cnt := hu |})
                    mem)) hu) prof).
    split; [apply open_scopes_update, Hopen|]. split.
    { pose proof (holds_profile_update
                    (λ hu,
                       HeapOverlay.counter_value
                         (HeapOverlay.delete_counter
                            (HeapOverlay.operator_delete p
                               (Some {| recorder_internal_running := false;
                                        cnt := hu |}) mem)) hu)
                    r s prof (m_value cur) Hinv Hopen Hprof) as Hup.
      apply Hup. unfold cnt_of. rewrite (deref_Some _ _ _ Hcur). reflexivity. }
    split.
    { intros rest k. cbn [allocated_at]. case_decide; lia. }
    intros k. unfold profile_update. case_decide; [|reflexivity].
    apply operator_delete_total.
Qed.

(** Every allocation is charged to the call path it is made on.  After a
    run of scopes, allocations and releases that returns, the
    [total_allocations] of each node is, modulo [2^64], what it was
    before (for a node the run created: that of the default measure) plus
    the bytes allocated while the stack of open [measure_heap_t] objects
    was the node's stack; allocations made on another path, and releases,
    leave it alone. *)
Theorem heap_usage_by_call_path hs : ∀ (r : heap_recorder_t) s prof mem r' mem',
  reachable r → Forall heap_event_ok hs →
  open_scopes r s → holds_profile r prof →
  (∀ k, 0 ≤ HeapOverlay.total_allocations (prof k) < 2 ^ 64)%Z →
  run_heap_events hs (r, mem) = Ok (r', mem') →
  (∃ s', open_scopes r' s') ∧
  ∀ p n k, m_nodes r' !! p = Some n → node_stack r' p k →
    HeapOverlay.total_allocations (m_value n)
      = HeapOverlay.wrap64
          (HeapOverlay.total_allocations (prof k) + allocated_at k hs s).
Proof.
  intros r s prof mem r' mem' Hreach.
  pose proof (reachable_inv r Hreach) as Hinv. clear Hreach.
  revert r s prof mem Hinv.
  induction hs as [|e hs IH]; intros r s prof mem Hinv Hok Hopen Hprof Hrange Hrun.
  - cbn in Hrun. injection Hrun as <- <-. split; [eauto|].
    intros p n k Hp Hk. rewrite (profile_nodes r prof Hprof p n k Hp Hk).
    cbn [allocated_at]. rewrite Z.add_0_r.
    symmetry. apply HeapOverlay.wrap64_small, Hrange.
  - apply Forall_cons in Hok as [He Hok]. cbn [run_heap_events] in Hrun.
    destruct (run_heap_event e (r, mem)) as [[r1 mem1]|err] eqn:Hstep;
      [|discriminate].
    cbn [mbind result_bind] in Hrun.
    destruct (heap_event_step e r mem r1 mem1 s prof Hinv He Hopen Hprof Hstep)
      as (Hinv1 & s1 & prof1 & Hopen1 & Hprof1 & Halloc & Htotal).
    assert (Hrange1 : ∀ k,
              (0 ≤ HeapOverlay.total_allocations (prof1 k) < 2 ^ 64)%Z).
    { intros k. rewrite Htotal. case_decide; [|apply Hrange].
      destruct e; try apply Hrange. apply Z.mod_pos_bound. lia. }
    destruct (IH r1 s1 prof1 mem1 Hinv1 Hok Hopen1 Hprof1 Hrange1 Hrun)
      as [Hopen' Hnodes].
    split; [exact Hopen'|]. intros p n k Hp Hk.
    rewrite (Hnodes p n k Hp Hk), Halloc, Htotal.
    unfold HeapOverlay.wrap64.
    destruct (decide (k = s)) as [->|Hk'].
    + rewrite decide_True by reflexivity.
      destruct e; try (f_equal; lia).
      rewrite Zplus_mod_idemp_l. f_equal; lia.
    + rewrite decide_False by congruence. f_equal; lia.
Qed.

End HeapProfile.

(** *** fiya-time-measure.h

    A time point and a duration are counts of clock ticks, in [Z]:
    [std::chrono] counts them in a signed integer whose overflow is
    undefined, and the counts below are those of the source wherever the
    source is defined.  What [get_thread_time()] returns is an argument
    of the function that calls it. *)

(** [class time_value_t] *)
Record time_value_t : Set := {
  m_duration : Z;
  m_start : Z
}.

(** [time_value_t{}] *)
Definition time_value_zero : time_value_t := {| m_duration := 0; m_start := 0 |}.

(** [static time_value_t now()], with the thread time it reads. *)
Definition now (get_thread_time : Z) : time_value_t :=
  {| m_duration := 0; m_start := get_thread_time |}.

Definition get_duration (v : time_value_t) : Z := m_duration v.

(** [time_value_t operator+(const time_value_t& other) const] *)
Definition time_value_add (this other : time_value_t) : time_value_t :=
  {| m_duration := (m_duration this + m_duration other)%Z;
     m_start := m_start this |}.

(** [cnt().m_duration += get_thread_time() - cnt().m_start] *)
Definition charge (get_thread_time : Z) (v : time_value_t) : time_value_t :=
  {| m_duration := (m_duration v + (get_thread_time - m_start v))%Z;
     m_start := m_start v |}.

(** [cnt().m_start = get_thread_time()] *)
Definition restart (get_thread_time : Z) (v : time_value_t) : time_value_t :=
  {| m_duration := m_duration v; m_start := get_thread_time |}.

Section TimeProfile.

Context {LabelType Stored State Env : Type}.
Context `{Countable LabelType}.
Context {helper : label_helper LabelType Stored State Env}.
Context {hooks : heap_hooks time_value_t}.
Context {laws : label_helper_laws helper}.

#[local] Abbreviation time_recorder_t :=
  (recorder_t (Stored := Stored) (State := State) (MeasureType := time_value_t)).

(** [measure_time_t(label, recorder)]; [t1] and [t2] are the two thread
    times it reads. *)
Definition measure_time_t_new (label : LabelType) (env : Env) (t1 t2 : Z)
    (m_recorder : time_recorder_t) : result time_recorder_t :=
  v ← cnt_of m_recorder;
  let m_recorder := cnt_write (charge t1 v) m_recorder in
  m_recorder ← begin_scope label env m_recorder;
  v ← cnt_of m_recorder;
  Ok (cnt_write (restart t2 v) m_recorder).

(** [~measure_time_t()] *)
Definition measure_time_t_delete (t1 t2 : Z) (m_recorder : time_recorder_t)
  : result time_recorder_t :=
  v ← cnt_of m_recorder;
  let m_recorder := cnt_write (charge t1 v) m_recorder in
  m_recorder ← end_scope m_recorder;
  v ← cnt_of m_recorder;
  Ok (cnt_write (restart t2 v) m_recorder).

(** [cyg_measure_time_t::begin_scope(label)] *)
Definition cyg_begin_scope (label : LabelType) (env : Env) (t1 t2 : Z)
    (m_recorder : time_recorder_t) : result time_recorder_t :=
  v ← cnt_of m_recorder;
  let m_recorder := cnt_write (charge t1 v) m_recorder in
  m_recorder ← begin_scope label env m_recorder;
  v ← cnt_of m_recorder;
  Ok (cnt_write (restart t2 v) m_recorder).

(** [cyg_measure_time_t::end_scope_local(args...)], with the overload of
    [recorder_t::end_scope] the arguments select. *)
Definition end_scope_local (args : option LabelType) (t1 t2 : Z)
    (m_recorder : time_recorder_t) : result time_recorder_t :=
  v ← cnt_of m_recorder;
  let m_recorder := cnt_write (charge t1 v) m_recorder in
  m_recorder ←
    match args with
    | None => end_scope m_recorder
    | Some label => end_scope_label label m_recorder
    end;
  v ← cnt_of m_recorder;
  Ok (cnt_write (restart t2 v) m_recorder).

(** [cyg_measure_time_t::end_scope()] and [end_scope(label)] *)
Definition cyg_end_scope (t1 t2 : Z) (m_recorder : time_recorder_t)
  : result time_recorder_t :=
  end_scope_local None t1 t2 m_recorder.

Definition cyg_end_scope_label (label : LabelType) (t1 t2 : Z)
    (m_recorder : time_recorder_t) : result time_recorder_t :=
  end_scope_local (Some label) t1 t2 m_recorder.

(** [cyg_measure_time_t::recorder_internal_running()] *)
Definition cyg_recorder_internal_running (m_recorder : time_recorder_t) : bool :=
  recorder_internal_running_of m_recorder.

(** What a timed application does: it enters a scope (the constructor of
    [measure_time_t], or [cyg_measure_time_t::begin_scope]) or leaves one
    (the destructor, or one of the overloads of
    [cyg_measure_time_t::end_scope]); each reads the thread time twice. *)
Inductive time_event : Type :=
  | te_enter (label : LabelType) (env : Env) (t1 t2 : Z)
  | te_leave (t1 t2 : Z)
  | te_leave_label (label : LabelType) (t1 t2 : Z).

Definition run_time_event (e : time_event) (r : time_recorder_t)
  : result time_recorder_t :=
  match e with
  | te_enter label env t1 t2 => measure_time_t_new label env t1 t2 r
  | te_leave t1 t2 => measure_time_t_delete t1 t2 r
  | te_leave_label label t1 t2 => cyg_end_scope_label label t1 t2 r
  end.

Fixpoint run_time_events (es : list time_event) (r : time_recorder_t)
  : result time_recorder_t :=
  match es with
  | [] => Ok r
  | e :: es => r' ← run_time_event e r; run_time_events es r'
  end.

(** The call of the scoping interface an event makes, and the two thread
    times it reads. *)
Definition time_event_call (e : time_event) : scope_call :=
  match e with
  | te_enter label env _ _ => call_begin label env
  | te_leave _ _ => call_end
  | te_leave_label label _ _ => call_end_label label
  end.

Definition first_reading (e : time_event) : Z :=
  match e with
  | te_enter _ _ t1 _ | te_leave t1 _ | te_leave_label _ t1 _ => t1
  end.

Definition second_reading (e : time_event) : Z :=
  match e with
  | te_enter _ _ _ t2 | te_leave _ t2 | te_leave_label _ _ t2 => t2
  end.

(** The thread time that passes, between the events, while the stack of
    open scopes is [k]: from the second reading of an event to the first
    reading of the next.  [s] is the stack the events start with and [t0]
    the thread time at which the current counter was started. *)
Fixpoint time_at (k : list LabelType) (es : list time_event)
    (s : list LabelType) (t0 : Z) : Z :=
  match es with
  | [] => 0
  | e :: es =>
      ((if decide (s = k) then first_reading e - t0 else 0)
       + match stack_call (time_event_call e) s with
         | Ok s' => time_at k es s' (second_reading e)
         | Err _ => 0
         end)%Z
  end.

Lemma run_time_event_unfold e (r : time_recorder_t) :
  run_time_event e r =
    (v ← cnt_of r;
     r1 ← run_call (time_event_call e) (cnt_write (charge (first_reading e) v) r);
     v1 ← cnt_of r1;
     Ok (cnt_write (restart (second_reading e) v1) r1)).
Proof. destruct e; reflexivity. Qed.

(** One event: the time since the current counter was started is charged
    to the stack that is open before the event, and the counter of the
    stack that is open after the event is started. *)
Lemma time_event_step e (r r' : time_recorder_t) s prof :
  inv r → call_labels_ok (time_event_call e) →
  open_scopes r s → holds_profile r prof →
  run_time_event e r = Ok r' →
  inv r' ∧
  ∃ s' prof',
    stack_call (time_event_call e) s = Ok s' ∧
    open_scopes r' s' ∧ holds_profile r' prof' ∧
    m_start (prof' s') = second_reading e ∧
    ∀ k, m_duration (prof' k) =
      (m_duration (prof k)
       + if decide (s = k) then first_reading e - m_start (prof s) else 0)%Z.
Proof.
  intros Hinv Hok Hopen Hprof Hrun. rewrite run_time_event_unfold in Hrun.
  destruct (inv_current r Hinv) as [cur Hcur].
  assert (Hcnt : cnt_of r = Ok (m_value cur)).
  { unfold cnt_of. rewrite (deref_Some _ _ _ Hcur). reflexivity. }
  rewrite Hcnt in Hrun. cbn [mbind result_bind] in Hrun.
  set (t1 := first_reading e) in *. set (t2 := second_reading e) in *.
  set (r0 := cnt_write (charge t1 (m_value cur)) r) in *.
  assert (Hinv0 : inv r0) by apply cnt_write_inv, Hinv.
  assert (Hopen0 : open_scopes r0 s) by apply open_scopes_update, Hopen.
  assert (Hprof0 : holds_profile r0 (profile_update s (charge t1) prof))
    by (apply holds_profile_update; assumption).
  pose proof (open_scopes_call (time_event_call e) r0 s Hinv0 Hok Hopen0) as Hstep.
  destruct (run_call (time_event_call e) r0) as [r1|err] eqn:Hcall;
    [|discriminate].
  cbn [mbind result_bind] in Hrun.
  destruct Hstep as (Hinv1 & s1 & Hs1 & Hopen1).
  pose proof (holds_profile_call _ r0 r1 s _ Hinv0 Hok Hopen0 Hprof0 Hcall)
    as Hprof1.
  destruct (inv_current r1 Hinv1) as [cur1 Hcur1].
  assert (Hcnt1 : cnt_of r1 = Ok (m_value cur1)).
  { unfold cnt_of. rewrite (deref_Some _ _ _ Hcur1). reflexivity. }
  rewrite Hcnt1 in Hrun. cbn [mbind result_bind] in Hrun. injection Hrun as <-.
  split; [apply cnt_write_inv, Hinv1|].
  exists s1, (profile_update s1 (restart t2) (profile_update s (charge t1) prof)).
  split; [exact Hs1|]. split; [apply open_scopes_update, Hopen1|].
  split; [apply holds_profile_update; assumption|]. split.
  - unfold profile_update at 1. rewrite decide_True by reflexivity. reflexivity.
  - intros k. unfold profile_update.
    repeat case_decide; simplify_eq; cbn [restart charge m_duration]; lia.
Qed.

(** Thread time is charged to the call path it passes on.  After a run of
    timed scopes that returns, the duration of each node is what it was
    before (for a node the run created: that of the default measure) plus
    the thread time that passed, between the calls of the recorder, while
    the stack of open scopes was the node's stack; the time that passes
    inside [begin_scope] and [end_scope], between the two readings of an
    event, is charged to no node. *)
Theorem thread_time_by_call_path es : ∀ (r : time_recorder_t) s prof r',
  reachable r → Forall (λ e, call_labels_ok (time_event_call e)) es →
  open_scopes r s → holds_profile r prof →
  run_time_events es r = Ok r' →
  (∃ s', stack_calls (map time_event_call es) s = Ok s' ∧ open_scopes r' s') ∧
  ∀ p n k, m_nodes r' !! p = Some n → node_stack r' p k →
    m_duration (m_value n)
      = (m_duration (prof k) + time_at k es s (m_start (prof s)))%Z.
Proof.
  intros r s prof r' Hreach.
  pose proof (reachable_inv r Hreach) as Hinv. clear Hreach.
  revert r s prof Hinv.
  induction es as [|e es IH]; intros r s prof Hinv Hok Hopen Hprof Hrun.
  - cbn in Hrun. injection Hrun as <-. split; [cbn; eauto|].
    intros p n k Hp Hk. rewrite (profile_nodes r prof Hprof p n k Hp Hk).
    cbn [time_at]. lia.
  - apply Forall_cons in Hok as [He Hok]. cbn [run_time_events] in Hrun.
    destruct (run_time_event e r) as [r1|err] eqn:Hstep; [|discriminate].
    cbn [mbind result_bind] in Hrun.
    destruct (time_event_step e r r1 s prof Hinv He Hopen Hprof Hstep)
      as (Hinv1 & s1 & prof1 & Hs1 & Hopen1 & Hprof1 & Hstart & Hdur).
    destruct (IH r1 s1 prof1 Hinv1 Hok Hopen1 Hprof1 Hrun) as [Hopen' Hnodes].
    split.
    + cbn [map stack_calls]. rewrite Hs1. exact Hopen'.
    + intros p n k Hp Hk. rewrite (Hnodes p n k Hp Hk), Hdur, Hstart.
      cbn [time_at]. rewrite Hs1. lia.
Qed.

End TimeProfile.

(** *** The report of a timed recorder *)

Section TimeReport.

Context {LabelType Stored State Env : Type}.
Context `{Countable LabelType}.
Context {helper : label_helper LabelType Stored State Env}.

(** The durations of a tree of time values. *)
Fixpoint durations (t : tree (Stored := Stored) (MeasureType := time_value_t))
  : tree (Stored := Stored) (MeasureType := Z) :=
  match t with
  | Node p l v kids => Node p l (get_duration v) (map durations kids)
  end.

Definition visit_duration (v : visit (Stored := Stored) (MeasureType := time_value_t))
  : visit (Stored := Stored) (MeasureType := Z) :=
  {| v_label := v_label v;
     v_self := get_duration (v_self v);
     v_total := get_duration (v_total v) |}.

Lemma time_value_add_assoc a b c :
  time_value_add (time_value_add a b) c = time_value_add a (time_value_add b c).
Proof. unfold time_value_add. cbn. f_equal. lia. Qed.

Lemma fold_time_value_add (vs : list time_value_t) : ∀ a,
  get_duration (fold_left time_value_add vs a)
    = fold_left Z.add (map get_duration vs) (get_duration a) ∧
  m_start (fold_left time_value_add vs a) = m_start a.
Proof.
  induction vs as [|v vs IH]; intros a; [split; reflexivity|].
  cbn [fold_left map]. destruct (IH (time_value_add a v)) as [-> ->].
  split; reflexivity.
Qed.

(** [operator+] adds the durations and keeps the start of its left
    operand: the total of a tree has the sum of the durations of the
    tree and the start of the root. *)
Lemma tree_total_durations
    (t : tree (Stored := Stored) (MeasureType := time_value_t)) :
  get_duration (tree_total time_value_add t) = tree_total Z.add (durations t) ∧
  m_start (tree_total time_value_add t)
    = m_start (match t with Node _ _ v _ => v end).
Proof.
  induction t as [p l v kids IH] using tree_ind_kids.
  cbn [tree_total durations].
  assert (Hkids : ∀ a,
    get_duration
      (fold_left (λ acc k, time_value_add acc (tree_total time_value_add k))
         kids a)
    = fold_left (λ acc k, (acc + tree_total Z.add k)%Z) (map durations kids)
        (get_duration a) ∧
    m_start
      (fold_left (λ acc k, time_value_add acc (tree_total time_value_add k))
         kids a)
    = m_start a).
  { induction kids as [|k kids IHkids]; intros a; [split; reflexivity|].
    apply Forall_cons in IH as [[IHk _] IH]. cbn [fold_left map].
    destruct (IHkids IH (time_value_add a (tree_total time_value_add k)))
      as [-> ->].
    cbn [time_value_add get_duration m_duration m_start].
    unfold get_duration in IHk. rewrite IHk. split; reflexivity. }
  apply Hkids.
Qed.

Lemma postorder_durations
    (t : tree (Stored := Stored) (MeasureType := time_value_t)) :
  map visit_duration (postorder time_value_add t)
    = postorder Z.add (durations t).
Proof.
  induction t as [p l v kids IH] using tree_ind_kids.
  cbn [postorder durations]. rewrite map_app. cbn [map]. f_equal.
  - clear v. induction kids as [|k kids IHkids]; [reflexivity|].
    apply Forall_cons in IH as [IHk IH].
    cbn [flat_map map]. rewrite map_app, IHk, (IHkids IH). reflexivity.
  - unfold visit_duration. cbn [v_label v_self v_total]. do 2 f_equal.
    exact (proj1 (tree_total_durations (Node p l v kids))).
Qed.

Lemma visits_of_durations st x
    (vs : list (visit (Stored := Stored) (MeasureType := time_value_t))) :
  map visit_duration (visits_of st x vs)
    = visits_of st x (map visit_duration vs).
Proof.
  unfold visits_of. induction vs as [|v vs IH]; [reflexivity|].
  cbn [map]. rewrite !filter_cons. cbn [visit_duration v_label].
  case_decide; cbn [map]; rewrite IH; reflexivity.
Qed.

(** [to_report()] of a timed recorder, with [operator+] of
    [time_value_t]: the duration of the [self] of a label is the sum of
    the own durations of the nodes that carry it, and the duration of its
    [total] counts the duration of a node once for each scope that
    encloses the node, the node included, and carries the label; the
    start of an entry is that of the node of the label visited first. *)
Theorem time_report_durations
    (r : recorder_t (Stored := Stored) (State := State)
           (MeasureType := time_value_t))
    (t : tree (Stored := Stored) (MeasureType := time_value_t)) :
  ordered (m_nodes r) → represents (m_nodes r) None t →
  tree_ptr t = m_root r →
  ∃ rep,
    to_report time_value_add r = Ok (rep, set_running false r) ∧
    ∀ x e, report rep !! x = Some e →
      get_duration (total e) = weighted (m_helper rep) x 0 (durations t) ∧
      get_duration (self e) = own (m_helper rep) x (durations t) ∧
      ∃ v vs, visits_of (m_helper rep) x (postorder time_value_add t) = v :: vs ∧
        m_start (self e) = m_start (v_self v) ∧
        m_start (total e) = m_start (v_total v).
Proof.
  intros Hord Hrep Hroot. eexists.
  split; [apply (to_report_tree time_value_add r t Hord Hrep Hroot)|].
  intros x e. cbn [report m_helper].
  rewrite add_visits_lookup, lookup_empty.
  set (st := helper_copy (m_label_helper r)).
  destruct (visits_sums st x (durations t)) as [Htot Hown].
  rewrite <- postorder_durations, <- visits_of_durations in Htot, Hown.
  destruct (visits_of st x (postorder time_value_add t)) as [|v vs];
    [discriminate|].
  rewrite merge_visits_cons. intros [= <-]. cbn [total self].
  destruct (fold_time_value_add (map v_total vs) (v_total v)) as [Hd1 Hs1].
  destruct (fold_time_value_add (map v_self vs) (v_self v)) as [Hd2 Hs2].
  rewrite Hd1, Hd2, !fold_left_add.
  cbn [map foldr visit_duration v_total v_self] in Htot, Hown.
  rewrite !map_map in Htot, Hown. rewrite !map_map.
  cbn [visit_duration v_total v_self] in Htot, Hown.
  split; [lia|]. split; [lia|]. exists v, vs. auto.
Qed.

End TimeReport.

(** *** fiya-cyg-overloads.cpp *)

(** [scoping_interface_t<LabelType>]: the virtual functions of an object
    whose state is an [S]. *)
Record scoping_interface_t (LabelType S : Type) : Type := {
  si_begin_scope : LabelType → S → result S;
  si_end_scope : S → result S;
  si_end_scope_label : LabelType → S → result S;
  si_recorder_internal_running : S → bool
}.
Arguments si_begin_scope {LabelType S} _ _ _.
Arguments si_end_scope {LabelType S} _ _.
Arguments si_end_scope_label {LabelType S} _ _ _.
Arguments si_recorder_internal_running {LabelType S} _ _.

(** The state of the instrumentation: the flag [cyg_profiling_ongoing]
    and the object [get_recorder()] returns ([None] for a null pointer).
    A [void*] is the address it holds. *)
Record cyg_state (S : Type) : Type := {
  cyg_profiling_ongoing : bool;
  get_recorder : option S
}.
Arguments cyg_profiling_ongoing {S} _.
Arguments get_recorder {S} _.

Section CygOverloads.

Context {S : Type}.
Variable recorder_interface : scoping_interface_t Z S.

(** [void __cyg_profile_func_enter(void *this_fn, void *call_site)] *)
Definition __cyg_profile_func_enter (this_fn call_site : Z) (s : cyg_state S)
  : result (cyg_state S) :=
  if negb (cyg_profiling_ongoing s) then
    (* cyg_profiling_ongoing = true *)
    my_recorder ←
      match get_recorder s with
      | Some my_recorder =>
          if negb (si_recorder_internal_running recorder_interface my_recorder)
          then r ← si_begin_scope recorder_interface this_fn my_recorder;
               Ok (Some r)
          else Ok (Some my_recorder)
      | None => Ok None
      end;
    Ok {| cyg_profiling_ongoing := false; get_recorder := my_recorder |}
  else Ok s.

(** [void __cyg_profile_func_exit(void *this_fn, void *call_site)] *)
Definition __cyg_profile_func_exit (this_fn call_site : Z) (s : cyg_state S)
  : result (cyg_state S) :=
  if negb (cyg_profiling_ongoing s) then
    (* cyg_profiling_ongoing = true *)
    my_recorder ←
      match get_recorder s with
      | Some my_recorder =>
          if negb (si_recorder_internal_running recorder_interface my_recorder)
          then r ← si_end_scope_label recorder_interface this_fn my_recorder;
               Ok (Some r)
          else Ok (Some my_recorder)
      | None => Ok None
      end;
    Ok {| cyg_profiling_ongoing := false; get_recorder := my_recorder |}
  else Ok s.

(** What the compiler makes an instrumented program do: call one of the
    two functions, on entering and on leaving a function. *)
Inductive cyg_event : Set :=
  | cyg_enter (this_fn call_site : Z)
  | cyg_exit (this_fn call_site : Z).

Definition run_cyg_event (e : cyg_event) (s : cyg_state S)
  : result (cyg_state S) :=
  match e with
  | cyg_enter this_fn call_site => __cyg_profile_func_enter this_fn call_site s
  | cyg_exit this_fn call_site => __cyg_profile_func_exit this_fn call_site s
  end.

Fixpoint run_cyg_events (es : list cyg_event) (s : cyg_state S)
  : result (cyg_state S) :=
  match es with
  | [] => Ok s
  | e :: es => s' ← run_cyg_event e s; run_cyg_events es s'
  end.

(** The events of function calls that return: each function is left
    after the functions it called have been left. *)
Inductive call_trace : list cyg_event → Prop :=
  | trace_nil : call_trace []
  | trace_call this_fn call_site call_site' body rest :
      call_trace body → call_trace rest →
      call_trace
        (cyg_enter this_fn call_site :: body
           ++ cyg_exit this_fn call_site' :: rest).

End CygOverloads.

Section CygRecorder.

Context {MeasureType : Type} {hooks : heap_hooks MeasureType}.

#[local] Abbreviation cyg_recorder_t :=
  (recorder_t (Stored := Z) (State := unit) (MeasureType := MeasureType)).

(** A [recorder_t<void*, MeasureType>] as the [scoping_interface_t<void*>]
    that [get_recorder()] returns. *)
Definition recorder_scoping : scoping_interface_t Z cyg_recorder_t :=
  {| si_begin_scope := λ label r, begin_scope label tt r;
     si_end_scope := end_scope;
     si_end_scope_label := end_scope_label;
     si_recorder_internal_running := recorder_internal_running_of |}.

(** The call of the recorder an event makes. *)
Definition cyg_call (e : cyg_event) : scope_call (LabelType := Z) (Env := unit) :=
  match e with
  | cyg_enter this_fn _ => call_begin this_fn tt
  | cyg_exit this_fn _ => call_end_label this_fn
  end.

Lemma call_trace_nested es : call_trace es → well_nested (map cyg_call es).
Proof.
  induction 1 as [|f c c' body rest _ IHbody _ IHrest]; [constructor|].
  cbn [map cyg_call]. rewrite map_app. cbn [map cyg_call].
  apply nested_scope_label; [exact I|assumption..].
Qed.

Lemma run_call_inv c (r r' : cyg_recorder_t) :
  inv r → run_call c r = Ok r' → inv r'.
Proof.
  intros Hinv Hrun. destruct c as [x env| |x]; cbn [run_call] in Hrun.
  - apply (begin_scope_post x env r r' Hinv I Hrun).
  - destruct (end_scope_ok r r' Hinv Hrun) as (_ & _ & _ & _ & _ & H). exact H.
  - destruct (end_scope_label_ok x r r' Hinv Hrun)
      as (_ & _ & _ & _ & _ & _ & H). exact H.
Qed.

(** With an idle recorder installed and no event under way, the events
    are the calls of the recorder. *)
Lemma run_cyg_events_calls es : ∀ r : cyg_recorder_t,
  inv r →
  run_cyg_events recorder_scoping es
    {| cyg_profiling_ongoing := false; get_recorder := Some r |}
  = (r' ← run_calls (map cyg_call es) r;
     Ok {| cyg_profiling_ongoing := false; get_recorder := Some r' |}).
Proof.
  induction es as [|e es IH]; intros r Hinv; [reflexivity|].
  cbn [run_cyg_events map run_calls].
  assert (Hstep : run_cyg_event recorder_scoping e
                    {| cyg_profiling_ongoing := false; get_recorder := Some r |}
                  = (r' ← run_call (cyg_call e) r;
                     Ok {| cyg_profiling_ongoing := false;
                           get_recorder := Some r' |})).
  { destruct e as [f c|f c];
      cbn [run_cyg_event __cyg_profile_func_enter __cyg_profile_func_exit
           cyg_profiling_ongoing get_recorder negb recorder_scoping
           si_recorder_internal_running si_begin_scope si_end_scope_label
           cyg_call run_call];
      unfold recorder_internal_running_of; rewrite (inv_idle r Hinv);
      cbn [negb mbind result_bind].
    - destruct (begin_scope f tt r); reflexivity.
    - destruct (end_scope_label f r); reflexivity. }
  rewrite Hstep.
  destruct (run_call (cyg_call e) r) as [r1|err] eqn:Hcall;
    cbn [mbind result_bind]; [|reflexivity].
  apply IH. eapply run_call_inv; eassumption.
Qed.

(** The instrumentation of a program with [-finstrument-functions].
    An event that arrives while another is under way, or while no
    recorder is installed, or while the recorder is busy, changes
    nothing.  With an idle recorder installed, the events of function
    calls that return bring the recorder back to the node it was on,
    trip none of its asserts and change no measure; leaving a function
    that was not entered under the recorder, with the recorder on its
    root, trips the [assert] of [end_scope]. *)
Theorem cyg_profile_calls :
  (∀ (S : Type) (i : scoping_interface_t Z S) e (s : cyg_state S),
     cyg_profiling_ongoing s = true ∨ get_recorder s = None ∨
     (∃ r, get_recorder s = Some r ∧ si_recorder_internal_running i r = true) →
     run_cyg_event i e s
       = Ok {| cyg_profiling_ongoing := cyg_profiling_ongoing s;
               get_recorder := get_recorder s |}) ∧
  (∀ es (r : cyg_recorder_t),
     reachable r → call_trace es →
     ∃ r', run_cyg_events recorder_scoping es
             {| cyg_profiling_ongoing := false; get_recorder := Some r |}
           = Ok {| cyg_profiling_ongoing := false; get_recorder := Some r' |} ∧
       m_current_node r' = m_current_node r ∧
       ∀ p n, m_nodes r !! p = Some n →
         ∃ n', m_nodes r' !! p = Some n' ∧ m_value n' = m_value n) ∧
  (∀ (r : cyg_recorder_t) this_fn call_site,
     reachable r → m_current_node r = m_root r →
     __cyg_profile_func_exit recorder_scoping this_fn call_site
       {| cyg_profiling_ongoing := false; get_recorder := Some r |}
     = Err StackUnderflow).
Proof.
  split; [|split].
  - intros S i e [ongoing rec] Hcase. cbn [cyg_profiling_ongoing get_recorder] in *.
    destruct ongoing; [destruct e; reflexivity|].
    destruct Hcase as [Hon|[->|(r & -> & Hbusy)]]; [discriminate| |];
      destruct e as [f c|f c];
      cbn [run_cyg_event __cyg_profile_func_enter __cyg_profile_func_exit
           cyg_profiling_ongoing get_recorder negb];
      try rewrite Hbusy; reflexivity.
  - intros es r Hreach Htrace. pose proof (reachable_inv r Hreach) as Hinv.
    rewrite (run_cyg_events_calls es r Hinv).
    pose proof (well_nested_run (map cyg_call es) (call_trace_nested es Htrace)
                  r Hinv) as Hrun.
    destruct (run_calls (map cyg_call es) r) as [r'|err].
    + destruct Hrun as (_ & Hext & Hcur). exists r'.
      split; [reflexivity|]. split; [exact Hcur|].
      intros p n Hp.
      destruct (ext_nodes r r' Hext p n Hp) as (n' & Hp' & _ & Hv & _). eauto.
    + destruct Hrun as (x & env & st & Hsave). cbn in Hsave. discriminate.
  - intros r f c Hreach Hroot. pose proof (reachable_inv r Hreach) as Hinv.
    cbn [__cyg_profile_func_exit cyg_profiling_ongoing get_recorder negb
         recorder_scoping si_recorder_internal_running si_end_scope_label].
    unfold recorder_internal_running_of. rewrite (inv_idle r Hinv).
    cbn [negb]. destruct (end_scope_root r Hinv Hroot) as [_ ->]. reflexivity.
Qed.

End CygRecorder.

(** *** A scenario: string labels, integer measures, no overloads *)

Section Scenario.

#[local] Instance scenario_hooks : heap_hooks Z := no_overloads Z.

Definition plain_recorder : Type :=
  recorder_t (Stored := string) (State := unit) (MeasureType := Z).

Definition scenario_node (l : string) (v : Z) (parent : option nat)
    (children : list nat) : measure_node_t (Stored := string) (MeasureType := Z) :=
  {| m_label := l; m_value := v; m_parent := parent; m_children := children |}.

(** [recorder_t<std::string, long> rec(0, "root", 1);] *)
Definition scenario_root : plain_recorder :=
  {| m_recorder_internal_running := false; m_label_helper := tt;
     m_default_value := 0%Z;
     m_nodes := [scenario_node "root" 1 None []];
     m_root := 0; m_current_node := 0 |}.

Definition scenario_calls : list (scope_call (LabelType := string) (Env := unit)) :=
  [call_begin "f1" tt; call_begin "f2" tt; call_end; call_end_label "f1";
   call_begin "f3" tt; call_end].

(** The recorder after [scenario_calls]. *)
Definition scenario_scopes : plain_recorder :=
  {| m_recorder_internal_running := false; m_label_helper := tt;
     m_default_value := 0%Z;
     m_nodes := [scenario_node "root" 1 None [1; 3];
                 scenario_node "f1" 0 (Some 0) [2];
                 scenario_node "f2" 0 (Some 1) [];
                 scenario_node "f3" 0 (Some 0) []];
     m_root := 0; m_current_node := 0 |}.

(** The recorder after [root -> f1 -> f2 -> f3] with the measures 1, 2, 3
    and 4, and a second scope [f3] below the root with the measure 10. *)
Definition scenario_tree : plain_recorder :=
  {| m_recorder_internal_running := false; m_label_helper := tt;
     m_default_value := 0%Z;
     m_nodes := [scenario_node "root" 1 None [1; 4];
                 scenario_node "f1" 2 (Some 0) [2];
                 scenario_node "f2" 3 (Some 1) [3];
                 scenario_node "f3" 4 (Some 2) [];
                 scenario_node "f3" 10 (Some 0) []];
     m_root := 0; m_current_node := 0 |}.

Definition scenario_tree_of : tree (Stored := string) (MeasureType := Z) :=
  Node 0 "root" 1%Z
    [Node 1 "f1" 2%Z [Node 2 "f2" 3%Z [Node 3 "f3" 4%Z []]];
     Node 4 "f3" 10%Z []].

Lemma scenario_root_reachable : reachable scenario_root.
Proof. apply (reachable_new 0%Z "root" tt 1%Z); [exact I|reflexivity]. Qed.

Lemma scenario_calls_run :
  run_calls scenario_calls scenario_root = Ok scenario_scopes.
Proof. reflexivity. Qed.

Lemma scenario_scopes_reachable : reachable scenario_scopes.
Proof.
  apply (run_calls_reachable scenario_calls scenario_root).
  - exact scenario_root_reachable.
  - repeat constructor.
  - exact scenario_calls_run.
Qed.

Lemma scenario_calls_nested : well_nested scenario_calls.
Proof.
  apply (nested_scope_label "f1" tt [call_begin "f2" tt; call_end]
           [call_begin "f3" tt; call_end]).
  - exact I.
  - apply (nested_scope "f2" tt [] []); [exact I|constructor|constructor].
  - apply (nested_scope "f3" tt [] []); [exact I|constructor|constructor].
Qed.

Lemma scenario_tree_ordered : ordered (m_nodes scenario_tree).
Proof.
  intros p n q Hp Hq.
  destruct p as [|[|[|[|[|p]]]]]; cbn in Hp; try discriminate;
    injection Hp as <-; cbn in Hq; try discriminate;
    injection Hq as <-; lia.
Qed.

Lemma scenario_tree_represents :
  represents (m_nodes scenario_tree) None scenario_tree_of.
Proof. repeat (constructor; [reflexivity|]); repeat constructor. Qed.

(** The tree of the recorder after [scenario_calls]. *)
Lemma reachable_tree_witness :
  ordered (m_nodes scenario_scopes) ∧
  ∃ t, represents (m_nodes scenario_scopes) None t ∧
       tree_ptr t = m_root scenario_scopes.
Proof. exact (reachable_tree scenario_scopes scenario_scopes_reachable). Defined.

(** The run of C1 on the scenario. *)
Lemma scope_balance_witness :
  (∃ r', run_calls scenario_calls scenario_root = Ok r' ∧
         m_current_node r' = m_root r') ∧
  (end_scope scenario_root = Err StackUnderflow ∧
   ∀ label, end_scope_label label scenario_root = Err StackUnderflow).
Proof.
  split.
  - apply (proj1 (proj2 scope_balance)).
    + intros x env st. reflexivity.
    + exact scenario_root_reachable.
    + exact scenario_calls_nested.
    + reflexivity.
  - apply (proj2 (proj2 scope_balance) scenario_root).
    + exact scenario_root_reachable.
    + reflexivity.
Defined.

(** C5 on the recorder after [scenario_calls]: [begin_scope "f3"] finds
    the second child of the root. *)
Lemma begin_scope_children_witness :
  begin_scope "f3" tt scenario_scopes = Ok (move_to 3 scenario_scopes) ∧
  (∀ p n i j ci cj ni nj,
     m_nodes scenario_scopes !! p = Some n →
     m_children n !! i = Some ci → m_children n !! j = Some cj → i ≠ j →
     m_nodes scenario_scopes !! ci = Some ni →
     m_nodes scenario_scopes !! cj = Some nj →
     equal (m_label_helper scenario_scopes) (m_label ni)
       (restore (m_label_helper scenario_scopes) (m_label nj)) = false).
Proof.
  destruct (begin_scope_children scenario_scopes scenario_scopes_reachable)
    as [Hbegin Hdistinct].
  split; [|exact Hdistinct].
  destruct (Hbegin "f3" tt (scenario_node "root" 1 None [1; 3]) eq_refl)
    as [Hfound _].
  apply (Hfound 1 3 (scenario_node "f3" 0 (Some 0) [])); try reflexivity.
  intros j cj nj Hj Hcj Hnj.
  destruct j as [|j]; [|lia].
  cbn in Hcj. injection Hcj as <-. cbn in Hnj. injection Hnj as <-.
  reflexivity.
Defined.

(** C10 on the recorder after [scenario_calls]. *)
Lemma scopes_keep_measures_witness :
  (∀ (label : string) (env : unit) (r' : plain_recorder),
     label_ok (label_helper_laws := plain_laws string) label →
     begin_scope label env scenario_scopes = Ok r' →
     (∀ p n, m_nodes scenario_scopes !! p = Some n →
        ∃ n', m_nodes r' !! p = Some n' ∧ m_value n' = m_value n) ∧
     (∀ cur c cn,
        m_nodes scenario_scopes !! m_current_node scenario_scopes = Some cur →
        c ∈ m_children cur → m_nodes scenario_scopes !! c = Some cn →
        equal (m_label_helper scenario_scopes) (m_label cn) label = true →
        m_current_node r' = c ∧ m_nodes r' = m_nodes scenario_scopes) ∧
     (∀ p n', m_nodes r' !! p = Some n' →
        m_nodes scenario_scopes !! p = None →
        p = m_current_node r' ∧ m_value n' = m_default_value scenario_scopes)) ∧
  (∀ r' : plain_recorder, end_scope scenario_scopes = Ok r' →
     m_nodes r' = m_nodes scenario_scopes) ∧
  (∀ (label : string) (r' : plain_recorder),
     end_scope_label label scenario_scopes = Ok r' →
     m_nodes r' = m_nodes scenario_scopes).
Proof.
  exact (scopes_keep_measures scenario_scopes scenario_scopes_reachable).
Defined.

(** The formatters of the scenario: a label is its own text, a measure
    is written in decimal. *)
Definition show_label (l : string) : string := l.
Definition show_measure (z : Z) : string := pretty z.

(** C3 on the scenario. *)
Lemma collapsed_stack_lines_witness :
  to_collapsed_stacks "" show_label show_measure scenario_tree
    = Ok ("" +:+ lines_text tt show_label show_measure (tree_lines [] scenario_tree_of),
          set_running false scenario_tree) ∧
  map (λ line, (last line.1, line.2)) (tree_lines [] scenario_tree_of)
    = map (λ n, (Some n.1, n.2)) (preorder scenario_tree_of) ∧
  ∀ line,
    line_text tt show_label show_measure line
      = join ";" (map (λ l, show_label (restore tt l)) line.1)
        +:+ " " +:+ show_measure line.2 +:+ newline.
Proof.
  apply (collapsed_stack_lines scenario_tree scenario_tree_of "" show_label show_measure).
  - exact scenario_tree_ordered.
  - exact scenario_tree_represents.
  - reflexivity.
Defined.

(** The text of the scenario, line by line. *)
Example scenario_collapsed_text :
  to_collapsed_stacks "" show_label show_measure scenario_tree
    = Ok ("root 1" +:+ newline +:+
          "root;f1 2" +:+ newline +:+
          "root;f1;f2 3" +:+ newline +:+
          "root;f1;f2;f3 4" +:+ newline +:+
          "root;f3 10" +:+ newline,
          scenario_tree).
Proof. vm_compute. reflexivity. Qed.

(** C4 on the scenario: the total of the root is 1 + 2 + 3 + 4 + 10. *)
Lemma report_totals_witness :
  ∃ rep',
    to_report_node (length (m_nodes scenario_tree)) (m_nodes scenario_tree)
      Z.add (m_root scenario_tree)
      {| report := (∅ : gmap string report_entry_t); m_helper := tt |}
    = Ok (sum_of_measures scenario_tree_of, rep').
Proof.
  apply (proj2 (proj2 report_totals) scenario_tree scenario_tree_of).
  - exact scenario_tree_ordered.
  - exact scenario_tree_represents.
  - reflexivity.
Defined.

Example scenario_total : sum_of_measures scenario_tree_of = 20%Z.
Proof. reflexivity. Qed.

(** C6 on the scenario: the two nodes labelled [f3]. *)
Lemma report_collapses_labels_witness :
  (∃ rep : report_t (LabelType := string),
     to_report (helper := label_helper_plain string) Z.add scenario_tree
       = Ok (rep, set_running false scenario_tree) ∧
     m_helper rep
       = helper_copy (label_helper := label_helper_plain string)
           (m_label_helper scenario_tree) ∧
     ∀ x : string, report rep !! x =
       match visits_of (helper := label_helper_plain string) (m_helper rep) x
               (postorder Z.add scenario_tree_of) with
       | [] => None
       | v :: vs =>
           Some {| self := fold_left Z.add (map v_self vs) (v_self v);
                   total := fold_left Z.add (map v_total vs) (v_total v) |}
       end) ∧
  (v_total {| v_label := "f3"; v_self := 10%Z; v_total := 10%Z |}
     ≤ fold_left Z.add
         (map v_total [ {| v_label := "f3"; v_self := 10%Z; v_total := 10%Z |} ])
         (v_total {| v_label := "f3"; v_self := 4%Z; v_total := 4%Z |}))%Z.
Proof.
  split.
  - apply (proj1 report_collapses_labels Z Z.add scenario_tree scenario_tree_of).
    + exact scenario_tree_ordered.
    + exact scenario_tree_represents.
    + reflexivity.
  - apply (proj2 report_collapses_labels scenario_tree_of tt "f3"
             {| v_label := "f3"; v_self := 4%Z; v_total := 4%Z |}
             [ {| v_label := "f3"; v_self := 10%Z; v_total := 10%Z |} ]).
    + repeat constructor; cbn; lia.
    + reflexivity.
    + right. left.
Defined.

(** A recorder with a negative measure: [f] below the root with the
    measure 5, and [f] below [g] with the measure -3. *)
Definition scenario_signed : plain_recorder :=
  {| m_recorder_internal_running := false; m_label_helper := tt;
     m_default_value := 0%Z;
     m_nodes := [scenario_node "root" 0 None [1; 2];
                 scenario_node "f" 5 (Some 0) [];
                 scenario_node "g" 0 (Some 0) [3];
                 scenario_node "f" (-3) (Some 2) []];
     m_root := 0; m_current_node := 0 |}.

(** C6 as the specification words it fails for measures that may be
    negative: the walk returns the total 5 for the first node labelled
    [f], and the entry of [f] has the total 5 + -3 = 2. *)
Lemma report_total_below_occurrence :
  ∃ rep rep1,
    to_report (helper := label_helper_plain string) Z.add scenario_signed
      = Ok (rep, scenario_signed) ∧
    report rep !! "f" = Some {| self := 2%Z; total := 2%Z |} ∧
    to_report_node (helper := label_helper_plain string)
      (length (m_nodes scenario_signed)) (m_nodes scenario_signed) Z.add 1
      {| report := ∅; m_helper := tt |} = Ok (5%Z, rep1) ∧
    (2 < 5)%Z.
Proof.
  do 2 eexists. split; [reflexivity|]. split; [vm_compute; reflexivity|].
  split; [reflexivity|]. lia.
Qed.

(** The report of the scenario: [f3] at two positions makes one entry. *)
Example scenario_report :
  ∃ rep, to_report Z.add scenario_tree = Ok (rep, scenario_tree) ∧
    report rep !! "f3" = Some {| self := 14%Z; total := 14%Z |} ∧
    report rep !! "f2" = Some {| self := 3%Z; total := 7%Z |} ∧
    report rep !! "f1" = Some {| self := 2%Z; total := 9%Z |} ∧
    report rep !! "root" = Some {| self := 1%Z; total := 20%Z |} ∧
    size (report rep) = 4.
Proof.
  eexists. split; [reflexivity|]. vm_compute. repeat split; reflexivity.
Qed.

(** A recorder as constructed, on the scenario. *)
Lemma fresh_recorder_witness :
  reachable scenario_root ∧
  recorder_internal_running_of scenario_root = false ∧
  cnt_of scenario_root = Ok 1%Z ∧
  (∀ os l_out m_out,
     to_collapsed_stacks os l_out m_out scenario_root
       = Ok (os +:+ l_out "root" +:+ " " +:+ m_out 1%Z +:+ newline,
             scenario_root)) ∧
  (∀ op, ∃ rep,
     to_report op scenario_root = Ok (rep, scenario_root) ∧
     report rep = {[ "root" := {| self := 1%Z; total := 1%Z |} ]}) ∧
  end_scope scenario_root = Err StackUnderflow ∧
  (∀ label, end_scope_label label scenario_root = Err StackUnderflow) ∧
  recorder_delete scenario_root = Ok {[ 0 ]}.
Proof.
  apply (fresh_recorder 0%Z "root" tt 1%Z scenario_root); [exact I|reflexivity].
Defined.

(** The destructor on the recorder after [scenario_calls]. *)
Lemma destructor_releases_every_node_witness :
  ∃ freed, recorder_delete scenario_scopes = Ok freed ∧
    ∀ p, p ∈ freed ↔ p < 4.
Proof.
  exact (destructor_releases_every_node scenario_scopes scenario_scopes_reachable).
Defined.

Lemma scenario_root_open : open_scopes scenario_root [].
Proof. apply (open_scopes_new 0%Z "root" tt 1%Z). reflexivity. Qed.

Lemma scenario_root_profile :
  holds_profile scenario_root (λ k, if decide (k = []) then 1%Z else 0%Z).
Proof. apply (holds_profile_new 0%Z "root" tt 1%Z). reflexivity. Qed.

(** The stack of open scopes along [scenario_calls], and a run that ends
    a scope under a wrong label. *)
Lemma recorder_refines_stack_witness :
  (∃ s', stack_calls scenario_calls [] = Ok s' ∧ open_scopes scenario_scopes s') ∧
  (stack_calls [call_begin "f1" tt; call_end_label "f2"] []
     = Err LabelMismatch ∨
   ∃ (x : string) (env : unit) (st : unit), save x env st = Err LabelMismatch).
Proof.
  split.
  - apply (recorder_refines_stack scenario_calls scenario_root []
             scenario_root_reachable).
    + repeat constructor.
    + exact scenario_root_open.
  - apply (recorder_refines_stack [call_begin "f1" tt; call_end_label "f2"]
             scenario_root [] scenario_root_reachable).
    + repeat constructor.
    + exact scenario_root_open.
Defined.

(** Counters updated on the way: 5 is added at the root, 2 and then 3 in
    the scope [f1], opened twice. *)
Definition scenario_events
  : list (event (LabelType := string) (Env := unit) (MeasureType := Z)) :=
  [ev_update (Z.add 5); ev_call (call_begin "f1" tt); ev_update (Z.add 2);
   ev_call call_end; ev_call (call_begin "f1" tt); ev_update (Z.add 3);
   ev_call call_end].

Definition scenario_counted : plain_recorder :=
  {| m_recorder_internal_running := false; m_label_helper := tt;
     m_default_value := 0%Z;
     m_nodes := [scenario_node "root" 6 None [1];
                 scenario_node "f1" 5 (Some 0) []];
     m_root := 0; m_current_node := 0 |}.

Lemma recorder_refines_profile_witness :
  run_events scenario_events scenario_root = Ok scenario_counted ∧
  ∃ s' prof',
    profile_events scenario_events
      ([], λ k, if decide (k = []) then 1%Z else 0%Z) = Ok (s', prof') ∧
    open_scopes scenario_counted s' ∧ holds_profile scenario_counted prof'.
Proof.
  split; [reflexivity|].
  apply (recorder_refines_profile scenario_events scenario_root []
           (λ k, if decide (k = []) then 1%Z else 0%Z) scenario_root_reachable).
  - repeat constructor.
  - exact scenario_root_open.
  - exact scenario_root_profile.
Defined.

(** The collapsed stacks of the recorder after [scenario_calls]. *)
Lemma collapsed_stacks_distinct_witness :
  ∃ lines,
    to_collapsed_stacks "" show_label show_measure scenario_scopes
      = Ok ("" +:+ lines_text tt show_label show_measure lines,
            scenario_scopes) ∧
    length lines = 4 ∧
    NoDup (map (λ line, label_path tt line.1) lines) ∧
    ∀ p n, m_nodes scenario_scopes !! p = Some n →
      ∃ path, chain (m_nodes scenario_scopes) p path ∧ (path, m_value n) ∈ lines.
Proof.
  apply (collapsed_stacks_distinct scenario_scopes "" show_label show_measure).
  exact scenario_scopes_reachable.
Defined.

(** A scope nested in itself: [f] with the measure 5 calls [f] with the
    measure 3. *)
Definition scenario_recursion : plain_recorder :=
  {| m_recorder_internal_running := false; m_label_helper := tt;
     m_default_value := 0%Z;
     m_nodes := [scenario_node "root" 1 None [1];
                 scenario_node "f" 5 (Some 0) [2];
                 scenario_node "f" 3 (Some 1) []];
     m_root := 0; m_current_node := 0 |}.

Definition scenario_recursion_tree : tree (Stored := string) (MeasureType := Z) :=
  Node 0 "root" 1%Z [Node 1 "f" 5%Z [Node 2 "f" 3%Z []]].

Lemma scenario_recursion_ordered : ordered (m_nodes scenario_recursion).
Proof.
  intros p n q Hp Hq.
  destruct p as [|[|[|p]]]; cbn in Hp; try discriminate;
    injection Hp as <-; cbn in Hq; try discriminate;
    injection Hq as <-; lia.
Qed.

Lemma scenario_recursion_represents :
  represents (m_nodes scenario_recursion) None scenario_recursion_tree.
Proof. repeat (constructor; [reflexivity|]); repeat constructor. Qed.

Lemma report_counts_enclosing_scopes_witness :
  ∃ rep : report_t (LabelType := string),
    to_report (helper := label_helper_plain string) Z.add scenario_recursion
      = Ok (rep, set_running false scenario_recursion) ∧
    ∀ (x : string) e, report rep !! x = Some e →
      total e = weighted (helper := label_helper_plain string)
                  (m_helper rep) x 0 scenario_recursion_tree ∧
      self e = own (helper := label_helper_plain string)
                 (m_helper rep) x scenario_recursion_tree.
Proof.
  apply (report_counts_enclosing_scopes scenario_recursion scenario_recursion_tree).
  - exact scenario_recursion_ordered.
  - exact scenario_recursion_represents.
  - reflexivity.
Defined.

(** The report of the scope nested in itself: 8 was measured under [f],
    and the total of [f] is 5 + 3 + 3. *)
Example scenario_recursion_report :
  ∃ rep, to_report Z.add scenario_recursion = Ok (rep, scenario_recursion) ∧
    report rep !! "f" = Some {| self := 8%Z; total := 11%Z |} ∧
    report rep !! "root" = Some {| self := 1%Z; total := 9%Z |}.
Proof.
  eexists. split; [reflexivity|]. vm_compute. split; reflexivity.
Qed.

End Scenario.

(** *** A scenario with the heap overloads linked *)

Section HeapScenario.

#[local] Existing Instance fiya_heap_overloads.

Definition heap_recorder : Type :=
  recorder_t (Stored := string) (State := unit)
    (MeasureType := HeapOverlay.heap_usage_t).

(** [recorder_type my_recorder(heap_usage_t{}, "root", heap_usage_t{});]
    after the application allocated 16 bytes. *)
Definition heap_root : heap_recorder :=
  {| m_recorder_internal_running := false; m_label_helper := tt;
     m_default_value := HeapOverlay.heap_usage_zero;
     m_nodes :=
       [ {| m_label := "root";
            m_value := HeapOverlay.count_allocation 16
                         HeapOverlay.heap_usage_zero;
            m_parent := None; m_children := [] |} ];
     m_root := 0; m_current_node := 0 |}.

(** The recorder after [begin_scope("f1")]. *)
Definition heap_scope : heap_recorder :=
  {| m_recorder_internal_running := false; m_label_helper := tt;
     m_default_value := HeapOverlay.heap_usage_zero;
     m_nodes :=
       [ {| m_label := "root";
            m_value := HeapOverlay.count_allocation 16
                         HeapOverlay.heap_usage_zero;
            m_parent := None; m_children := [1] |};
         {| m_label := "f1"; m_value := HeapOverlay.heap_usage_zero;
            m_parent := Some 0; m_children := [] |} ];
     m_root := 0; m_current_node := 1 |}.

Lemma heap_root_reachable : reachable heap_root.
Proof.
  apply (reachable_cnt
           {| m_recorder_internal_running := false; m_label_helper := tt;
              m_default_value := HeapOverlay.heap_usage_zero;
              m_nodes :=
                [ {| m_label := "root"; m_value := HeapOverlay.heap_usage_zero;
                     m_parent := None; m_children := [] |} ];
              m_root := 0; m_current_node := 0 |}
           (HeapOverlay.count_allocation 16 HeapOverlay.heap_usage_zero)).
  apply (reachable_new HeapOverlay.heap_usage_zero "root" tt
           HeapOverlay.heap_usage_zero); [exact I|reflexivity].
Qed.

(** C9 on the scenario: the node [begin_scope] allocates is not counted
    in the counter of the root. *)
Lemma busy_recorder_is_not_counted_witness :
  (∀ p n, m_nodes heap_root !! p = Some n →
     ∃ n', m_nodes heap_scope !! p = Some n' ∧ m_value n' = m_value n) ∧
  (∀ p n', m_nodes heap_scope !! p = Some n' → m_nodes heap_root !! p = None →
     m_value n' = m_default_value heap_root).
Proof.
  apply (proj2 (proj2 (proj2 busy_recorder_is_not_counted))
           heap_root "f1" tt heap_scope).
  - exact heap_root_reachable.
  - exact I.
  - reflexivity.
Defined.

(** [recorder_type my_recorder(heap_usage_t{}, "root", heap_usage_t{});] *)
Definition heap_fresh : heap_recorder :=
  {| m_recorder_internal_running := false; m_label_helper := tt;
     m_default_value := HeapOverlay.heap_usage_zero;
     m_nodes :=
       [ {| m_label := "root"; m_value := HeapOverlay.heap_usage_zero;
            m_parent := None; m_children := [] |} ];
     m_root := 0; m_current_node := 0 |}.

Lemma heap_fresh_new :
  recorder_new HeapOverlay.heap_usage_zero "root" tt HeapOverlay.heap_usage_zero
    = Ok heap_fresh.
Proof. reflexivity. Qed.

(** 16 bytes at the root; in the scope [f1] 8 bytes and a request of
    [2^33] bytes, and the first block released; 4 bytes at the root. *)
Definition heap_events : list (heap_event (LabelType := string) (Env := unit)) :=
  [he_new 16 64; he_enter "f1" tt; he_new 8 128; he_new (2 ^ 33) 256;
   he_delete 72; he_leave; he_new 4 512].

Lemma heap_usage_by_call_path_witness :
  ∃ r' mem',
    run_heap_events heap_events (heap_fresh, λ _, 0%Z) = Ok (r', mem') ∧
    (∃ s', open_scopes r' s') ∧
    ∀ p n k, m_nodes r' !! p = Some n → node_stack r' p k →
      HeapOverlay.total_allocations (m_value n)
        = HeapOverlay.wrap64 (0 + allocated_at k heap_events []).
Proof.
  destruct (run_heap_events heap_events (heap_fresh, λ _, 0%Z))
    as [[r' mem']|err] eqn:Hrun; [|vm_compute in Hrun; discriminate].
  exists r', mem'. split; [reflexivity|].
  destruct (heap_usage_by_call_path heap_events heap_fresh []
              (λ k, if decide (k = []) then HeapOverlay.heap_usage_zero
                    else HeapOverlay.heap_usage_zero)
              (λ _, 0%Z) r' mem') as [Hopen Hnodes].
  - apply (reachable_new HeapOverlay.heap_usage_zero "root" tt
             HeapOverlay.heap_usage_zero); [exact I|exact heap_fresh_new].
  - repeat constructor.
  - exact (open_scopes_new _ _ _ _ _ heap_fresh_new).
  - exact (holds_profile_new _ _ _ _ _ heap_fresh_new).
  - intros k. case_decide; cbn; lia.
  - exact Hrun.
  - split; [exact Hopen|]. intros p n k Hp Hk.
    rewrite (Hnodes p n k Hp Hk). case_decide; reflexivity.
Defined.

(** The recorder the events leave: 20 bytes at the root and, under [f1],
    8 bytes and the saturated [2^32 - 1]. *)
Example heap_events_run :
  ∃ r' mem',
    run_heap_events heap_events (heap_fresh, λ _, 0%Z) = Ok (r', mem') ∧
    (HeapOverlay.total_allocations ∘ m_value) <$> m_nodes r'
      = [20; 8 + (2 ^ 32 - 1)]%Z ∧
    (HeapOverlay.current_allocations ∘ m_value) <$> m_nodes r'
      = [20; 8 + (2 ^ 32 - 1) - 16]%Z ∧
    allocated_at ["f1"] heap_events [] = (8 + (2 ^ 32 - 1))%Z.
Proof.
  do 2 eexists. split; [vm_compute; reflexivity|].
  vm_compute. repeat split; reflexivity.
Qed.

End HeapScenario.

(** *** A scenario with timed scopes *)

Section TimeScenario.

#[local] Instance time_hooks : heap_hooks time_value_t := no_overloads time_value_t.

Definition time_recorder : Type :=
  recorder_t (Stored := string) (State := unit) (MeasureType := time_value_t).

(** [recorder_type my_recorder({}, "root", time_value_t::now());] with the
    thread time 100 at its construction. *)
Definition time_fresh : time_recorder :=
  {| m_recorder_internal_running := false; m_label_helper := tt;
     m_default_value := time_value_zero;
     m_nodes := [ {| m_label := "root"; m_value := now 100;
                     m_parent := None; m_children := [] |} ];
     m_root := 0; m_current_node := 0 |}.

Lemma time_fresh_new :
  recorder_new time_value_zero "root" tt (now 100) = Ok time_fresh.
Proof. reflexivity. Qed.

(** [func1] is entered at 110, calls [func2] from 150 to 190 and is left
    at 200; every call of the recorder takes 5 ticks. *)
Definition time_events : list (time_event (LabelType := string) (Env := unit)) :=
  [te_enter "func1" tt 110 115; te_enter "func2" tt 150 155;
   te_leave 190 195; te_leave_label "func1" 200 205].

Lemma thread_time_by_call_path_witness :
  ∃ r',
    run_time_events time_events time_fresh = Ok r' ∧
    (∃ s', stack_calls (map time_event_call time_events) [] = Ok s' ∧
           open_scopes r' s') ∧
    ∀ p n k, m_nodes r' !! p = Some n → node_stack r' p k →
      m_duration (m_value n) = (0 + time_at k time_events [] 100)%Z.
Proof.
  destruct (run_time_events time_events time_fresh) as [r'|err] eqn:Hrun;
    [|vm_compute in Hrun; discriminate].
  exists r'. split; [reflexivity|].
  destruct (thread_time_by_call_path time_events time_fresh []
              (λ k, if decide (k = []) then now 100 else time_value_zero) r')
    as [Hopen Hnodes].
  - apply (reachable_new time_value_zero "root" tt (now 100));
      [exact I|exact time_fresh_new].
  - repeat constructor.
  - exact (open_scopes_new _ _ _ _ _ time_fresh_new).
  - exact (holds_profile_new _ _ _ _ _ time_fresh_new).
  - exact Hrun.
  - split; [exact Hopen|]. intros p n k Hp Hk.
    rewrite (Hnodes p n k Hp Hk). clear.
    destruct (decide (k = [])); reflexivity.
Defined.

(** The durations the events leave: 10 ticks at the root, 35 + 5 in
    [func1] and 35 in [func2]. *)
Example time_events_run :
  ∃ r', run_time_events time_events time_fresh = Ok r' ∧
    (m_duration ∘ m_value) <$> m_nodes r' = [10; 40; 35]%Z ∧
    time_at ["func1"] time_events [] 100 = 40%Z ∧
    time_at ["func2"; "func1"] time_events [] 100 = 35%Z.
Proof.
  eexists. split; [vm_compute; reflexivity|].
  vm_compute. repeat split; reflexivity.
Qed.

(** The recorder after the events, its tree, and the report. *)
Definition time_recorded : time_recorder :=
  {| m_recorder_internal_running := false; m_label_helper := tt;
     m_default_value := time_value_zero;
     m_nodes :=
       [ {| m_label := "root"; m_value := {| m_duration := 10; m_start := 205 |};
            m_parent := None; m_children := [1] |};
         {| m_label := "func1"; m_value := {| m_duration := 40; m_start := 195 |};
            m_parent := Some 0; m_children := [2] |};
         {| m_label := "func2"; m_value := {| m_duration := 35; m_start := 155 |};
            m_parent := Some 1; m_children := [] |} ];
     m_root := 0; m_current_node := 0 |}.

Definition time_recorded_tree
  : tree (Stored := string) (MeasureType := time_value_t) :=
  Node 0 "root" {| m_duration := 10; m_start := 205 |}
    [Node 1 "func1" {| m_duration := 40; m_start := 195 |}
       [Node 2 "func2" {| m_duration := 35; m_start := 155 |} []]].

Lemma time_events_recorded :
  run_time_events time_events time_fresh = Ok time_recorded.
Proof. reflexivity. Qed.

Lemma time_recorded_ordered : ordered (m_nodes time_recorded).
Proof.
  intros p n q Hp Hq.
  destruct p as [|[|[|p]]]; cbn in Hp; try discriminate;
    injection Hp as <-; cbn in Hq; try discriminate;
    injection Hq as <-; lia.
Qed.

Lemma time_recorded_represents :
  represents (m_nodes time_recorded) None time_recorded_tree.
Proof. repeat (constructor; [reflexivity|]); repeat constructor. Qed.

Lemma time_report_durations_witness :
  ∃ rep : report_t (LabelType := string),
    to_report (helper := label_helper_plain string) time_value_add time_recorded
      = Ok (rep, set_running false time_recorded) ∧
    ∀ (x : string) e, report rep !! x = Some e →
      get_duration (total e)
        = weighted (helper := label_helper_plain string) (m_helper rep) x 0
            (durations time_recorded_tree) ∧
      get_duration (self e)
        = own (helper := label_helper_plain string) (m_helper rep) x
            (durations time_recorded_tree) ∧
      ∃ v vs,
        visits_of (helper := label_helper_plain string) (m_helper rep) x
          (postorder time_value_add time_recorded_tree) = v :: vs ∧
        m_start (self e) = m_start (v_self v) ∧
        m_start (total e) = m_start (v_total v).
Proof.
  apply (time_report_durations time_recorded time_recorded_tree).
  - exact time_recorded_ordered.
  - exact time_recorded_represents.
  - reflexivity.
Defined.

(** The report of the timed scenario. *)
Example time_recorded_report :
  ∃ rep, to_report time_value_add time_recorded = Ok (rep, time_recorded) ∧
    get_duration ∘ total <$> report rep !! "root" = Some 85%Z ∧
    get_duration ∘ self <$> report rep !! "root" = Some 10%Z ∧
    get_duration ∘ total <$> report rep !! "func1" = Some 75%Z ∧
    get_duration ∘ total <$> report rep !! "func2" = Some 35%Z.
Proof.
  eexists. split; [reflexivity|]. vm_compute. repeat split; reflexivity.
Qed.

End TimeScenario.

(** *** A scenario with instrumented functions *)

Section CygScenario.

#[local] Instance cyg_hooks : heap_hooks Z := no_overloads Z.

Local Open Scope Z_scope.

Definition cyg_recorder : Type :=
  recorder_t (Stored := Z) (State := unit) (MeasureType := Z).

(** [recorder_t<void*, long> my_recorder(0, nullptr, 0);] *)
Definition cyg_fresh : cyg_recorder :=
  {| m_recorder_internal_running := false; m_label_helper := tt;
     m_default_value := 0;
     m_nodes := [ {| m_label := 0; m_value := 0;
                     m_parent := None; m_children := [] |} ];
     m_root := 0%nat; m_current_node := 0%nat |}.

Lemma cyg_fresh_reachable : reachable cyg_fresh.
Proof. apply (reachable_new 0 0 tt 0); [exact I|reflexivity]. Qed.

(** The function at 4096 calls the function at 8192 twice. *)
Definition cyg_events : list cyg_event :=
  [cyg_enter 4096 16; cyg_enter 8192 4100; cyg_exit 8192 4100;
   cyg_enter 8192 4120; cyg_exit 8192 4120; cyg_exit 4096 16].

Lemma cyg_events_trace : call_trace cyg_events.
Proof.
  apply (trace_call 4096 16 16
           [cyg_enter 8192 4100; cyg_exit 8192 4100;
            cyg_enter 8192 4120; cyg_exit 8192 4120] []); [|constructor].
  apply (trace_call 8192 4100 4100 []
           [cyg_enter 8192 4120; cyg_exit 8192 4120]); [constructor|].
  apply (trace_call 8192 4120 4120 [] []); constructor.
Qed.

Lemma cyg_profile_calls_witness :
  (∃ r', run_cyg_events recorder_scoping cyg_events
           {| cyg_profiling_ongoing := false; get_recorder := Some cyg_fresh |}
         = Ok {| cyg_profiling_ongoing := false; get_recorder := Some r' |} ∧
     m_current_node r' = m_current_node cyg_fresh ∧
     ∀ p n, m_nodes cyg_fresh !! p = Some n →
       ∃ n', m_nodes r' !! p = Some n' ∧ m_value n' = m_value n) ∧
  run_cyg_event recorder_scoping (cyg_enter 4096 16)
    {| cyg_profiling_ongoing := true; get_recorder := Some cyg_fresh |}
  = Ok {| cyg_profiling_ongoing := true; get_recorder := Some cyg_fresh |} ∧
  __cyg_profile_func_exit recorder_scoping 4096 16
    {| cyg_profiling_ongoing := false; get_recorder := Some cyg_fresh |}
  = Err StackUnderflow.
Proof.
  split; [|split].
  - apply (proj1 (proj2 cyg_profile_calls) cyg_events cyg_fresh).
    + exact cyg_fresh_reachable.
    + exact cyg_events_trace.
  - apply (proj1 cyg_profile_calls cyg_recorder recorder_scoping
             (cyg_enter 4096 16)
             {| cyg_profiling_ongoing := true; get_recorder := Some cyg_fresh |}).
    left. reflexivity.
  - apply (proj2 (proj2 cyg_profile_calls) cyg_fresh 4096 16).
    + exact cyg_fresh_reachable.
    + reflexivity.
Defined.

(** The tree the instrumented calls leave: one node for the function at
    8192 under the node of the function at 4096. *)
Example cyg_events_run :
  ∃ r', run_cyg_events recorder_scoping cyg_events
          {| cyg_profiling_ongoing := false; get_recorder := Some cyg_fresh |}
        = Ok {| cyg_profiling_ongoing := false; get_recorder := Some r' |} ∧
    m_label <$> m_nodes r' = [0; 4096; 8192] ∧
    m_parent <$> m_nodes r' = [None; Some 0%nat; Some 1%nat].
Proof.
  eexists. split; [vm_compute; reflexivity|]. split; reflexivity.
Qed.

End CygScenario.

End Recorder.
